(** * Tic-tac-toe move advisor: board rules engine and search engine

    A shallow embedding of [backend/core/game_engine.py],
    [backend/core/ai_algorithms.py] and the route [POST /move] of
    [backend/api/routes.py], followed by the properties of the search that
    the specification states and by further properties of the rules
    engine, the search and the route.

    Conventions of the embedding:
    - a board is the Python list of lists, read with list lookup; an index
      out of range raises [IndexError] as in Python;
    - a cell is a value of the [Player] enumeration of [models];
    - numeric scores are Python numbers that are either integers or one of
      the two infinities [float('inf')] and [float('-inf')];
    - an integer is written into a text as the interpreter does it, which
      refuses an integer of more than 4300 digits with a [ValueError];
    - the statistics counters of [AIAlgorithms] are threaded as a state;
    - recursion is bounded by a fuel argument; every move fills one of at
      most nine scanned cells, so ten units of fuel always suffice. *)

From stdpp Require Import base option list strings pretty sorting.
From Stdlib Require Import ZArith Lia.

Local Open Scope Z_scope.

(** ** Exceptions and the result type *)

(** [ValidationError] is the error of a pydantic model, a subclass of
    [ValueError]; it carries the message of the validator that failed.  The
    text that [str] gives it wraps that message in a report on the model
    and its input, which is not modelled. *)
Inductive exn : Type :=
  | ValueError (msg : string)
  | ValidationError (msg : string)
  | IndexError
  | TypeError
  | OutOfFuel.

Inductive result (A : Type) : Type :=
  | Ok (a : A)
  | Raise (e : exn).

Arguments Ok {A} a.
Arguments Raise {A} e.

#[global] Instance exn_eq_dec : EqDecision exn.
Proof. solve_decision. Defined.

#[global] Instance result_eq_dec `{EqDecision A} : EqDecision (result A).
Proof. solve_decision. Defined.

#[global] Instance result_ret : MRet result := fun A a => Ok a.
#[global] Instance result_bind : MBind result := fun A B f m =>
  match m with
  | Ok a => f a
  | Raise e => Raise e
  end.

(** ** models: Player and Move *)

Inductive Player : Type := X | O | EMPTY.

#[global] Instance Player_eq_dec : EqDecision Player.
Proof. solve_decision. Defined.

Record Move : Type := mkMove {
  row : nat;
  col : nat;
  score : option Z
}.

#[global] Instance Move_eq_dec : EqDecision Move.
Proof. solve_decision. Defined.

(** [Move(row=row, col=col)]: the score field is left at its default. *)
Definition Move_at (r c : nat) : Move := mkMove r c None.

(** A board is the list of its rows. *)
Abbreviation Board := (list (list Player)).

(** A board as a request carries it: any list of lists of strings. *)
Abbreviation RawBoard := (list (list string)).

(** [Player.value] *)
Definition Player_value (p : Player) : string :=
  match p with
  | X => "X"
  | O => "O"
  | EMPTY => ""
  end.

(** The mark that a cell string stands for, if it is one of the three. *)
Definition cell_of_string (s : string) : option Player :=
  if bool_decide (s = "X") then Some X
  else if bool_decide (s = "O") then Some O
  else if bool_decide (s = "") then Some EMPTY
  else None.

(** The board over [Player] that a list of lists of strings denotes. *)
Definition parse_board (raw : RawBoard) : option Board :=
  mapM (mapM cell_of_string) raw.

Definition render_board (board : Board) : RawBoard :=
  (λ rw : list Player, Player_value <$> rw) <$> board.

Inductive Algorithm : Type := MINIMAX | ALPHA_BETA | DEPTH_LIMITED.

Definition Algorithm_value (a : Algorithm) : string :=
  match a with
  | MINIMAX => "minimax"
  | ALPHA_BETA => "alpha_beta"
  | DEPTH_LIMITED => "depth_limited"
  end.

Inductive Difficulty : Type := EASY | MEDIUM | HARD.

Definition Difficulty_value (d : Difficulty) : string :=
  match d with
  | EASY => "easy"
  | MEDIUM => "medium"
  | HARD => "hard"
  end.

Module GameState.
Record t : Type := mk {
  board : Board;
  current_player : Player;
  winner : option string;
  move_count : nat
}.
End GameState.

(** ** game_engine.GameEngine *)

Module GameEngine.

Definition winning_combinations : list (list (nat * nat)) :=
  [ [(0, 0); (0, 1); (0, 2)];
    [(1, 0); (1, 1); (1, 2)];
    [(2, 0); (2, 1); (2, 2)];
    [(0, 0); (1, 0); (2, 0)];
    [(0, 1); (1, 1); (2, 1)];
    [(0, 2); (1, 2); (2, 2)];
    [(0, 0); (1, 1); (2, 2)];
    [(0, 2); (1, 1); (2, 0)] ]%nat.

(** [board[row][col]] *)
Definition cell (board : Board) (r c : nat) : result Player :=
  match board !! r with
  | None => Raise IndexError
  | Some rw =>
      match rw !! c with
      | None => Raise IndexError
      | Some p => Ok p
      end
  end.

(** [[board[row][col] for row, col in combination]] *)
Fixpoint cells_of (board : Board) (combination : list (nat * nat))
  : result (list Player) :=
  match combination with
  | [] => Ok []
  | (r, c) :: rest =>
      p ← cell board r c;
      ps ← cells_of board rest;
      mret (p :: ps)
  end.

Fixpoint check_winner_from (combinations : list (list (nat * nat)))
  (board : Board) : result (option Player) :=
  match combinations with
  | [] => Ok None
  | combination :: rest =>
      cells ← cells_of board combination;
      match cells with
      | [] => Raise IndexError
      | c0 :: _ =>
          if bool_decide (c0 ≠ EMPTY) && forallb (λ c, bool_decide (c = c0)) cells
          then Ok (Some c0)
          else check_winner_from rest board
      end
  end.

Definition check_winner (board : Board) : result (option Player) :=
  check_winner_from winning_combinations board.

(** The loop [for row in board: if "" in row: return False] of [is_draw];
    [true] when no row holds an empty cell. *)
Fixpoint board_full (rows : list (list Player)) : bool :=
  match rows with
  | [] => true
  | rw :: rest =>
      if bool_decide (EMPTY ∈ rw) then false else board_full rest
  end.

Definition is_draw (board : Board) : result bool :=
  w ← check_winner board;
  match w with
  | Some _ => Ok false
  | None => Ok (board_full board)
  end.

Definition is_game_over (board : Board) : result bool :=
  w ← check_winner board;
  match w with
  | Some _ => Ok true
  | None => is_draw board
  end.

(** [new_board = [row[:] for row in board]; new_board[r][c] = player] *)
Definition make_move (board : Board) (move : Move) (player : Player)
  : result Board :=
  let new_board := (λ rw : list Player, rw) <$> board in
  match new_board !! row move with
  | None => Raise IndexError
  | Some rw =>
      if bool_decide (col move < length rw)%nat
      then Ok (<[row move := <[col move := player]> rw]> new_board)
      else Raise IndexError
  end.

Fixpoint scan_cols (board : Board) (r : nat) (cols : list nat)
  (moves : list Move) : result (list Move) :=
  match cols with
  | [] => Ok moves
  | c :: cols' =>
      p ← cell board r c;
      scan_cols board r cols'
        (if bool_decide (p = EMPTY) then moves ++ [Move_at r c] else moves)
  end.

Fixpoint scan_rows (board : Board) (rows : list nat) (moves : list Move)
  : result (list Move) :=
  match rows with
  | [] => Ok moves
  | r :: rows' =>
      moves' ← scan_cols board r (seq 0 3) moves;
      scan_rows board rows' moves'
  end.

Definition get_available_moves (board : Board) : result (list Move) :=
  scan_rows board (seq 0 3) [].

Definition is_valid_move (board : Board) (r c : Z) : result bool :=
  if negb ((0 <=? r) && (r <=? 2) && (0 <=? c) && (c <=? 2))
  then Ok false
  else p ← cell board (Z.to_nat r) (Z.to_nat c); mret (bool_decide (p = EMPTY)).

(** [sum(row.count(mark) for row in board)] *)
Definition count_mark {A} `{EqDecision A} (mark : A) (board : list (list A))
  : nat :=
  sum_list ((λ rw, length (filter (λ c, c = mark) rw)) <$> board).

(** The loop over the rows of [is_valid_board]: [false] at the first row
    that has not three cells or holds a cell outside ["X", "O", ""]. *)
Fixpoint rows_valid (rows : RawBoard) : bool :=
  match rows with
  | [] => true
  | rw :: rest =>
      if negb (bool_decide (length rw = 3%nat)) then false
      else if negb (forallb (λ c, bool_decide (c ∈ ["X"; "O"; ""])) rw)
      then false
      else rows_valid rest
  end.

Definition is_valid_board (board : RawBoard) : bool :=
  if negb (bool_decide (length board = 3%nat)) then false
  else if negb (rows_valid board) then false
  else
    let x_count := count_mark "X" board in
    let o_count := count_mark "O" board in
    if (x_count <? o_count)%nat || (o_count + 1 <? x_count)%nat then false
    else true.

(** [winner = check_winner(board);
     if winner is None and is_draw(board): winner = "draw"] *)
Definition winner_or_draw (board : Board) : result (option string) :=
  w ← check_winner board;
  match w with
  | Some p => Ok (Some (Player_value p))
  | None => d ← is_draw board; Ok (if d : bool then Some "draw" else None)
  end.

(** The constructor of [GameState] runs [validate_board]; pydantic turns
    the [ValueError] of the validator into a [ValidationError]. *)
Definition get_game_state (board : Board) : result GameState.t :=
  winner ← winner_or_draw board;
  let x_count := count_mark X board in
  let o_count := count_mark O board in
  let current_player := if (o_count <? x_count)%nat then O else X in
  if negb (bool_decide (length board = 3%nat))
  then Raise (ValidationError "Board must have exactly 3 rows")
  else if negb (forallb (λ rw, bool_decide (length rw = 3%nat)) board)
  then Raise (ValidationError "Each row must have exactly 3 columns")
  else Ok (GameState.mk board current_player winner (x_count + o_count)).

End GameEngine.

(** ** ai_algorithms.AIAlgorithms *)

(** A Python number as the search handles it: an integer, or one of the
    two infinities that initialise the running best and the window. *)
Inductive Score : Type :=
  | NegInf
  | Fin (z : Z)
  | PosInf.

#[global] Instance Score_eq_dec : EqDecision Score.
Proof. solve_decision. Defined.

(** [a < b] *)
Definition score_lt (a b : Score) : bool :=
  match a, b with
  | NegInf, NegInf => false
  | NegInf, _ => true
  | Fin _, NegInf => false
  | Fin x, Fin y => x <? y
  | Fin _, PosInf => true
  | PosInf, _ => false
  end.

(** [a <= b] *)
Definition score_le (a b : Score) : bool := negb (score_lt b a).

(** [max(a, b)]: the first argument unless the second is greater. *)
Definition score_max (a b : Score) : Score := if score_lt a b then b else a.

(** [min(a, b)]: the first argument unless the second is smaller. *)
Definition score_min (a b : Score) : Score := if score_lt b a then b else a.

Module AlgorithmAnalysis.
Record t : Type := mk {
  nodes_explored : Z;
  pruned_branches : Z;
  max_depth_reached : Z;
  thinking_time : Z;
  move_reasoning : string;
  evaluation_score : Score
}.
End AlgorithmAnalysis.

(** What the engine reads from outside during one [get_best_move]: the two
    readings of [time.time()] (in clock ticks) and the two draws of the
    random generator.  [random.random()] returns [random53 / 2^53];
    [random.choice(seq)] returns [seq[choice_raw mod len(seq)]]. *)
Record Env : Type := mkEnv {
  time_at_reset : Z;
  time_at_analysis : Z;
  random53 : Z;
  choice_raw : nat
}.

Module AIAlgorithms.

Import GameEngine.

Definition AI_PLAYER : Player := O.
Definition HUMAN_PLAYER : Player := X.
Definition WIN_SCORE : Z := 100.
Definition LOSE_SCORE : Z := -100.
Definition DRAW_SCORE : Z := 0.

(** The attributes of the [AIAlgorithms] object that a search updates. *)
Record Stats : Type := mkStats {
  nodes_explored : Z;
  pruned_branches : Z;
  max_depth_reached : Z;
  start_time : Z
}.

(** Computations over the object's statistics that may raise. *)
Definition M (A : Type) : Type := Stats → result (A * Stats).

#[global] Instance M_ret : MRet M := fun A a st => Ok (a, st).
#[global] Instance M_bind : MBind M := fun A B f m st =>
  match m st with
  | Ok (a, st') => f a st'
  | Raise e => Raise e
  end.

Definition lift {A} (r : result A) : M A := fun st =>
  match r with
  | Ok a => Ok (a, st)
  | Raise e => Raise e
  end.

Definition raise {A} (e : exn) : M A := fun _ => Raise e.

(** [sys.get_int_max_str_digits()], at its default. *)
Definition int_max_str_digits : Z := 4300.

Definition int_str_error : exn :=
  ValueError
    "Exceeds the limit (4300 digits) for integer string conversion; use sys.set_int_max_str_digits() to increase the limit".

(** [f"{z}"] for an [int]: the interpreter refuses to convert to decimal
    an integer of more than [int_max_str_digits] digits, the sign not
    counted. *)
Definition str_of_int (z : Z) : result string :=
  if Z.abs z <? 10 ^ int_max_str_digits then Ok (pretty z)
  else Raise int_str_error.

Definition _reset_stats (now : Z) : M unit := fun _ =>
  Ok (tt, mkStats 0 0 0 now).

Definition _create_analysis (now : Z) (move_reasoning : string)
  (evaluation_score : Score) : M AlgorithmAnalysis.t := fun st =>
  Ok (AlgorithmAnalysis.mk (nodes_explored st) (pruned_branches st)
        (max_depth_reached st) (now - start_time st)
        move_reasoning evaluation_score, st).

(** [self.nodes_explored += 1;
     self.max_depth_reached = max(self.max_depth_reached, depth)] *)
Definition count_node (depth : Z) : M unit := fun st =>
  Ok (tt, mkStats (nodes_explored st + 1) (pruned_branches st)
            (Z.max (max_depth_reached st) depth) (start_time st)).

(** [self.pruned_branches += 1] *)
Definition count_pruned : M unit := fun st =>
  Ok (tt, mkStats (nodes_explored st) (pruned_branches st + 1)
            (max_depth_reached st) (start_time st)).

(** [self.pruned_branches], read for the rationale text *)
Definition read_pruned_branches : M Z := fun st =>
  Ok (pruned_branches st, st).

Definition corner_positions : list (nat * nat) :=
  [(0, 0); (0, 2); (2, 0); (2, 2)]%nat.

Fixpoint corner_loop (board : Board) (corners : list (nat * nat)) (sc : Z)
  : result Z :=
  match corners with
  | [] => Ok sc
  | (r, c) :: rest =>
      corner_player ← cell board r c;
      corner_loop board rest
        (if bool_decide (corner_player = AI_PLAYER) then sc + 2
         else if bool_decide (corner_player = HUMAN_PLAYER) then sc - 2
         else sc)
  end.

Definition _calculate_position_value (board : Board) : result Z :=
  center_player ← cell board 1 1;
  let sc :=
    if bool_decide (center_player = AI_PLAYER) then 0 + 3
    else if bool_decide (center_player = HUMAN_PLAYER) then 0 - 3
    else 0 in
  corner_loop board corner_positions sc.

Definition evaluate_position (board : Board) (depth : Z) : result Z :=
  winner ← check_winner board;
  if bool_decide (winner = Some AI_PLAYER) then Ok (WIN_SCORE - depth)
  else if bool_decide (winner = Some HUMAN_PLAYER) then Ok (LOSE_SCORE + depth)
  else
    d ← is_draw board;
    if d : bool then Ok DRAW_SCORE else _calculate_position_value board.

Definition _should_stop_search (board : Board) (depth max_depth : Z)
  : result bool :=
  over ← is_game_over board;
  if over : bool then Ok true else Ok (max_depth <=? depth).

(** The type of [minimax] once the fuel is fixed. *)
Definition minimax_t : Type :=
  Board → Z → bool → Z → M (option Move * Score).

(** The type of [alpha_beta] once the fuel is fixed. *)
Definition alpha_beta_t : Type :=
  Board → Z → Score → Score → bool → Z → M (option Move * Score).

(** The [for move in moves] loop of [_maximize_score], from the running
    [best_move] and [best_score]. *)
Fixpoint maximize_loop (rec : minimax_t) (board : Board) (depth : Z)
  (max_depth : Z) (moves : list Move) (best_move : option Move)
  (best_score : Score) : M (option Move * Score) :=
  match moves with
  | [] => mret (best_move, best_score)
  | move :: rest =>
      new_board ← lift (make_move board move AI_PLAYER);
      res ← rec new_board (depth + 1) false max_depth;
      let sc := res.2 in
      if score_lt best_score sc
      then maximize_loop rec board depth max_depth rest (Some move) sc
      else maximize_loop rec board depth max_depth rest best_move best_score
  end.

Definition _maximize_score (rec : minimax_t) (board : Board) (depth : Z)
  (moves : list Move) (max_depth : Z) : M (option Move * Score) :=
  maximize_loop rec board depth max_depth moves None NegInf.

Fixpoint minimize_loop (rec : minimax_t) (board : Board) (depth : Z)
  (max_depth : Z) (moves : list Move) (best_move : option Move)
  (best_score : Score) : M (option Move * Score) :=
  match moves with
  | [] => mret (best_move, best_score)
  | move :: rest =>
      new_board ← lift (make_move board move HUMAN_PLAYER);
      res ← rec new_board (depth + 1) true max_depth;
      let sc := res.2 in
      if score_lt sc best_score
      then minimize_loop rec board depth max_depth rest (Some move) sc
      else minimize_loop rec board depth max_depth rest best_move best_score
  end.

Definition _minimize_score (rec : minimax_t) (board : Board) (depth : Z)
  (moves : list Move) (max_depth : Z) : M (option Move * Score) :=
  minimize_loop rec board depth max_depth moves None PosInf.

Fixpoint minimax (fuel : nat) (board : Board) (depth : Z) (is_ai_turn : bool)
  (max_depth : Z) : M (option Move * Score) :=
  match fuel with
  | 0%nat => raise OutOfFuel
  | S fuel' =>
      _ ← count_node depth;
      stop ← lift (_should_stop_search board depth max_depth);
      if stop : bool then
        v ← lift (evaluate_position board depth);
        mret (None, Fin v)
      else
        available_moves ← lift (get_available_moves board);
        if is_ai_turn
        then _maximize_score (minimax fuel') board depth available_moves max_depth
        else _minimize_score (minimax fuel') board depth available_moves max_depth
  end.

Fixpoint maximize_pruning_loop (rec : alpha_beta_t) (board : Board)
  (depth : Z) (max_depth : Z) (beta : Score) (moves : list Move)
  (alpha : Score) (best_move : option Move) (best_score : Score)
  : M (option Move * Score) :=
  match moves with
  | [] => mret (best_move, best_score)
  | move :: rest =>
      new_board ← lift (make_move board move AI_PLAYER);
      res ← rec new_board (depth + 1) alpha beta false max_depth;
      let sc := res.2 in
      let best := if score_lt best_score sc then (Some move, sc)
                  else (best_move, best_score) in
      let alpha' := score_max alpha sc in
      if score_le beta alpha'
      then _ ← count_pruned; mret best
      else maximize_pruning_loop rec board depth max_depth beta rest
             alpha' best.1 best.2
  end.

Definition _maximize_with_pruning (rec : alpha_beta_t) (board : Board)
  (depth : Z) (moves : list Move) (alpha beta : Score) (max_depth : Z)
  : M (option Move * Score) :=
  maximize_pruning_loop rec board depth max_depth beta moves alpha None NegInf.

Fixpoint minimize_pruning_loop (rec : alpha_beta_t) (board : Board)
  (depth : Z) (max_depth : Z) (alpha : Score) (moves : list Move)
  (beta : Score) (best_move : option Move) (best_score : Score)
  : M (option Move * Score) :=
  match moves with
  | [] => mret (best_move, best_score)
  | move :: rest =>
      new_board ← lift (make_move board move HUMAN_PLAYER);
      res ← rec new_board (depth + 1) alpha beta true max_depth;
      let sc := res.2 in
      let best := if score_lt sc best_score then (Some move, sc)
                  else (best_move, best_score) in
      let beta' := score_min beta sc in
      if score_le beta' alpha
      then _ ← count_pruned; mret best
      else minimize_pruning_loop rec board depth max_depth alpha rest
             beta' best.1 best.2
  end.

Definition _minimize_with_pruning (rec : alpha_beta_t) (board : Board)
  (depth : Z) (moves : list Move) (alpha beta : Score) (max_depth : Z)
  : M (option Move * Score) :=
  minimize_pruning_loop rec board depth max_depth alpha moves beta None PosInf.

Fixpoint alpha_beta (fuel : nat) (board : Board) (depth : Z)
  (alpha beta : Score) (is_ai_turn : bool) (max_depth : Z)
  : M (option Move * Score) :=
  match fuel with
  | 0%nat => raise OutOfFuel
  | S fuel' =>
      _ ← count_node depth;
      stop ← lift (_should_stop_search board depth max_depth);
      if stop : bool then
        v ← lift (evaluate_position board depth);
        mret (None, Fin v)
      else
        available_moves ← lift (get_available_moves board);
        if is_ai_turn
        then _maximize_with_pruning (alpha_beta fuel') board depth
               available_moves alpha beta max_depth
        else _minimize_with_pruning (alpha_beta fuel') board depth
               available_moves alpha beta max_depth
  end.

Definition depth_limited_minimax (fuel : nat) (board : Board) (max_depth : Z)
  : M (option Move * Score) :=
  minimax fuel board 0 true max_depth.

Definition _get_search_depth (difficulty : string) (max_depth : option Z) : Z :=
  match max_depth with
  | Some d => d
  | None =>
      if bool_decide (difficulty = "easy") then 3
      else if bool_decide (difficulty = "medium") then 6
      else if bool_decide (difficulty = "hard") then 9
      else 6
  end.

Definition _run_algorithm (fuel : nat) (board : Board) (algorithm : string)
  (search_depth : Z) : M (option Move * Score * string) :=
  if bool_decide (algorithm = "alpha_beta") then
    res ← alpha_beta fuel board 0 NegInf PosInf true search_depth;
    pruned ← read_pruned_branches;
    text ← lift (str_of_int pruned);
    mret (res.1, res.2,
          "Alpha-beta pruning found best move (pruned " +:+ text
            +:+ " branches)")
  else if bool_decide (algorithm = "depth_limited") then
    res ← depth_limited_minimax fuel board search_depth;
    text ← lift (str_of_int search_depth);
    mret (res.1, res.2, "Depth-limited search to depth " +:+ text)
  else
    res ← minimax fuel board 0 true search_depth;
    mret (res.1, res.2, "Classic minimax algorithm").

(** [random.random() < 0.3]: the draw is [random53 / 2^53] and the double
    nearest to 0.3 is [5404319552844595 / 2^54]. *)
Definition random_below_threshold (env : Env) : bool :=
  2 * random53 env <? 5404319552844595.

(** [random.choice(available_moves)] *)
Definition random_choice (env : Env) (available_moves : list Move)
  : result Move :=
  match available_moves !! (choice_raw env mod length available_moves)%nat with
  | Some m => Ok m
  | None => Raise IndexError
  end.

(** Returns the move only: the assignment to the parameter
    [move_reasoning] inside the branch rebinds a local name and does not
    reach the caller. *)
Definition _apply_difficulty_adjustments (env : Env) (best_move : Move)
  (available_moves : list Move) (difficulty : string)
  (move_reasoning : string) : result Move :=
  if bool_decide (difficulty = "easy") && bool_decide (1 < length available_moves)%nat
  then
    if random_below_threshold env then
      random_move ← random_choice env available_moves;
      let move_reasoning := "Random move for easy difficulty" in
      Ok random_move
    else Ok best_move
  else Ok best_move.

Definition get_best_move (fuel : nat) (env : Env) (board : Board)
  (algorithm : string) (difficulty : string) (max_depth : option Z)
  : M (Move * AlgorithmAnalysis.t) :=
  _ ← _reset_stats (time_at_reset env);
  let search_depth := _get_search_depth difficulty max_depth in
  available_moves ← lift (get_available_moves board);
  match available_moves with
  | [] => raise (ValueError "No available moves on the board")
  | [move] =>
      analysis ← _create_analysis (time_at_analysis env)
                   "Only one move available" (Fin 0);
      mret (move, analysis)
  | first :: _ =>
      res ← _run_algorithm fuel board algorithm search_depth;
      let '(best_move, eval_score, move_reasoning) :=
        match res.1.1 with
        | Some m => (m, res.1.2, res.2)
        | None => (first, Fin 0, "Fallback to first available move")
        end in
      final_move ← lift (_apply_difficulty_adjustments env best_move
                           available_moves difficulty move_reasoning);
      analysis ← _create_analysis (time_at_analysis env)
                   move_reasoning eval_score;
      mret (final_move, analysis)
  end.

End AIAlgorithms.

(** ** api.routes *)

Module AIRequest.
Record t : Type := mk {
  board : RawBoard;
  algorithm : Algorithm;
  difficulty : Difficulty;
  visualization : bool;
  max_depth : option Z
}.
End AIRequest.

Module AIResponse.
Record t : Type := mk {
  move : Move;
  evaluation : Score;
  analysis : AlgorithmAnalysis.t;
  game_over : bool;
  winner : option string
}.
End AIResponse.

(** [HTTPException(status_code, detail=ErrorResponse.create(code, message))];
    the details of the error are always empty.  The message is absent
    where it is the text of an exception whose text is not modelled. *)
Module HTTPException.
Record t : Type := mk {
  status_code : Z;
  code : string;
  message : option string
}.
End HTTPException.

Module Routes.

Import GameEngine AIAlgorithms.

(** [str(e)], for the exceptions whose text is known *)
Definition exn_message (e : exn) : option string :=
  match e with
  | ValueError msg => Some msg
  | IndexError => Some "list index out of range"
  | ValidationError _ | TypeError | OutOfFuel => None
  end.

(** [f"{winner}"] for the optional winner *)
Definition winner_text (winner : option string) : string :=
  match winner with
  | Some w => w
  | None => "None"
  end.

(** The body of the outer [try]: the response, an [HTTPException] that it
    raises itself, or another exception.  Once [is_valid_board] has
    accepted the board, every cell is one of the three strings of [Player]
    and the engine is run on the board over [Player] that they denote.
    [except ValueError] catches every [ValueError] of [get_best_move], also
    one of the subclass [ValidationError]. *)
Definition get_ai_move_body (fuel : nat) (env : Env) (request : AIRequest.t)
  : result (HTTPException.t + AIResponse.t) :=
  if negb (is_valid_board (AIRequest.board request)) then
    Ok (inl (HTTPException.mk 400 "INVALID_BOARD"
               (Some "Invalid board state provided")))
  else
    match parse_board (AIRequest.board request) with
    | None => Raise TypeError
    | Some board =>
        over ← is_game_over board;
        if over : bool then
          winner ← winner_or_draw board;
          Ok (inl (HTTPException.mk 400 "GAME_OVER"
                     (Some ("Game is already over. Winner: "
                              +:+ winner_text winner))))
        else
          match get_best_move fuel env board
                  (Algorithm_value (AIRequest.algorithm request))
                  (Difficulty_value (AIRequest.difficulty request))
                  (AIRequest.max_depth request)
                  (mkStats 0 0 0 (time_at_reset env)) with
          | Raise (ValueError msg) =>
              Ok (inl (HTTPException.mk 400 "NO_MOVES_AVAILABLE" (Some msg)))
          | Raise (ValidationError msg) =>
              Ok (inl (HTTPException.mk 400 "NO_MOVES_AVAILABLE" None))
          | Raise e => Raise e
          | Ok ((best_move, analysis), _) =>
              new_board ← make_move board best_move O;
              game_over ← is_game_over new_board;
              winner ← (if game_over : bool then winner_or_draw new_board
                        else Ok None);
              Ok (inr (AIResponse.mk best_move
                         (AlgorithmAnalysis.evaluation_score analysis)
                         analysis game_over winner))
          end
    end.

(** [except HTTPException: raise] and
    [except Exception as e: raise HTTPException(500, ...)] *)
Definition get_ai_move (fuel : nat) (env : Env) (request : AIRequest.t)
  : HTTPException.t + AIResponse.t :=
  match get_ai_move_body fuel env request with
  | Ok outcome => outcome
  | Raise e => inl (HTTPException.mk 500 "INTERNAL_ERROR" (exn_message e))
  end.

End Routes.

(** ** The object store: boards as lists of references to row objects

    [make_move] builds [new_board] from slices of the rows and then assigns
    into one of them.  Whether the caller's board is affected depends on
    which row objects are shared, so this model keeps rows as objects in a
    store; a location is the index at which the object was allocated. *)

Module Heap.

Abbreviation loc := nat.

Inductive obj : Type :=
  | Row (cells : list Player)
  | Rows (refs : list loc).

Abbreviation heap := (list obj).

Definition alloc (h : heap) (o : obj) : loc * heap := (length h, h ++ [o]).

(** [[row[:] for row in board]]: one fresh row object per element. *)
Fixpoint copy_rows (h : heap) (refs : list loc) : result (list loc * heap) :=
  match refs with
  | [] => Ok ([], h)
  | r :: rest =>
      match h !! r with
      | Some (Row cells) =>
          let '(l, h1) := alloc h (Row cells) in
          res ← copy_rows h1 rest;
          Ok (l :: res.1, res.2)
      | _ => Raise TypeError
      end
  end.

Definition make_move (h : heap) (board : loc) (move : Move) (player : Player)
  : result (loc * heap) :=
  match h !! board with
  | Some (Rows refs) =>
      res ← copy_rows h refs;
      let '(new_board, h2) := alloc res.2 (Rows res.1) in
      match res.1 !! row move with
      | None => Raise IndexError
      | Some l =>
          match h2 !! l with
          | Some (Row cells) =>
              if bool_decide (col move < length cells)%nat
              then Ok (new_board, <[l := Row (<[col move := player]> cells)]> h2)
              else Raise IndexError
          | _ => Raise TypeError
          end
      end
  | _ => Raise TypeError
  end.

(** The board value that a reference denotes in a store. *)
Definition read_row (h : heap) (l : loc) : option (list Player) :=
  match h !! l with
  | Some (Row cells) => Some cells
  | _ => None
  end.

Definition read_board (h : heap) (board : loc) : option Board :=
  match h !! board with
  | Some (Rows refs) => mapM (read_row h) refs
  | _ => None
  end.

End Heap.

(** ** Vocabulary of the statements *)

Definition is3x3 (board : Board) : Prop :=
  length board = 3%nat ∧ Forall (λ rw, length rw = 3%nat) board.

(** The nine cells in scan order: row 0 to 2, and column 0 to 2 within
    each row. *)
Definition positions : list Move :=
  r ← seq 0 3; c ← seq 0 3; [Move_at r c].

Definition is_empty_at (board : Board) (m : Move) : Prop :=
  GameEngine.cell board (row m) (col m) = Ok EMPTY.

#[global] Instance is_empty_at_dec board m : Decision (is_empty_at board m).
Proof. unfold is_empty_at. apply _. Defined.

(** The empty cells of a board, in scan order. *)
Definition empty_cells (board : Board) : list Move :=
  filter (is_empty_at board) positions.

(** Row-major order on moves. *)
Definition scan_lt (m1 m2 : Move) : Prop :=
  (row m1 < row m2 ∨ (row m1 = row m2 ∧ col m1 < col m2))%nat.

(** Mark [p] occupies every cell of the line [combination]. *)
Definition occupies (board : Board) (p : Player) (combination : list (nat * nat))
  : Prop :=
  Forall (λ rc, GameEngine.cell board rc.1 rc.2 = Ok p) combination.

(** Mark [p] occupies one of the eight winning lines. *)
Definition has_line (board : Board) (p : Player) : Prop :=
  Exists (occupies board p) GameEngine.winning_combinations.

(** No cell of the board is empty. *)
Definition no_empty_cell (board : Board) : Prop :=
  ∀ r c, GameEngine.cell board r c ≠ Ok EMPTY.

(** A computation over the statistics returns [a] from every state and
    counts [n] nodes while doing so. *)
Definition returns {A} (m : AIAlgorithms.M A) (a : A) (n : Z) : Prop :=
  ∀ st, ∃ st',
    m st = Ok (a, st') ∧
    AIAlgorithms.nodes_explored st' = AIAlgorithms.nodes_explored st + n.

(** A search result that carries a move and a finite score. *)
Definition settled (res : option Move * Score) : Prop :=
  ∃ m v, res = (Some m, Fin v).

(** How the result [ab] of a pruned search with window [(alpha, beta)]
    relates to the result [mm] of the exhaustive search of the same node:
    at or below [alpha] it is an upper bound of the true score, at or above
    [beta] a lower bound, and strictly inside the window it is the same
    result. *)
Definition agrees (alpha beta : Score) (mm ab : option Move * Score) : Prop :=
  (score_le ab.2 alpha → score_le mm.2 ab.2) ∧
  (score_le beta ab.2 → score_le ab.2 mm.2) ∧
  (score_lt alpha ab.2 → score_lt ab.2 beta → ab = mm).

(** What is proved of one node by induction on the fuel: both searches
    return, with finite scores, a move exactly when the node is not a leaf,
    node counts in the stated order, and results that agree on every
    non-empty window. *)
Definition search_ok (fuel : nat) (board : Board) (depth : Z)
  (is_ai_turn : bool) (max_depth : Z) : Prop :=
  ∃ res n,
    returns (AIAlgorithms.minimax fuel board depth is_ai_turn max_depth) res n ∧
    1 ≤ n ∧
    (∃ v, res.2 = Fin v) ∧
    (res.1 = None ↔
       AIAlgorithms._should_stop_search board depth max_depth = Ok true) ∧
    ∀ alpha beta, score_lt alpha beta →
      ∃ res' n',
        returns (AIAlgorithms.alpha_beta fuel board depth alpha beta
                   is_ai_turn max_depth) res' n' ∧
        1 ≤ n' ≤ n ∧
        (∃ r, res'.2 = Fin r) ∧
        (res'.1 = None ↔
           AIAlgorithms._should_stop_search board depth max_depth = Ok true) ∧
        agrees alpha beta res res'.

(** The running best of a loop: still the initial one, or settled. *)
Definition fresh_or_settled (init : Score) (acc : option Move * Score) : Prop :=
  acc = (None, init) ∨ settled acc.

(** The order of [score_lt] as a proposition. *)
Definition slt (a b : Score) : Prop :=
  match a, b with
  | NegInf, NegInf => False
  | NegInf, _ => True
  | Fin _, NegInf => False
  | Fin x, Fin y => x < y
  | Fin _, PosInf => True
  | PosInf, _ => False
  end.

(** ** Sample inputs *)

(** X threatens the top row; O is to move. *)
Definition board_open : Board :=
  [[X; X; EMPTY]; [O; EMPTY; EMPTY]; [EMPTY; EMPTY; EMPTY]].

(** X has completed the top row and four cells are still empty. *)
Definition board_won : Board :=
  [[X; X; X]; [O; O; EMPTY]; [EMPTY; EMPTY; EMPTY]].

(** O has completed the top row. *)
Definition board_O_wins : Board :=
  [[O; O; O]; [X; X; EMPTY]; [X; EMPTY; EMPTY]].

(** Both marks hold a complete row; the move counts are equal. *)
Definition board_two_lines : Board :=
  [[X; X; X]; [O; O; O]; [EMPTY; EMPTY; EMPTY]].

(** A single empty cell, at (2, 2). *)
Definition board_last_cell : Board :=
  [[X; O; X]; [O; X; O]; [O; X; EMPTY]].

(** A full board without a complete line. *)
Definition board_drawn : Board :=
  [[X; O; X]; [O; X; O]; [O; X; O]].

(** [board_open] in a store: three row objects and the list of their
    references, at location 3. *)
Definition store_open : Heap.heap :=
  [Heap.Row [X; X; EMPTY]; Heap.Row [O; EMPTY; EMPTY];
   Heap.Row [EMPTY; EMPTY; EMPTY]; Heap.Rows [0; 1; 2]%nat].

(** Clock readings 10 and 25, a draw of [random.random()] equal to 0, and
    a raw choice of 4. *)
Definition env_below : Env := mkEnv 10 25 0 4.

(** "O" holds two cells of the top row and can complete it at (0, 2). *)
Definition board_O_to_win : Board :=
  [[O; O; EMPTY]; [X; X; EMPTY]; [EMPTY; EMPTY; EMPTY]].

(** Requests for a move on [board_open] and on [board_O_to_win]. *)
Definition request_open : AIRequest.t :=
  AIRequest.mk (render_board board_open) ALPHA_BETA HARD false None.

Definition request_O_to_win : AIRequest.t :=
  AIRequest.mk (render_board board_O_to_win) ALPHA_BETA HARD false None.

(** A request for a depth-limited search on [board_open] with a depth
    limit of 4301 digits. *)
Definition request_long_depth : AIRequest.t :=
  AIRequest.mk (render_board board_open) DEPTH_LIMITED MEDIUM false
    (Some (10 ^ 4300)).

(** The answer to [request_O_to_win] under [env_below]. *)
Definition response_O_wins : AIResponse.t :=
  AIResponse.mk (Move_at 0 2) (Fin 99)
    (AlgorithmAnalysis.mk 36 16 5 15
       "Alpha-beta pruning found best move (pruned 16 branches)" (Fin 99))
    true (Some "O").

(** The rationale of the dispatched algorithm can be written: the
    depth-limited search names its depth, which [str_of_int] must be
    able to convert. *)
Definition depth_prints (algorithm : string) (search_depth : Z) : Prop :=
  algorithm = "depth_limited" →
  Z.abs search_depth < 10 ^ AIAlgorithms.int_max_str_digits.

(** Move [m], played by [player] on [board] at [depth], leads to a
    position whose minimax score, with [is_ai_turn] to move next, is [v]. *)
Definition successor_score (fuel : nat) (board : Board) (depth max_depth : Z)
  (player : Player) (is_ai_turn : bool) (m : Move) (v : Z) : Prop :=
  ∃ board' mv n,
    GameEngine.make_move board m player = Ok board' ∧
    returns (AIAlgorithms.minimax fuel board' (depth + 1) is_ai_turn max_depth)
      (mv, Fin v) n.

(** How a computation leaves the statistics: the start time is kept, the
    depth reached grows to at most [bound], and the pruning events counted
    are at least [low] fewer than the nodes counted. *)
Definition stats_step (bound : Z) (low : Z) (st st' : AIAlgorithms.Stats)
  : Prop :=
  AIAlgorithms.start_time st' = AIAlgorithms.start_time st ∧
  AIAlgorithms.max_depth_reached st ≤ AIAlgorithms.max_depth_reached st' ∧
  AIAlgorithms.max_depth_reached st' ≤
    Z.max (AIAlgorithms.max_depth_reached st) bound ∧
  0 ≤ AIAlgorithms.pruned_branches st' - AIAlgorithms.pruned_branches st ∧
  AIAlgorithms.pruned_branches st' - AIAlgorithms.pruned_branches st + low ≤
    AIAlgorithms.nodes_explored st' - AIAlgorithms.nodes_explored st.

(** * Properties of the embedding *)

Import GameEngine AIAlgorithms.

(** ** Boards of the right shape *)

Lemma is3x3_inv board :
  is3x3 board →
  ∃ a b c d e f g h i, board = [[a; b; c]; [d; e; f]; [g; h; i]].
Proof.
  intros [Hl Hr].
  destruct board as [|r0 [|r1 [|r2 [|]]]]; simplify_eq/=.
  repeat match goal with
         | H : Forall _ (_ :: _) |- _ => inversion_clear H
         end.
  destruct r0 as [|a [|b [|c [|]]]]; simplify_eq/=.
  destruct r1 as [|d [|e [|f [|]]]]; simplify_eq/=.
  destruct r2 as [|g [|h [|i [|]]]]; simplify_eq/=.
  by repeat eexists.
Qed.

Lemma cell_Ok_lt board r c p :
  is3x3 board → cell board r c = Ok p → (r < 3 ∧ c < 3)%nat.
Proof.
  intros (a & b & c0 & d & e & f & g & h & i & ->)%is3x3_inv.
  destruct r as [|[|[|r]]], c as [|[|[|c]]]; cbn; intros; simplify_eq; lia.
Qed.

Lemma cell_total board r c :
  is3x3 board → (r < 3)%nat → (c < 3)%nat → ∃ p, cell board r c = Ok p.
Proof.
  intros (a & b & c0 & d & e & f & g & h & i & ->)%is3x3_inv ??.
  destruct r as [|[|[|r]]], c as [|[|[|c]]]; try lia; cbn; eauto.
Qed.

Lemma elem_of_positions m :
  m ∈ positions ↔ ∃ r c, m = Move_at r c ∧ (r < 3)%nat ∧ (c < 3)%nat.
Proof.
  split.
  - cbn. rewrite !elem_of_cons, elem_of_nil.
    intros H; destruct_or!; simplify_eq;
      eexists _, _; (split; [reflexivity|lia]).
  - intros (r & c & -> & ? & ?).
    destruct r as [|[|[|r]]], c as [|[|[|c]]]; try lia;
      cbn; rewrite !elem_of_cons; naive_solver.
Qed.

Lemma elem_of_empty_cells board r c :
  is3x3 board →
  Move_at r c ∈ empty_cells board ↔ cell board r c = Ok EMPTY.
Proof.
  intros Hb. unfold empty_cells.
  rewrite list_elem_of_filter, elem_of_positions. unfold is_empty_at. cbn.
  split; [by intros []|].
  intros H. split; [done|].
  destruct (cell_Ok_lt _ _ _ _ Hb H). eauto.
Qed.

Lemma empty_cells_inv board m :
  m ∈ empty_cells board →
  ∃ r c, m = Move_at r c ∧ (r < 3)%nat ∧ (c < 3)%nat ∧ cell board r c = Ok EMPTY.
Proof.
  unfold empty_cells. rewrite list_elem_of_filter, elem_of_positions.
  intros [He (r & c & -> & ? & ?)]. eauto 10.
Qed.

(** ** get_available_moves *)

Lemma scan_cols_spec board r cols moves :
  is3x3 board → (r < 3)%nat → Forall (λ c, c < 3)%nat cols →
  scan_cols board r cols moves =
    Ok (moves ++ filter (is_empty_at board) (Move_at r <$> cols)).
Proof.
  intros Hb Hr Hc. revert moves.
  induction Hc as [|c cols Hc _ IH]; intros moves; cbn.
  - by rewrite app_nil_r.
  - destruct (cell_total board r c Hb Hr Hc) as [p Hp].
    rewrite Hp. cbn. rewrite IH. f_equal.
    case_bool_decide; case_decide as He; unfold is_empty_at in He;
      cbn in He; rewrite Hp in He; simplify_eq; try done.
    by rewrite <- app_assoc.
Qed.

Lemma scan_rows_spec board rows moves :
  is3x3 board → Forall (λ r, r < 3)%nat rows →
  scan_rows board rows moves =
    Ok (moves ++ filter (is_empty_at board)
                   (r ← rows; c ← seq 0 3; [Move_at r c])).
Proof.
  intros Hb Hr. revert moves.
  induction Hr as [|r rows Hr _ IH]; intros moves; cbn -[seq].
  - by rewrite app_nil_r.
  - rewrite scan_cols_spec by (try done; repeat constructor; lia).
    cbn -[seq]. rewrite IH, filter_app, app_assoc. do 3 f_equal.
Qed.

Lemma get_available_moves_empty_cells board :
  is3x3 board → get_available_moves board = Ok (empty_cells board).
Proof.
  intros Hb. unfold get_available_moves.
  rewrite scan_rows_spec by (try done; repeat constructor; lia).
  done.
Qed.

Lemma positions_sorted : StronglySorted scan_lt positions.
Proof.
  cbn. repeat (apply StronglySorted_cons; split;
    [repeat constructor; unfold scan_lt; cbn; lia|]).
  constructor.
Qed.

Lemma StronglySorted_filter_keep {A} (R : relation A) (P : A → Prop)
    `{∀ x, Decision (P x)} l :
  StronglySorted R l → StronglySorted R (filter P l).
Proof.
  induction 1 as [|x l _ IH Hx]; [constructor|].
  rewrite filter_cons. case_decide; [|done].
  constructor; [done|].
  apply Forall_forall. intros y [_ Hy]%list_elem_of_filter.
  by eapply Forall_forall in Hx.
Qed.

Lemma positions_NoDup : NoDup positions.
Proof. apply (bool_decide_unpack _). by vm_compute. Qed.

(** C7.  For every 3x3 board, [get_available_moves] returns a list that
    holds a [(row, col)] pair exactly when that cell of the board is empty,
    holds no pair twice, and is strictly increasing in row-major order
    (by row, then by column); every element is a plain [Move(row, col)]
    with both indices in 0..2. *)
Theorem get_available_moves_spec board :
  is3x3 board →
  ∃ moves,
    get_available_moves board = Ok moves ∧
    (∀ r c, Move_at r c ∈ moves ↔ cell board r c = Ok EMPTY) ∧
    (∀ m, m ∈ moves → m = Move_at (row m) (col m) ∧ (row m < 3 ∧ col m < 3)%nat) ∧
    NoDup moves ∧
    StronglySorted scan_lt moves.
Proof.
  intros Hb. exists (empty_cells board).
  split; [by apply get_available_moves_empty_cells|].
  split; [intros; by apply elem_of_empty_cells|].
  split.
  { intros m (r & c & -> & ? & ? & _)%empty_cells_inv. done. }
  split.
  - apply NoDup_filter, positions_NoDup.
  - apply StronglySorted_filter_keep, positions_sorted.
Qed.

(** ** check_winner *)

Lemma cells_of_Ok board combination cells :
  cells_of board combination = Ok cells →
  Forall2 (λ rc p, cell board rc.1 rc.2 = Ok p) combination cells.
Proof.
  revert cells. induction combination as [|[r c] rest IH]; intros cells; cbn.
  - intros [= <-]. constructor.
  - destruct (cell board r c) as [p|] eqn:Hp; [|done]. cbn.
    destruct (cells_of board rest) as [ps|] eqn:Hps; [|done]. cbn.
    intros [= <-]. constructor; [done|]. by apply IH.
Qed.

Lemma cells_of_total board combination :
  is3x3 board →
  Forall (λ rc, rc.1 < 3 ∧ rc.2 < 3)%nat combination →
  ∃ cells, cells_of board combination = Ok cells.
Proof.
  intros Hb. induction 1 as [|[r c] rest [Hr Hc] _ [ps IH]]; cbn; [eauto|].
  destruct (cell_total board r c Hb Hr Hc) as [p ->]. rewrite IH. cbn. eauto.
Qed.

Lemma line_test_true board combination c0 cells :
  Forall2 (λ rc p, cell board rc.1 rc.2 = Ok p) combination cells →
  forallb (λ c, bool_decide (c = c0)) cells = true →
  occupies board c0 combination.
Proof.
  induction 1 as [|rc p comb ps Hp _ IH]; cbn; [constructor|].
  intros [->%bool_decide_eq_true ?]%andb_true_iff.
  constructor; [done|]. by apply IH.
Qed.

Lemma line_test_occupied board combination p cells :
  Forall2 (λ rc q, cell board rc.1 rc.2 = Ok q) combination cells →
  occupies board p combination →
  forallb (λ c, bool_decide (c = p)) cells = true.
Proof.
  induction 1 as [|rc q comb ps Hq _ IH]; cbn; [done|].
  intros [Hp Hrest]%Forall_cons. rewrite Hq in Hp. simplify_eq.
  rewrite bool_decide_eq_true_2 by done. by apply IH.
Qed.

(** The winner reported is the mark of the first complete line in the
    order of [winning_combinations]. *)
Lemma check_winner_from_Some combinations board p :
  check_winner_from combinations board = Ok (Some p) →
  p ≠ EMPTY ∧ Exists (occupies board p) combinations.
Proof.
  induction combinations as [|comb rest IH]; cbn; [done|].
  destruct (cells_of board comb) as [cells|] eqn:Hcells; [|done]. cbn.
  destruct cells as [|c0 cells]; [done|].
  destruct (bool_decide (c0 ≠ EMPTY) && _) eqn:Htest.
  - intros [= <-]. apply andb_true_iff in Htest as [Hne%bool_decide_eq_true Hall].
    split; [done|]. apply Exists_cons_hd.
    eauto using line_test_true, cells_of_Ok.
  - intros [? ?]%IH. split; [done|]. by apply Exists_cons_tl.
Qed.

Lemma check_winner_from_None combinations board p :
  check_winner_from combinations board = Ok None →
  p ≠ EMPTY → ¬ Exists (occupies board p) combinations.
Proof.
  intros Hw Hp. induction combinations as [|comb rest IH]; cbn in *.
  { by intros ?%Exists_nil. }
  destruct (cells_of board comb) as [cells|] eqn:Hcells; [|done]. cbn in Hw.
  destruct cells as [|c0 cells]; [done|].
  destruct (bool_decide (c0 ≠ EMPTY) && _) eqn:Htest; [done|].
  intros [Hocc|Hex]%Exists_cons; [|by apply IH].
  apply cells_of_Ok in Hcells.
  pose proof (line_test_occupied _ _ _ _ Hcells Hocc) as Hall.
  assert (c0 = p) as ->.
  { cbn in Hall. by apply andb_true_iff in Hall as [?%bool_decide_eq_true _]. }
  rewrite Hall, bool_decide_eq_true_2 in Htest by done. done.
Qed.

Lemma check_winner_from_total combinations board :
  is3x3 board →
  Forall (λ comb, comb ≠ [] ∧ Forall (λ rc, rc.1 < 3 ∧ rc.2 < 3)%nat comb)
    combinations →
  ∃ w, check_winner_from combinations board = Ok w.
Proof.
  intros Hb. induction 1 as [|comb rest [Hne Hin] _ [w IH]]; cbn; [eauto|].
  destruct (cells_of_total board comb Hb Hin) as [cells Hcells].
  rewrite Hcells. cbn.
  destruct cells as [|c0 cells].
  { apply cells_of_Ok in Hcells. inversion Hcells; by subst. }
  destruct (_ && _); eauto.
Qed.

Lemma winning_combinations_wf :
  Forall (λ comb, comb ≠ [] ∧ Forall (λ rc, rc.1 < 3 ∧ rc.2 < 3)%nat comb)
    winning_combinations.
Proof. repeat constructor; cbn; (done || lia). Qed.

Lemma check_winner_total board :
  is3x3 board → ∃ w, check_winner board = Ok w.
Proof. intros. by apply check_winner_from_total, winning_combinations_wf. Qed.

Lemma check_winner_Some board p :
  check_winner board = Ok (Some p) → p ≠ EMPTY ∧ has_line board p.
Proof. apply check_winner_from_Some. Qed.

Lemma check_winner_None board p :
  check_winner board = Ok None → p ≠ EMPTY → ¬ has_line board p.
Proof. apply check_winner_from_None. Qed.

(** ** is_draw and is_game_over *)

Lemma board_full_false rows :
  board_full rows = false →
  ∃ r c, cell rows r c = Ok EMPTY.
Proof.
  induction rows as [|rw rest IH]; cbn; [done|].
  case_bool_decide as Hin.
  - intros _. apply list_elem_of_lookup in Hin as [c Hc].
    exists 0%nat, c. unfold cell. cbn. by rewrite Hc.
  - intros (r & c & Hrc)%IH. exists (S r), c. done.
Qed.

Lemma board_full_true rows r c :
  board_full rows = true → cell rows r c ≠ Ok EMPTY.
Proof.
  revert r. induction rows as [|rw rest IH]; intros r; cbn.
  { intros _. by destruct r. }
  case_bool_decide as Hin; [done|]. intros Hfull.
  destruct r as [|r]; [|by apply IH].
  unfold cell. cbn. destruct (rw !! c) as [p|] eqn:Hc; [|done].
  intros [= ->]. apply Hin, list_elem_of_lookup. eauto.
Qed.

Lemma is_game_over_spec board :
  is3x3 board →
  ∃ w, check_winner board = Ok w ∧
       is_draw board = Ok (bool_decide (w = None) && board_full board) ∧
       is_game_over board =
         Ok (negb (bool_decide (w = None)) || board_full board).
Proof.
  intros [w Hw]%check_winner_total. exists w.
  unfold is_game_over, is_draw. rewrite Hw. cbn. by destruct w.
Qed.

Lemma not_over_empty_cells board :
  is3x3 board → is_game_over board = Ok false →
  check_winner board = Ok None ∧ empty_cells board ≠ [].
Proof.
  intros Hb Hover.
  destruct (is_game_over_spec board Hb) as (w & Hw & _ & Hg).
  rewrite Hg in Hover. destruct w; [done|]. cbn in Hover.
  split; [done|]. simplify_eq.
  destruct (board_full_false board Hover) as (r & c & Hrc).
  apply elem_of_empty_cells in Hrc; [|done].
  intros Heq. rewrite Heq in Hrc. by apply elem_of_nil in Hrc.
Qed.

(** ** make_move *)

Lemma make_move_cell board m p board' r c :
  make_move board m p = Ok board' →
  cell board' r c =
    if decide (r = row m ∧ c = col m) then Ok p else cell board r c.
Proof.
  unfold make_move. cbv zeta. rewrite list_fmap_id.
  destruct ((board : list (list Player)) !! row m) as [rw|] eqn:Hrw; [|done].
  case_bool_decide as Hc; [|done]. intros ?; simplify_eq.
  unfold cell. destruct (decide (r = row m)) as [->|Hr].
  - rewrite list_lookup_insert_eq by eauto using lookup_lt_Some.
    destruct (decide (c = col m)) as [->|Hc'].
    + rewrite list_lookup_insert_eq by done. by rewrite decide_True.
    + rewrite list_lookup_insert_ne by done. rewrite Hrw.
      by rewrite decide_False by (intros []; congruence).
  - rewrite list_lookup_insert_ne by done.
    by rewrite decide_False by (intros []; congruence).
Qed.

Lemma make_move_total board m p :
  is3x3 board → (row m < 3)%nat → (col m < 3)%nat →
  ∃ board', make_move board m p = Ok board' ∧ is3x3 board'.
Proof.
  intros [Hl Hrows] Hr Hc. unfold make_move. cbv zeta. rewrite list_fmap_id.
  destruct (lookup_lt_is_Some_2 (board : list (list Player)) (row m))
    as [rw Hrw]; [lia|].
  rewrite Hrw.
  assert (length rw = 3%nat) as Hlen.
  { eapply Forall_lookup_1 in Hrows; eauto. }
  rewrite bool_decide_eq_true_2 by lia.
  eexists. split; [done|]. split.
  - by rewrite length_insert.
  - apply Forall_insert; [done|]. by rewrite length_insert.
Qed.

Lemma make_move_fewer_empty board m p board' :
  is3x3 board → m ∈ empty_cells board → p ≠ EMPTY →
  make_move board m p = Ok board' →
  (length (empty_cells board') < length (empty_cells board))%nat.
Proof.
  intros Hb Hm Hp Hmk.
  assert (empty_cells board' = filter (is_empty_at board') (empty_cells board))
    as ->.
  { unfold empty_cells. rewrite list_filter_filter.
    apply list_filter_iff. intros m'. split; [|by intros []].
    intros He. split; [done|]. unfold is_empty_at in *.
    rewrite (make_move_cell _ _ _ _ _ _ Hmk) in He.
    case_decide; [by simplify_eq|done]. }
  apply (length_filter_lt _ _ m); [done|].
  unfold is_empty_at. rewrite (make_move_cell _ _ _ _ _ _ Hmk).
  rewrite decide_True by done. congruence.
Qed.

(** ** evaluate_position *)

Lemma _calculate_position_value_total board :
  is3x3 board → ∃ z, _calculate_position_value board = Ok z.
Proof.
  intros (a & b & c0 & d & e & f & g & h & i & ->)%is3x3_inv.
  unfold _calculate_position_value. cbn. eauto.
Qed.

Lemma evaluate_position_total board depth :
  is3x3 board → ∃ z, evaluate_position board depth = Ok z.
Proof.
  intros Hb. destruct (is_game_over_spec board Hb) as (w & Hw & Hd & _).
  unfold evaluate_position. rewrite Hw, Hd. cbn.
  clear Hw Hd.
  destruct w as [[]|]; repeat (case_bool_decide; simplify_eq); cbn;
    eauto using _calculate_position_value_total.
  destruct (board_full board); cbn; eauto using _calculate_position_value_total.
Qed.

(** ** Order on scores *)

Lemma score_lt_slt a b : score_lt a b ↔ slt a b.
Proof.
  destruct a, b; cbn; try done. by rewrite Is_true_true, Z.ltb_lt.
Qed.

Lemma score_le_slt a b : score_le a b ↔ ¬ slt b a.
Proof.
  unfold score_le. rewrite <- score_lt_slt.
  destruct (score_lt b a); cbn; intuition.
Qed.

Lemma score_lt_true a b : score_lt a b = true ↔ slt a b.
Proof. by rewrite <- score_lt_slt, Is_true_true. Qed.

Lemma score_lt_false a b : score_lt a b = false ↔ ¬ slt a b.
Proof. by rewrite <- score_lt_slt, Is_true_false. Qed.

Ltac score_solve :=
  cbv zeta; unfold score_max, score_min; intros;
  repeat match goal with
         | |- context [if score_lt ?a ?b then _ else _] =>
             let E := fresh "E" in destruct (score_lt a b) eqn:E
         end;
  rewrite ?score_lt_true, ?score_lt_false, ?score_lt_slt, ?score_le_slt in *;
  repeat match goal with
         | H : _ ∧ _ |- _ => destruct H
         | H : settled _ |- _ => destruct H as (? & ? & ?)
         | H : fresh_or_settled _ _ |- _ => destruct H
         end;
  simplify_eq/=;
  repeat match goal with s : Score |- _ => destruct s end;
  cbn [slt] in *;
  unfold settled;
  intuition (simplify_eq/=; try done; try lia; try (by eexists _, _);
             try (repeat f_equal; lia)).

(** One iteration of the maximizing loops: what the running bests and the
    window become, given how the two results of the child agree. *)
Lemma max_step alpha0 alpha beta bs bs' v r (bm bm' : option Move) (m : Move) :
  score_lt alpha beta →
  score_le alpha0 alpha → score_le bs' alpha →
  alpha = alpha0 ∨ alpha = bs' →
  fresh_or_settled NegInf (bm, bs) →
  fresh_or_settled NegInf (bm', bs') →
  score_le bs bs' →
  (score_lt alpha0 bs' → (bm', bs') = (bm, bs)) →
  (score_le (Fin r) alpha → v ≤ r) →
  (score_le beta (Fin r) → r ≤ v) →
  (score_lt alpha (Fin r) → score_lt (Fin r) beta → v = r) →
  let acc := if score_lt bs (Fin v) then (Some m, Fin v) else (bm, bs) in
  let best := if score_lt bs' (Fin r) then (Some m, Fin r) else (bm', bs') in
  let alpha' := score_max alpha (Fin r) in
  (settled acc ∧ settled best ∧ score_le bs acc.2 ∧ score_le (Fin v) acc.2) ∧
  (score_le beta alpha' →
     best = (Some m, Fin r) ∧ r ≤ v ∧ score_le beta (Fin r) ∧
     score_lt alpha0 (Fin r)) ∧
  (¬ score_le beta alpha' →
     score_lt alpha' beta ∧ score_le alpha0 alpha' ∧ score_le best.2 alpha' ∧
     (alpha' = alpha0 ∨ alpha' = best.2) ∧ score_le acc.2 best.2 ∧
     (score_lt alpha0 best.2 → best = acc)).
Proof. score_solve. Qed.

(** One iteration of the minimizing loops, dually. *)
Lemma min_step alpha beta0 beta bs bs' v r (bm bm' : option Move) (m : Move) :
  score_lt alpha beta →
  score_le beta beta0 → score_le beta bs' →
  beta = beta0 ∨ beta = bs' →
  fresh_or_settled PosInf (bm, bs) →
  fresh_or_settled PosInf (bm', bs') →
  score_le bs' bs →
  (score_lt bs' beta0 → (bm', bs') = (bm, bs)) →
  (score_le (Fin r) alpha → v ≤ r) →
  (score_le beta (Fin r) → r ≤ v) →
  (score_lt alpha (Fin r) → score_lt (Fin r) beta → v = r) →
  let acc := if score_lt (Fin v) bs then (Some m, Fin v) else (bm, bs) in
  let best := if score_lt (Fin r) bs' then (Some m, Fin r) else (bm', bs') in
  let beta' := score_min beta (Fin r) in
  (settled acc ∧ settled best ∧ score_le acc.2 bs ∧ score_le acc.2 (Fin v)) ∧
  (score_le beta' alpha →
     best = (Some m, Fin r) ∧ v ≤ r ∧ score_le (Fin r) alpha ∧
     score_lt (Fin r) beta0) ∧
  (¬ score_le beta' alpha →
     score_lt alpha beta' ∧ score_le beta' beta0 ∧ score_le beta' best.2 ∧
     (beta' = beta0 ∨ beta' = best.2) ∧ score_le best.2 acc.2 ∧
     (score_lt best.2 beta0 → best = acc)).
Proof. score_solve. Qed.

(** ** Rules for [returns] *)

Lemma returns_ret {A} (a : A) : returns (mret a) a 0.
Proof. intros st. exists st. split; [done|lia]. Qed.

Lemma returns_bind {A B} (m : M A) (f : A → M B) a b n k :
  returns m a n → returns (f a) b k → returns (m ≫= f) b (n + k).
Proof.
  intros Hm Hf st.
  destruct (Hm st) as (st1 & E1 & N1). destruct (Hf st1) as (st2 & E2 & N2).
  exists st2. unfold mbind, M_bind. rewrite E1. split; [done|lia].
Qed.

Lemma returns_lift {A} (r : result A) a : r = Ok a → returns (lift r) a 0.
Proof. intros -> st. exists st. split; [done|lia]. Qed.

Lemma returns_count_node d : returns (count_node d) () 1.
Proof. intros st. eexists. split; [done|]. done. Qed.

Lemma returns_count_pruned : returns count_pruned () 0.
Proof. intros st. eexists. split; [done|]. cbn. lia. Qed.

Lemma returns_det {A} (m : M A) a a' n n' :
  returns m a n → returns m a' n' → a = a' ∧ n = n'.
Proof.
  intros H1 H2.
  destruct (H1 (mkStats 0 0 0 0)) as (st1 & E1 & N1).
  destruct (H2 (mkStats 0 0 0 0)) as (st2 & E2 & N2).
  rewrite E1 in E2. simplify_eq. split; [done|lia].
Qed.

(** ** The loops over the moves of one node *)

Lemma score_le_refl a : score_le a a.
Proof. score_solve. Qed.

Lemma score_le_trans a b c : score_le a b → score_le b c → score_le a c.
Proof. score_solve. Qed.

Lemma agrees_scores alpha beta mv v mv' r :
  agrees alpha beta (mv, Fin v) (mv', Fin r) →
  (score_le (Fin r) alpha → v ≤ r) ∧
  (score_le beta (Fin r) → r ≤ v) ∧
  (score_lt alpha (Fin r) → score_lt (Fin r) beta → v = r).
Proof.
  intros (H1 & H2 & H3). cbn in *. split_and!.
  - intros H. specialize (H1 H). revert H1. score_solve.
  - intros H. specialize (H2 H). revert H2. score_solve.
  - intros Ha Hb. specialize (H3 Ha Hb). by simplify_eq.
Qed.

Section loops.
Context (fuel : nat) (board : Board) (depth max_depth : Z).
Hypothesis Hboard : is3x3 board.
Hypothesis children : ∀ m p board' side,
  p ≠ EMPTY →
  m ∈ empty_cells board → make_move board m p = Ok board' →
  search_ok fuel board' (depth + 1) side max_depth.

Lemma move_applies m p :
  m ∈ empty_cells board → ∃ board', make_move board m p = Ok board'.
Proof.
  intros (r & c & -> & Hr & Hc & _)%empty_cells_inv.
  destruct (make_move_total board (Move_at r c) p) as (b' & ? & _); eauto.
Qed.

Lemma maximize_loop_returns moves bm bs :
  Forall (λ m, m ∈ empty_cells board) moves →
  fresh_or_settled NegInf (bm, bs) →
  ∃ res n,
    returns (maximize_loop (minimax fuel) board depth max_depth moves bm bs)
      res n ∧
    0 ≤ n ∧ score_le bs res.2 ∧
    (moves ≠ [] ∨ settled (bm, bs) → settled res).
Proof.
  intros Hmoves. revert bm bs.
  induction Hmoves as [|m rest Hm _ IH]; intros bm bs Hacc.
  - exists (bm, bs), 0. split; [apply returns_ret|].
    split; [done|]. split; [apply score_le_refl|]. by intros [|].
  - destruct (move_applies m AI_PLAYER Hm) as [b' Hb'].
    destruct (children m AI_PLAYER b' false ltac:(done) Hm Hb')
      as ([mvc sc] & nc & Hret & Hnc & [v Hv] & _).
    cbn in Hv. subst sc.
    set (acc := if score_lt bs (Fin v) then (Some m, Fin v) else (bm, bs)).
    assert (settled acc ∧ score_le bs acc.2) as [Hacc' Hle'].
    { subst acc. clear -Hacc. revert Hacc. score_solve. }
    destruct (IH acc.1 acc.2) as (res & n & Hres & Hn & Hle & Hset).
    { right. by destruct acc. }
    exists res, (0 + (nc + n)). split.
    { cbn. eapply returns_bind; [by apply returns_lift|].
      eapply returns_bind; [done|]. cbn -[score_lt]. subst acc.
      by destruct (score_lt bs (Fin v)). }
    split; [lia|]. split; [by eapply score_le_trans|].
    intros _. apply Hset. right. by destruct acc.
Qed.

Lemma minimize_loop_returns moves bm bs :
  Forall (λ m, m ∈ empty_cells board) moves →
  fresh_or_settled PosInf (bm, bs) →
  ∃ res n,
    returns (minimize_loop (minimax fuel) board depth max_depth moves bm bs)
      res n ∧
    0 ≤ n ∧ score_le res.2 bs ∧
    (moves ≠ [] ∨ settled (bm, bs) → settled res).
Proof.
  intros Hmoves. revert bm bs.
  induction Hmoves as [|m rest Hm _ IH]; intros bm bs Hacc.
  - exists (bm, bs), 0. split; [apply returns_ret|].
    split; [done|]. split; [apply score_le_refl|]. by intros [|].
  - destruct (move_applies m HUMAN_PLAYER Hm) as [b' Hb'].
    destruct (children m HUMAN_PLAYER b' true ltac:(done) Hm Hb')
      as ([mvc sc] & nc & Hret & Hnc & [v Hv] & _).
    cbn in Hv. subst sc.
    set (acc := if score_lt (Fin v) bs then (Some m, Fin v) else (bm, bs)).
    assert (settled acc ∧ score_le acc.2 bs) as [Hacc' Hle'].
    { subst acc. clear -Hacc. revert Hacc. score_solve. }
    destruct (IH acc.1 acc.2) as (res & n & Hres & Hn & Hle & Hset).
    { right. by destruct acc. }
    exists res, (0 + (nc + n)). split.
    { cbn. eapply returns_bind; [by apply returns_lift|].
      eapply returns_bind; [done|]. cbn -[score_lt]. subst acc.
      by destruct (score_lt (Fin v) bs). }
    split; [lia|]. split; [by eapply score_le_trans|].
    intros _. apply Hset. right. by destruct acc.
Qed.

Lemma maximize_pruning_agrees moves alpha0 beta bm bs bm' bs' alpha :
  Forall (λ m, m ∈ empty_cells board) moves →
  score_lt alpha beta →
  score_le alpha0 alpha → score_le bs' alpha →
  alpha = alpha0 ∨ alpha = bs' →
  fresh_or_settled NegInf (bm, bs) →
  fresh_or_settled NegInf (bm', bs') →
  score_le bs bs' →
  (score_lt alpha0 bs' → (bm', bs') = (bm, bs)) →
  ∃ res n res' n',
    returns (maximize_loop (minimax fuel) board depth max_depth moves bm bs)
      res n ∧
    returns (maximize_pruning_loop (alpha_beta fuel) board depth max_depth
               beta moves alpha bm' bs') res' n' ∧
    0 ≤ n' ≤ n ∧
    agrees alpha0 beta res res' ∧
    (moves ≠ [] ∨ settled (bm', bs') → settled res').
Proof.
  intros Hmoves. revert bm bs bm' bs' alpha.
  induction Hmoves as [|m rest Hm Hrest IH];
    intros bm bs bm' bs' alpha Hwin Ha0 Hbs' Halpha Hacc Hacc' Hle Heq.
  - exists (bm, bs), 0, (bm', bs'), 0.
    split; [apply returns_ret|]. split; [apply returns_ret|].
    split; [lia|]. split; [|by intros [|]].
    unfold agrees. cbn. split; [done|]. split; [|by auto].
    clear -Hwin Hbs'. revert Hwin Hbs'. score_solve.
  - destruct (move_applies m AI_PLAYER Hm) as [b' Hb'].
    destruct (children m AI_PLAYER b' false ltac:(done) Hm Hb')
      as ([mvc sc] & nc & Hret & Hnc & [v Hv] & _ & Hab).
    cbn in Hv. subst sc.
    destruct (Hab alpha beta Hwin)
      as ([mvc' sc'] & nc' & Hret' & Hnc' & [r Hr] & _ & Hag).
    cbn in Hr. subst sc'.
    apply agrees_scores in Hag as (Hc1 & Hc2 & Hc3).
    pose proof (max_step alpha0 alpha beta bs bs' v r bm bm' m
                  Hwin Ha0 Hbs' Halpha Hacc Hacc' Hle Heq Hc1 Hc2 Hc3)
      as Hstep.
    cbv zeta in Hstep.
    set (acc := if score_lt bs (Fin v) then (Some m, Fin v) else (bm, bs))
      in *.
    set (best := if score_lt bs' (Fin r) then (Some m, Fin r) else (bm', bs'))
      in *.
    set (alpha' := score_max alpha (Fin r)) in *.
    destruct Hstep as ((Hsacc & Hsbest & Hbsacc & Hvacc) & Hcut & Hgo).
    destruct (score_le beta alpha') eqn:Hprune.
    + destruct Hcut as (Hbest & Hrv & Hbr & Ha0r); [done|].
      destruct (maximize_loop_returns rest acc.1 acc.2 Hrest)
        as (res & n & Hres & Hn & Hle1 & _).
      { right. by destruct acc. }
      exists res, (0 + (nc + n)), best, (0 + (nc' + (0 + 0))).
      split.
      { cbn. eapply returns_bind; [by apply returns_lift|].
        eapply returns_bind; [done|]. cbn -[score_lt]. subst acc.
        by destruct (score_lt bs (Fin v)). }
      split.
      { cbn. eapply returns_bind; [by apply returns_lift|].
        eapply returns_bind; [done|]. cbn -[score_lt score_le score_max]. fold best alpha'.
        rewrite Hprune.
        eapply returns_bind; [apply returns_count_pruned|].
        apply returns_ret. }
      split; [lia|]. split; [|by intros _].
      rewrite Hbest. unfold agrees. cbn [fst snd].
      clear -Hrv Hbr Ha0r Hle1 Hvacc.
      revert Hrv Hbr Ha0r Hle1 Hvacc. generalize (acc.2) (res.2).
      score_solve.
    + destruct Hgo as (Hw' & Ha0' & Hbest' & Hal' & Hle1 & Heq1); [by intros []|].
      destruct (IH acc.1 acc.2 best.1 best.2 alpha')
        as (res & n & res' & n' & Hres & Hres' & Hn & Hagree & Hset);
        try done.
      { right. by destruct acc. }
      { right. by destruct best. }
      { intros ?. destruct acc, best. cbn in *. auto. }
      exists res, (0 + (nc + n)), res', (0 + (nc' + n')).
      split.
      { cbn. eapply returns_bind; [by apply returns_lift|].
        eapply returns_bind; [done|]. cbn -[score_lt]. subst acc.
        by destruct (score_lt bs (Fin v)). }
      split.
      { cbn. eapply returns_bind; [by apply returns_lift|].
        eapply returns_bind; [done|]. cbn -[score_lt score_le score_max]. fold best alpha'.
        by rewrite Hprune. }
      split; [lia|]. split; [done|].
      intros _. apply Hset. right. by destruct best.
Qed.
Lemma minimize_pruning_agrees moves alpha beta0 bm bs bm' bs' beta :
  Forall (λ m, m ∈ empty_cells board) moves →
  score_lt alpha beta →
  score_le beta beta0 → score_le beta bs' →
  beta = beta0 ∨ beta = bs' →
  fresh_or_settled PosInf (bm, bs) →
  fresh_or_settled PosInf (bm', bs') →
  score_le bs' bs →
  (score_lt bs' beta0 → (bm', bs') = (bm, bs)) →
  ∃ res n res' n',
    returns (minimize_loop (minimax fuel) board depth max_depth moves bm bs)
      res n ∧
    returns (minimize_pruning_loop (alpha_beta fuel) board depth max_depth
               alpha moves beta bm' bs') res' n' ∧
    0 ≤ n' ≤ n ∧
    agrees alpha beta0 res res' ∧
    (moves ≠ [] ∨ settled (bm', bs') → settled res').
Proof.
  intros Hmoves. revert bm bs bm' bs' beta.
  induction Hmoves as [|m rest Hm Hrest IH];
    intros bm bs bm' bs' beta Hwin Hb0 Hbs' Hbeta Hacc Hacc' Hle Heq.
  - exists (bm, bs), 0, (bm', bs'), 0.
    split; [apply returns_ret|]. split; [apply returns_ret|].
    split; [lia|]. split; [|by intros [|]].
    unfold agrees. cbn [fst snd]. split; [|split; [done|by auto]].
    clear -Hwin Hbs'. revert Hwin Hbs'. score_solve.
  - destruct (move_applies m HUMAN_PLAYER Hm) as [b' Hb'].
    destruct (children m HUMAN_PLAYER b' true ltac:(done) Hm Hb')
      as ([mvc sc] & nc & Hret & Hnc & [v Hv] & _ & Hab).
    cbn in Hv. subst sc.
    destruct (Hab alpha beta Hwin)
      as ([mvc' sc'] & nc' & Hret' & Hnc' & [r Hr] & _ & Hag).
    cbn in Hr. subst sc'.
    apply agrees_scores in Hag as (Hc1 & Hc2 & Hc3).
    pose proof (min_step alpha beta0 beta bs bs' v r bm bm' m
                  Hwin Hb0 Hbs' Hbeta Hacc Hacc' Hle Heq Hc1 Hc2 Hc3)
      as Hstep.
    cbv zeta in Hstep.
    set (acc := if score_lt (Fin v) bs then (Some m, Fin v) else (bm, bs))
      in *.
    set (best := if score_lt (Fin r) bs' then (Some m, Fin r) else (bm', bs'))
      in *.
    set (beta' := score_min beta (Fin r)) in *.
    destruct Hstep as ((Hsacc & Hsbest & Hbsacc & Hvacc) & Hcut & Hgo).
    destruct (score_le beta' alpha) eqn:Hprune.
    + destruct Hcut as (Hbest & Hrv & Hbr & Ha0r); [done|].
      destruct (minimize_loop_returns rest acc.1 acc.2 Hrest)
        as (res & n & Hres & Hn & Hle1 & _).
      { right. by destruct acc. }
      exists res, (0 + (nc + n)), best, (0 + (nc' + (0 + 0))).
      split.
      { cbn. eapply returns_bind; [by apply returns_lift|].
        eapply returns_bind; [done|]. cbn -[score_lt]. subst acc.
        by destruct (score_lt (Fin v) bs). }
      split.
      { cbn. eapply returns_bind; [by apply returns_lift|].
        eapply returns_bind; [done|].
        cbn -[score_lt score_le score_min]. fold best beta'.
        rewrite Hprune.
        eapply returns_bind; [apply returns_count_pruned|].
        apply returns_ret. }
      split; [lia|]. split; [|by intros _].
      rewrite Hbest. unfold agrees. cbn [fst snd].
      clear -Hrv Hbr Ha0r Hle1 Hvacc.
      revert Hrv Hbr Ha0r Hle1 Hvacc. generalize (acc.2) (res.2).
      score_solve.
    + destruct Hgo as (Hw' & Hb0' & Hbest' & Hbe' & Hle1 & Heq1);
        [by intros []|].
      destruct (IH acc.1 acc.2 best.1 best.2 beta')
        as (res & n & res' & n' & Hres & Hres' & Hn & Hagree & Hset);
        try done.
      { right. by destruct acc. }
      { right. by destruct best. }
      { intros ?. destruct acc, best. cbn in *. auto. }
      exists res, (0 + (nc + n)), res', (0 + (nc' + n')).
      split.
      { cbn. eapply returns_bind; [by apply returns_lift|].
        eapply returns_bind; [done|]. cbn -[score_lt]. subst acc.
        by destruct (score_lt (Fin v) bs). }
      split.
      { cbn. eapply returns_bind; [by apply returns_lift|].
        eapply returns_bind; [done|].
        cbn -[score_lt score_le score_min]. fold best beta'.
        by rewrite Hprune. }
      split; [lia|]. split; [done|].
      intros _. apply Hset. right. by destruct best.
Qed.
End loops.

(** ** One node, by induction on the fuel *)

Lemma _should_stop_search_spec board depth max_depth :
  is3x3 board →
  ∃ stop, _should_stop_search board depth max_depth = Ok stop ∧
          (stop = false →
           is_game_over board = Ok false ∧ depth < max_depth).
Proof.
  intros Hb. destruct (is_game_over_spec board Hb) as (w & _ & _ & Hg).
  unfold _should_stop_search. rewrite Hg. cbn.
  destruct (negb _ || _) eqn:E; cbn.
  - by exists true.
  - exists (max_depth <=? depth). split; [done|].
    intros ?%Z.leb_gt. done.
Qed.

Lemma search_ok_all fuel board depth is_ai_turn max_depth :
  is3x3 board → (length (empty_cells board) < fuel)%nat →
  search_ok fuel board depth is_ai_turn max_depth.
Proof.
  revert board depth is_ai_turn.
  induction fuel as [|fuel IH]; intros board depth is_ai_turn Hb Hfuel; [lia|].
  destruct (_should_stop_search_spec board depth max_depth Hb)
    as (stop & Hstop & Hgo).
  destruct stop.
  - destruct (evaluate_position_total board depth Hb) as [v Hv].
    assert (∀ (k : M (option Move * Score)),
               returns
                 (_ ← count_node depth;
                  stop ← lift (_should_stop_search board depth max_depth);
                  if stop : bool
                  then v ← lift (evaluate_position board depth); mret (None, Fin v)
                  else k) (None, Fin v) (1 + (0 + (0 + 0)))) as Hleaf.
    { intros k. eapply returns_bind; [apply returns_count_node|].
      eapply returns_bind; [by apply returns_lift|]. cbn.
      eapply returns_bind; [by apply returns_lift|]. apply returns_ret. }
    exists (None, Fin v), (1 + (0 + (0 + 0))).
    split; [apply Hleaf|]. split; [lia|]. split; [by eexists|].
    split; [by rewrite Hstop|].
    intros alpha beta _. exists (None, Fin v), (1 + (0 + (0 + 0))).
    split; [apply Hleaf|]. split; [lia|]. split; [by eexists|].
    split; [by rewrite Hstop|].
    unfold agrees. cbn [fst snd].
    split_and!; [intros _; apply score_le_refl..|done].
  - destruct Hgo as [Hover _]; [done|].
    destruct (not_over_empty_cells board Hb Hover) as [_ Hne].
    pose proof (get_available_moves_empty_cells board Hb) as Hmoves.
    assert (Forall (λ m, m ∈ empty_cells board) (empty_cells board)) as Hall.
    { by apply Forall_forall. }
    assert (∀ m p board' side,
               p ≠ EMPTY →
               m ∈ empty_cells board → make_move board m p = Ok board' →
               search_ok fuel board' (depth + 1) side max_depth) as Hchildren.
    { intros m p board' side Hp Hm Hmk. apply IH.
      - destruct (empty_cells_inv _ _ Hm) as (r & c & -> & Hr & Hc & _).
        destruct (make_move_total board (Move_at r c) p Hb Hr Hc)
          as (b2 & Hb2 & H3).
        rewrite Hmk in Hb2. by simplify_eq.
      - pose proof (make_move_fewer_empty _ _ _ _ Hb Hm Hp Hmk). lia. }
    assert (∀ res : option Move * Score,
               settled res →
               (∃ v, res.2 = Fin v) ∧
               (res.1 = None ↔
                  _should_stop_search board depth max_depth = Ok true))
      as Hsettled.
    { intros res (m & v & ->). split; [by eexists|].
      rewrite Hstop. by split. }
    destruct is_ai_turn.
    + destruct (maximize_loop_returns fuel board depth max_depth Hb Hchildren
                  (empty_cells board) None NegInf Hall)
        as (res & n & Hres & Hn & _ & Hset); [by left|].
      exists res, (1 + (0 + (0 + n))).
      split.
      { eapply returns_bind; [apply returns_count_node|].
        eapply returns_bind; [by apply returns_lift|]. cbn.
        eapply returns_bind; [by apply returns_lift|]. done. }
      split; [lia|].
      destruct (Hsettled res) as [Hfin Hnone]; [by auto|].
      split; [done|]. split; [done|].
      intros alpha beta Hwin.
      destruct (maximize_pruning_agrees fuel board depth max_depth Hb
                  Hchildren (empty_cells board) alpha beta None NegInf
                  None NegInf alpha Hall Hwin)
        as (res2 & n2 & res' & n' & Hres2 & Hres' & Hn' & Hag & Hset');
        [apply score_le_refl|by destruct alpha|by left|by left|by left
        |done|done|].
      destruct (returns_det _ _ _ _ _ Hres Hres2) as [<- <-].
      exists res', (1 + (0 + (0 + n'))).
      split.
      { eapply returns_bind; [apply returns_count_node|].
        eapply returns_bind; [by apply returns_lift|]. cbn.
        eapply returns_bind; [by apply returns_lift|]. done. }
      split; [lia|].
      destruct (Hsettled res') as [Hfin' Hnone']; [by auto|].
      done.
    + destruct (minimize_loop_returns fuel board depth max_depth Hb Hchildren
                  (empty_cells board) None PosInf Hall)
        as (res & n & Hres & Hn & _ & Hset); [by left|].
      exists res, (1 + (0 + (0 + n))).
      split.
      { eapply returns_bind; [apply returns_count_node|].
        eapply returns_bind; [by apply returns_lift|]. cbn.
        eapply returns_bind; [by apply returns_lift|]. done. }
      split; [lia|].
      destruct (Hsettled res) as [Hfin Hnone]; [by auto|].
      split; [done|]. split; [done|].
      intros alpha beta Hwin.
      destruct (minimize_pruning_agrees fuel board depth max_depth Hb
                  Hchildren (empty_cells board) alpha beta None PosInf
                  None PosInf beta Hall Hwin)
        as (res2 & n2 & res' & n' & Hres2 & Hres' & Hn' & Hag & Hset');
        [apply score_le_refl|by destruct beta|by left|by left|by left
        |done|done|].
      destruct (returns_det _ _ _ _ _ Hres Hres2) as [<- <-].
      exists res', (1 + (0 + (0 + n'))).
      split.
      { eapply returns_bind; [apply returns_count_node|].
        eapply returns_bind; [by apply returns_lift|]. cbn.
        eapply returns_bind; [by apply returns_lift|]. done. }
      split; [lia|].
      destruct (Hsettled res') as [Hfin' Hnone']; [by auto|].
      done.
Qed.

(** ** make_move on the object store *)

Lemma read_row_alloc h o l :
  (l < length h)%nat → Heap.read_row (h ++ [o]) l = Heap.read_row h l.
Proof. intros. unfold Heap.read_row. by rewrite lookup_app_l. Qed.

Lemma copy_rows_spec h refs rows :
  mapM (Heap.read_row h) refs = Some rows →
  Heap.copy_rows h refs =
    Ok (seq (length h) (length refs), h ++ (Heap.Row <$> rows)).
Proof.
  revert h rows. induction refs as [|r refs IH]; intros h rows Hread;
    apply mapM_Some in Hread.
  - inversion Hread; subst. cbn. by rewrite app_nil_r.
  - inversion Hread as [|? cells ? rows' Hr Hrest]; subst.
    unfold Heap.read_row in Hr.
    destruct (h !! r) as [[cells'|]|] eqn:Hl; simplify_eq/=.
    rewrite Hl. cbn.
    rewrite (IH (h ++ [Heap.Row cells]) rows').
    + cbn. rewrite length_app. cbn. rewrite <- app_assoc. cbn.
      by rewrite Nat.add_1_r.
    + apply mapM_Some.
      eapply Forall2_impl; [done|]. cbn. intros l cs Hcs.
      rewrite read_row_alloc; [done|].
      unfold Heap.read_row in Hcs.
      destruct (h !! l) eqn:E; [|done]. by eapply lookup_lt_Some.
Qed.

Lemma make_move_pure board move player :
  is3x3 board → (row move < 3)%nat → (col move < 3)%nat →
  ∃ rw, board !! row move = Some rw ∧ length rw = 3%nat ∧
        make_move board move player =
          Ok (<[row move := <[col move := player]> rw]> board).
Proof.
  intros [Hl Hrows] Hr Hc.
  destruct (lookup_lt_is_Some_2 board (row move)) as [rw Hrw]; [lia|].
  assert (length rw = 3%nat) as Hlen.
  { eapply Forall_lookup_1 in Hrows; eauto. }
  exists rw. split; [done|]. split; [done|].
  unfold make_move. cbv zeta. rewrite list_fmap_id, Hrw.
  by rewrite bool_decide_eq_true_2 by lia.
Qed.

(** C8.  For every store in which [board_ref] denotes a 3x3 board, every
    move with indices in 0..2 and every mark, [make_move] returns a
    reference to a new board that equals the input board at every cell
    except the targeted one, which holds the mark; every object that
    existed before the call is unchanged, so the input board reads the same
    before and after.  The board-valued [make_move] used by the search
    computes the same new board. *)
Theorem make_move_spec (h : Heap.heap) (board_ref : Heap.loc) board move player :
  Heap.read_board h board_ref = Some board →
  is3x3 board → (row move < 3)%nat → (col move < 3)%nat →
  ∃ new_ref h' new_board,
    Heap.make_move h board_ref move player = Ok (new_ref, h') ∧
    Heap.read_board h' new_ref = Some new_board ∧
    make_move board move player = Ok new_board ∧
    (∀ r c, cell new_board r c =
            if decide (r = row move ∧ c = col move) then Ok player
            else cell board r c) ∧
    (∀ l, (l < length h)%nat → h' !! l = h !! l) ∧
    Heap.read_board h' board_ref = Some board.
Proof.
  intros Hread Hb Hr Hc.
  destruct (make_move_pure board move player Hb Hr Hc)
    as (rw & Hrw & Hlen & Hpure).
  unfold Heap.read_board in Hread.
  destruct (h !! board_ref) as [[|refs]|] eqn:Href; try done.
  pose proof Hread as Hrows. apply mapM_Some, Forall2_length in Hrows.
  destruct Hb as [Hl3 Hrows3].
  set (h1 := h ++ (Heap.Row <$> board)).
  set (new_refs := seq (length h) (length refs)).
  set (target := (length h + row move)%nat).
  set (h2 := h1 ++ [Heap.Rows new_refs]).
  set (h3 := <[target := Heap.Row (<[col move := player]> rw)]> h2).
  assert (length h1 = (length h + 3)%nat) as Hlen1.
  { subst h1. rewrite length_app, length_fmap. lia. }
  assert (h2 !! target = Some (Heap.Row rw)) as Htarget.
  { subst h2 h1 target. rewrite lookup_app_l by lia.
    rewrite lookup_app_r by lia.
    replace (length h + row move - length h)%nat with (row move) by lia.
    by rewrite list_lookup_fmap, Hrw. }
  assert (Heap.make_move h board_ref move player = Ok (length h1, h3)) as Hrun.
  { unfold Heap.make_move. rewrite Href, (copy_rows_spec _ _ _ Hread). cbn.
    fold h1 new_refs h2.
    assert (new_refs !! row move = Some target) as ->.
    { subst new_refs target. apply lookup_seq. split; [done|lia]. }
    rewrite Htarget, bool_decide_eq_true_2 by lia. done. }
  assert (∀ l, (l < length h)%nat → h3 !! l = h !! l) as Hframe.
  { intros l Hlt. subst h3 h2 h1 target.
    rewrite list_lookup_insert_ne by lia.
    rewrite <- app_assoc. by rewrite lookup_app_l. }
  exists (length h1), h3, (<[row move := <[col move := player]> rw]> board).
  split; [done|]. split; [|split; [done|split; [|split; [done|]]]].
  - unfold Heap.read_board.
    assert (h3 !! length h1 = Some (Heap.Rows new_refs)) as ->.
    { subst h3 h2 target. rewrite list_lookup_insert_ne by lia.
      rewrite lookup_app_r by lia. by rewrite Nat.sub_diag. }
    apply mapM_Some, Forall2_same_length_lookup.
    split; [subst new_refs; rewrite length_seq, length_insert; lia|].
    intros i l cells Hl Hcells. subst new_refs.
    apply lookup_seq in Hl as [-> Hi].
    unfold Heap.read_row. subst h3.
    destruct (decide (i = row move)) as [->|Hne].
    + fold target. rewrite list_lookup_insert_eq in Hcells by lia.
      rewrite list_lookup_insert_eq; [by simplify_eq|].
      subst h2. rewrite length_app. cbn. lia.
    + rewrite list_lookup_insert_ne in Hcells by done.
      rewrite list_lookup_insert_ne by (subst target; lia).
      subst h2 h1. rewrite lookup_app_l by lia.
      rewrite lookup_app_r by lia.
      replace (length h + i - length h)%nat with i by lia.
      by rewrite list_lookup_fmap, Hcells.
  - intros r c. by apply make_move_cell.
  - unfold Heap.read_board. rewrite Hframe by (by eapply lookup_lt_Some).
    rewrite Href. apply mapM_Some. apply mapM_Some in Hread.
    eapply Forall2_impl; [done|]. cbn. intros l cs Hcs.
    unfold Heap.read_row in *. rewrite Hframe; [done|].
    destruct (h !! l) eqn:E; [|done]. by eapply lookup_lt_Some.
Qed.

(** ** Enough fuel *)

Lemma empty_cells_at_most_nine board : (length (empty_cells board) ≤ 9)%nat.
Proof. unfold empty_cells. by etrans; [apply length_filter|]. Qed.

Lemma search_ok_ten fuel board depth is_ai_turn max_depth :
  is3x3 board → (10 ≤ fuel)%nat →
  search_ok fuel board depth is_ai_turn max_depth.
Proof.
  intros Hb Hfuel. apply search_ok_all; [done|].
  pose proof (empty_cells_at_most_nine board). lia.
Qed.

(** ** minimax against alpha_beta *)

(** C1.  For every 3x3 board, starting depth, side to move and depth
    limit, [alpha_beta] called with the window (-infinity, +infinity)
    returns the same evaluation score as [minimax] on the same arguments.
    With this full window the move returned is the same one as well, so
    the two results never differ beyond a choice among equally scored
    moves.  Both calls return for any fuel of at least ten, from any
    statistics. *)
Theorem alpha_beta_same_score_as_minimax
    fuel board depth is_ai_turn max_depth st st' :
  is3x3 board → (10 ≤ fuel)%nat →
  ∃ mv sc st1 st1',
    minimax fuel board depth is_ai_turn max_depth st = Ok ((mv, Fin sc), st1) ∧
    alpha_beta fuel board depth NegInf PosInf is_ai_turn max_depth st' =
      Ok ((mv, Fin sc), st1').
Proof.
  intros Hb Hfuel.
  destruct (search_ok_ten fuel board depth is_ai_turn max_depth Hb Hfuel)
    as ([mv s] & n & Hmm & _ & [v Hv] & _ & Hab).
  cbn in Hv. subst s.
  destruct (Hab NegInf PosInf) as ([mv' s'] & n' & Hret & _ & [r Hr] & _ & Hag);
    [done|].
  cbn in Hr. subst s'.
  destruct Hag as (_ & _ & Heq). specialize (Heq I I). simplify_eq.
  destruct (Hmm st) as (st1 & E1 & _). destruct (Hret st') as (st1' & E2 & _).
  by exists mv, v, st1, st1'.
Qed.

(** C9.  For every 3x3 board, starting depth, side to move and depth
    limit, the number of nodes that [alpha_beta] counts with the full
    window is at most the number that [minimax] counts on the same
    arguments; the number of nodes of a call is the increase of
    [nodes_explored] over the call. *)
Theorem alpha_beta_explores_no_more_nodes
    fuel board depth is_ai_turn max_depth st st' :
  is3x3 board → (10 ≤ fuel)%nat →
  ∃ res st1 res' st1',
    minimax fuel board depth is_ai_turn max_depth st = Ok (res, st1) ∧
    alpha_beta fuel board depth NegInf PosInf is_ai_turn max_depth st' =
      Ok (res', st1') ∧
    nodes_explored st1' - nodes_explored st' ≤
      nodes_explored st1 - nodes_explored st.
Proof.
  intros Hb Hfuel.
  destruct (search_ok_ten fuel board depth is_ai_turn max_depth Hb Hfuel)
    as (res & n & Hmm & _ & _ & _ & Hab).
  destruct (Hab NegInf PosInf) as (res' & n' & Hret & Hn & _); [done|].
  destruct (Hmm st) as (st1 & E1 & N1). destruct (Hret st') as (st1' & E2 & N2).
  exists res, st1, res', st1'. split; [done|]. split; [done|]. lia.
Qed.

(** ** evaluate_position *)

Lemma winner_of_lines board p :
  is3x3 board → has_line board p → p ≠ EMPTY →
  (∀ q, q ≠ EMPTY → q ≠ p → ¬ has_line board q) →
  check_winner board = Ok (Some p).
Proof.
  intros Hb Hline Hp Hothers.
  destruct (check_winner_total board Hb) as [[w|] Hw].
  - destruct (check_winner_Some board w Hw) as [Hne Hwl].
    destruct (decide (w = p)) as [->|Hwp]; [done|].
    by destruct (Hothers w).
  - by destruct (check_winner_None board p Hw).
Qed.

(** C2 (amended).  For every 3x3 board and every depth: if the AI mark
    "O" occupies a complete winning line and the opponent mark "X"
    occupies none, [evaluate_position] is [100 - depth]; if "X" occupies a
    complete line and "O" none, it is [-100 + depth]; and if no cell is
    empty and neither mark occupies a complete line, it is [0]. *)
Theorem evaluate_position_terminal board depth :
  is3x3 board →
  (has_line board O → ¬ has_line board X →
   evaluate_position board depth = Ok (100 - depth)) ∧
  (has_line board X → ¬ has_line board O →
   evaluate_position board depth = Ok (-100 + depth)) ∧
  (no_empty_cell board → ¬ has_line board O → ¬ has_line board X →
   evaluate_position board depth = Ok 0).
Proof.
  intros Hb. split_and!.
  - intros HO HX. unfold evaluate_position.
    rewrite (winner_of_lines board O); try done.
    intros [] ??; done.
  - intros HX HO. unfold evaluate_position.
    rewrite (winner_of_lines board X); try done.
    intros [] ??; done.
  - intros Hfull HO HX.
    destruct (is_game_over_spec board Hb) as (w & Hw & Hd & _).
    destruct w as [w|].
    { destruct (check_winner_Some board w Hw) as [Hne Hwl]. by destruct w. }
    unfold evaluate_position. rewrite Hw, Hd. cbn.
    destruct (board_full board) eqn:Hbf; [done|].
    destruct (board_full_false board Hbf) as (r & c & Hrc).
    by destruct (Hfull r c).
Qed.

(** Without the condition on the other mark the statement fails: on a
    board that holds a complete line of each mark, "O" occupies the middle
    row, yet the score at depth 0 is that of a win of "X", whose line comes
    first in the scan. *)
Lemma evaluate_position_two_lines :
  is3x3 board_two_lines ∧ has_line board_two_lines O ∧
  evaluate_position board_two_lines 0 = Ok (-100) ∧
  evaluate_position board_two_lines 0 ≠ Ok (100 - 0).
Proof.
  split_and!.
  - split; [done|]. by repeat constructor.
  - apply (bool_decide_unpack _). by vm_compute.
  - by vm_compute.
  - by vm_compute.
Qed.

(** ** get_best_move *)

Lemma empty_cells_nil board :
  is3x3 board → empty_cells board = [] ↔ no_empty_cell board.
Proof.
  intros Hb. split.
  - intros Hnil r c Hrc. apply (elem_of_empty_cells _ _ _ Hb) in Hrc.
    rewrite Hnil in Hrc. by apply elem_of_nil in Hrc.
  - intros Hfull. destruct (empty_cells board) as [|m ms] eqn:E; [done|].
    destruct (empty_cells_inv board m) as (r & c & _ & _ & _ & Hrc).
    { rewrite E. by left. }
    by destruct (Hfull r c).
Qed.

Lemma empty_cells_single board r c :
  is3x3 board → cell board r c = Ok EMPTY →
  (∀ r' c', cell board r' c' = Ok EMPTY → r' = r ∧ c' = c) →
  empty_cells board = [Move_at r c].
Proof.
  intros Hb Hrc Honly.
  assert (∀ m, m ∈ empty_cells board → m = Move_at r c) as Hall.
  { intros m (r' & c' & -> & _ & _ & He)%empty_cells_inv.
    by destruct (Honly r' c' He) as [-> ->]. }
  assert (NoDup (empty_cells board)) as Hnd.
  { apply NoDup_filter, positions_NoDup. }
  apply (elem_of_empty_cells _ _ _ Hb) in Hrc.
  destruct (empty_cells board) as [|x [|y l]].
  - by apply elem_of_nil in Hrc.
  - f_equal. apply Hall. by left.
  - rewrite (Hall x), (Hall y) in Hnd by (rewrite !elem_of_cons; auto).
    apply NoDup_cons in Hnd as [Hnd _]. destruct Hnd. by left.
Qed.

(** ** The monad of the statistics *)

Lemma bind_Ok {A B} (m : M A) (f : A → M B) st r st' :
  (m ≫= f) st = Ok (r, st') →
  ∃ a st1, m st = Ok (a, st1) ∧ f a st1 = Ok (r, st').
Proof.
  unfold mbind, M_bind. destruct (m st) as [[a st1]|]; [|done]. eauto.
Qed.

Lemma lift_Ok {A} (x : result A) st a st' :
  lift x st = Ok (a, st') → x = Ok a ∧ st' = st.
Proof. unfold lift. destruct x; [|done]. by intros [= -> ->]. Qed.

(** ** A bound on the pruning events of a search *)

Section pruned_loops.
Context (board : Board) (depth max_depth : Z) (C : Z).
Hypothesis C_nonneg : 0 ≤ C.

Lemma maximize_pruning_loop_pruned (rec : alpha_beta_t) beta moves :
  (∀ m b' a b side st r st',
     m ∈ moves → make_move board m AI_PLAYER = Ok b' →
     rec b' (depth + 1) a b side max_depth st = Ok (r, st') →
     0 ≤ pruned_branches st' - pruned_branches st ≤ C) →
  ∀ alpha bm bs st r st',
    maximize_pruning_loop rec board depth max_depth beta moves alpha bm bs st =
      Ok (r, st') →
    0 ≤ pruned_branches st' - pruned_branches st ≤
      Z.of_nat (length moves) * (C + 1).
Proof.
  induction moves as [|m rest IH]; intros Hrec alpha bm bs st r st' Hrun.
  - injection Hrun as _ <-. cbn. lia.
  - cbn -[score_le score_max] in Hrun.
    apply bind_Ok in Hrun as (b' & s1 & [Hmk ->]%lift_Ok & Hrun).
    apply bind_Ok in Hrun as (res & s2 & Hs & Hrun).
    apply (Hrec m) in Hs; [|by left|done].
    cbn -[score_le score_max] in Hrun.
    rewrite length_cons, Nat2Z.inj_succ.
    assert (0 ≤ Z.of_nat (length rest) * (C + 1)) by nia.
    destruct (score_le beta _).
    + apply bind_Ok in Hrun as (u & s3 & [= _ <-] & Hrun).
      injection Hrun as _ <-. cbn. lia.
    + apply IH in Hrun; [lia|].
      intros m' b0 a b side s r0 s' Hin. apply Hrec. by right.
Qed.

Lemma minimize_pruning_loop_pruned (rec : alpha_beta_t) alpha moves :
  (∀ m b' a b side st r st',
     m ∈ moves → make_move board m HUMAN_PLAYER = Ok b' →
     rec b' (depth + 1) a b side max_depth st = Ok (r, st') →
     0 ≤ pruned_branches st' - pruned_branches st ≤ C) →
  ∀ beta bm bs st r st',
    minimize_pruning_loop rec board depth max_depth alpha moves beta bm bs st =
      Ok (r, st') →
    0 ≤ pruned_branches st' - pruned_branches st ≤
      Z.of_nat (length moves) * (C + 1).
Proof.
  induction moves as [|m rest IH]; intros Hrec beta bm bs st r st' Hrun.
  - injection Hrun as _ <-. cbn. lia.
  - cbn -[score_le score_min] in Hrun.
    apply bind_Ok in Hrun as (b' & s1 & [Hmk ->]%lift_Ok & Hrun).
    apply bind_Ok in Hrun as (res & s2 & Hs & Hrun).
    apply (Hrec m) in Hs; [|by left|done].
    cbn -[score_le score_min] in Hrun.
    rewrite length_cons, Nat2Z.inj_succ.
    assert (0 ≤ Z.of_nat (length rest) * (C + 1)) by nia.
    destruct (score_le _ alpha).
    + apply bind_Ok in Hrun as (u & s3 & [= _ <-] & Hrun).
      injection Hrun as _ <-. cbn. lia.
    + apply IH in Hrun; [lia|].
      intros m' b0 a b side s r0 s' Hin. apply Hrec. by right.
Qed.

End pruned_loops.

Lemma alpha_beta_pruned (k : nat) fuel board depth alpha beta is_ai_turn
    max_depth st r st' :
  is3x3 board → (length (empty_cells board) ≤ k)%nat →
  alpha_beta fuel board depth alpha beta is_ai_turn max_depth st =
    Ok (r, st') →
  0 ≤ pruned_branches st' - pruned_branches st ≤ 20 ^ Z.of_nat k.
Proof.
  revert k board depth alpha beta is_ai_turn st r st'.
  induction fuel as [|fuel IH];
    intros k board depth alpha beta is_ai_turn st r st' Hb Hk Hrun; [done|].
  assert (0 < 20 ^ Z.of_nat k) as Hpos by (apply Z.pow_pos_nonneg; lia).
  cbn [alpha_beta] in Hrun.
  apply bind_Ok in Hrun as (u & s1 & [= _ <-] & Hrun).
  apply bind_Ok in Hrun as (stop & s2 & [Hstop ->]%lift_Ok & Hrun).
  destruct stop.
  { apply bind_Ok in Hrun as (v & s3 & [_ ->]%lift_Ok & Hrun).
    injection Hrun as _ <-. cbn. lia. }
  apply bind_Ok in Hrun as (moves & s3 & [Hmoves ->]%lift_Ok & Hrun).
  rewrite (get_available_moves_empty_cells board Hb) in Hmoves.
  injection Hmoves as <-.
  set (C := 20 ^ Z.of_nat (Nat.pred k)).
  assert (0 < C) as HC by (apply Z.pow_pos_nonneg; lia).
  assert (∀ p m b' a b side s r0 s',
             p ≠ EMPTY → m ∈ empty_cells board →
             make_move board m p = Ok b' →
             alpha_beta fuel b' (depth + 1) a b side max_depth s =
               Ok (r0, s') →
             0 ≤ pruned_branches s' - pruned_branches s ≤ C) as Hrec.
  { intros p m b' a b side s r0 s' Hp Hm Hmk Hr.
    destruct (empty_cells_inv _ _ Hm) as (r1 & c1 & -> & Hr1 & Hc1 & _).
    destruct (make_move_total board (Move_at r1 c1) p Hb Hr1 Hc1)
      as (b2 & Hb2 & H3).
    rewrite Hmk in Hb2. injection Hb2 as <-.
    pose proof (make_move_fewer_empty board _ p b' Hb Hm Hp Hmk).
    apply (IH (Nat.pred k)) in Hr; [done|done|lia]. }
  pose proof (empty_cells_at_most_nine board) as Hnine.
  assert (Z.of_nat (length (empty_cells board)) * (C + 1) ≤
            20 ^ Z.of_nat k) as Hsum.
  { destruct k as [|k'].
    - destruct (empty_cells board); [cbn; lia|cbn in Hk; lia].
    - subst C. cbn [Nat.pred] in *. rewrite Nat2Z.inj_succ, Z.pow_succ_r by lia.
      nia. }
  destruct is_ai_turn.
  - eapply (maximize_pruning_loop_pruned board depth max_depth C) in Hrun;
      [cbn in *; lia|lia|].
    intros m b' a b side s r0 s' Hm. by apply Hrec.
  - eapply (minimize_pruning_loop_pruned board depth max_depth C) in Hrun;
      [cbn in *; lia|lia|].
    intros m b' a b side s r0 s' Hm. by apply Hrec.
Qed.

(** ** The text of the rationale *)

Lemma str_of_int_Ok z :
  Z.abs z < 10 ^ int_max_str_digits → str_of_int z = Ok (pretty z).
Proof. intros H. unfold str_of_int. by rewrite (proj2 (Z.ltb_lt _ _) H). Qed.

Lemma str_of_int_Raise z :
  10 ^ int_max_str_digits ≤ Z.abs z → str_of_int z = Raise int_str_error.
Proof. intros H. unfold str_of_int. by rewrite (proj2 (Z.ltb_ge _ _) H). Qed.

Lemma pruned_prints : 20 ^ Z.of_nat 9 < 10 ^ int_max_str_digits.
Proof. by vm_compute. Qed.

Lemma depth_prints_cases algorithm search_depth :
  depth_prints algorithm search_depth ∨
  algorithm = "depth_limited" ∧ 10 ^ int_max_str_digits ≤ Z.abs search_depth.
Proof.
  unfold depth_prints.
  destruct (decide (algorithm = "depth_limited")) as [->|Hne];
    [|by left].
  destruct (Z.lt_ge_cases (Z.abs search_depth) (10 ^ int_max_str_digits));
    [by left|by right].
Qed.

Lemma _run_algorithm_spec fuel board algorithm search_depth st :
  is3x3 board → (10 ≤ fuel)%nat → pruned_branches st = 0 →
  depth_prints algorithm search_depth →
  ∃ mv v reason st',
    _run_algorithm fuel board algorithm search_depth st =
      Ok ((mv, Fin v, reason), st') ∧
    (mv = None ↔ _should_stop_search board 0 search_depth = Ok true).
Proof.
  intros Hb Hfuel Hzero Hprints.
  destruct (search_ok_ten fuel board 0 true search_depth Hb Hfuel)
    as ([mv s] & n & Hmm & _ & [v Hv] & Hnone & Hab).
  cbn in Hv, Hnone. subst s. unfold _run_algorithm.
  case_bool_decide as Halg; [|case_bool_decide as Hdl].
  - destruct (Hab NegInf PosInf)
      as ([mv' s'] & n' & Hret & _ & [r Hr] & Hnone' & _); [done|].
    cbn in Hr, Hnone'. subst s'. destruct (Hret st) as (st1 & E1 & _).
    pose proof (alpha_beta_pruned 9 _ _ _ _ _ _ _ _ _ _ Hb
                  (empty_cells_at_most_nine board) E1) as Hp.
    pose proof pruned_prints.
    eexists mv', r, _, st1. split; [|done].
    unfold mbind, M_bind. rewrite E1. unfold read_pruned_branches, lift.
    rewrite str_of_int_Ok by lia. done.
  - destruct (Hmm st) as (st1 & E1 & _).
    eexists mv, v, _, st1. split; [|done].
    unfold depth_limited_minimax, mbind, M_bind. rewrite E1.
    unfold lift. rewrite str_of_int_Ok by (by apply Hprints). done.
  - destruct (Hmm st) as (st1 & E1 & _).
    eexists mv, v, _, st1. split; [|done].
    unfold mbind, M_bind. by rewrite E1.
Qed.

Lemma _run_algorithm_limit fuel board search_depth st :
  is3x3 board → (10 ≤ fuel)%nat →
  10 ^ int_max_str_digits ≤ Z.abs search_depth →
  _run_algorithm fuel board "depth_limited" search_depth st =
    Raise int_str_error.
Proof.
  intros Hb Hfuel Hbig.
  destruct (search_ok_ten fuel board 0 true search_depth Hb Hfuel)
    as (res & n & Hmm & _).
  destruct (Hmm st) as (st1 & E1 & _).
  unfold _run_algorithm.
  rewrite bool_decide_eq_false_2 by done.
  rewrite bool_decide_eq_true_2 by done.
  unfold depth_limited_minimax, mbind, M_bind. rewrite E1.
  unfold lift. by rewrite str_of_int_Raise.
Qed.

Lemma random_choice_total env moves :
  moves ≠ [] → ∃ m, random_choice env moves = Ok m ∧ m ∈ moves.
Proof.
  intros Hne. unfold random_choice.
  destruct (lookup_lt_is_Some_2 moves (choice_raw env mod length moves))
    as [m Hm].
  { apply Nat.mod_upper_bound. by destruct moves. }
  rewrite Hm. exists m. split; [done|]. by eapply list_elem_of_lookup_2.
Qed.

Lemma _apply_difficulty_adjustments_total env best moves difficulty reason :
  moves ≠ [] →
  ∃ m, _apply_difficulty_adjustments env best moves difficulty reason = Ok m.
Proof.
  intros Hne. unfold _apply_difficulty_adjustments.
  destruct (_ && _); [|by eauto].
  destruct (random_below_threshold env); [|by eauto].
  destruct (random_choice_total env moves Hne) as (m & -> & _). cbn. eauto.
Qed.

(** The result of [get_best_move] once a search has been dispatched, in
    terms of what [_run_algorithm] returned and of the final move. *)
Lemma get_best_move_dispatched fuel env board algorithm difficulty max_depth
    st first second rest mv sc reason st1 final :
  get_available_moves board = Ok (first :: second :: rest) →
  _run_algorithm fuel board algorithm (_get_search_depth difficulty max_depth)
    (mkStats 0 0 0 (time_at_reset env)) = Ok ((mv, sc, reason), st1) →
  _apply_difficulty_adjustments env (default first mv)
    (first :: second :: rest) difficulty
    (if mv is Some _ then reason else "Fallback to first available move") = Ok final →
  get_best_move fuel env board algorithm difficulty max_depth st =
    Ok ((final,
         AlgorithmAnalysis.mk (nodes_explored st1) (pruned_branches st1)
           (max_depth_reached st1) (time_at_analysis env - start_time st1)
           (if mv is Some _ then reason else "Fallback to first available move")
           (if mv is Some _ then sc else Fin 0)),
        st1).
Proof.
  intros Hmoves Hrun Hadj. unfold get_best_move.
  unfold mbind at 1, M_bind at 1. cbn [_reset_stats].
  unfold mbind at 1, M_bind at 1. rewrite Hmoves. cbn [lift].
  unfold mbind at 1, M_bind at 1. rewrite Hrun. cbn [fst snd].
  destruct mv as [m|]; cbn in Hadj |- *;
    unfold mbind, M_bind, lift; rewrite Hadj; done.
Qed.

Lemma get_best_move_limit fuel env board difficulty max_depth st
    first second rest :
  is3x3 board → (10 ≤ fuel)%nat →
  get_available_moves board = Ok (first :: second :: rest) →
  10 ^ int_max_str_digits ≤ Z.abs (_get_search_depth difficulty max_depth) →
  get_best_move fuel env board "depth_limited" difficulty max_depth st =
    Raise int_str_error.
Proof.
  intros Hb Hfuel Hmoves Hbig. unfold get_best_move.
  unfold mbind at 1, M_bind at 1. cbn [_reset_stats].
  unfold mbind at 1, M_bind at 1. rewrite Hmoves. cbn [lift].
  unfold mbind at 1, M_bind at 1.
  by rewrite (_run_algorithm_limit fuel board _ _ Hb Hfuel Hbig).
Qed.



(** C4.  For every 3x3 board with exactly one empty cell, [get_best_move]
    returns that cell, with evaluation score 0, the rationale "Only one
    move available" and zero nodes explored, pruned and depth reached.  No
    search runs: the result holds for any amount of fuel, also none, and
    the statistics left behind are those of the reset. *)
Theorem get_best_move_single_move
    fuel env board algorithm difficulty max_depth st r c :
  is3x3 board → cell board r c = Ok EMPTY →
  (∀ r' c', cell board r' c' = Ok EMPTY → r' = r ∧ c' = c) →
  get_best_move fuel env board algorithm difficulty max_depth st =
    Ok ((Move_at r c,
         AlgorithmAnalysis.mk 0 0 0 (time_at_analysis env - time_at_reset env)
           "Only one move available" (Fin 0)),
        mkStats 0 0 0 (time_at_reset env)).
Proof.
  intros Hb Hrc Honly.
  pose proof (get_available_moves_empty_cells board Hb) as Hmoves.
  rewrite (empty_cells_single board r c Hb Hrc Honly) in Hmoves.
  unfold get_best_move. unfold mbind at 1, M_bind at 1. cbn [_reset_stats].
  unfold mbind, M_bind. by rewrite Hmoves.
Qed.

Lemma board_full_no_empty board :
  is3x3 board → empty_cells board ≠ [] → board_full board = false.
Proof.
  intros Hb Hne. destruct (board_full board) eqn:E; [|done].
  destruct Hne. apply empty_cells_nil; [done|].
  intros r c. by apply board_full_true.
Qed.

Lemma check_winner_lines board :
  is3x3 board →
  ∃ w, check_winner board = Ok w ∧
       (w = None ↔ ¬ has_line board X ∧ ¬ has_line board O).
Proof.
  intros Hb. destruct (check_winner_total board Hb) as [w Hw].
  exists w. split; [done|]. destruct w as [p|].
  - destruct (check_winner_Some board p Hw) as [Hne Hl].
    split; [done|]. intros [HX HO]. by destruct p.
  - split; [|done]. intros _.
    split; by apply check_winner_None.
Qed.

(** The root of a search on a board with an empty cell is a leaf exactly
    when a mark holds a complete line or the depth limit is at most 0. *)
Lemma stop_at_root board search_depth :
  is3x3 board → empty_cells board ≠ [] →
  _should_stop_search board 0 search_depth = Ok true ↔
  has_line board X ∨ has_line board O ∨ search_depth ≤ 0.
Proof.
  intros Hb Hne.
  destruct (is_game_over_spec board Hb) as (w & Hw & _ & Hover).
  destruct (check_winner_lines board Hb) as (w' & Hw' & Hlines).
  rewrite Hw in Hw'. simplify_eq.
  rewrite (board_full_no_empty board Hb Hne) in Hover.
  unfold _should_stop_search. rewrite Hover. cbn.
  destruct w' as [p|]; cbn.
  - split; [intros _|done].
    destruct (decide (has_line board X)); [by left|].
    destruct (decide (has_line board O)); [by auto|].
    assert (Some p = None) by (by apply Hlines). done.
  - assert (¬ has_line board X ∧ ¬ has_line board O) as [HX HO]
      by (by apply Hlines).
    destruct (Z.leb_spec search_depth 0); split; intros Hx;
      [by auto|done|done|].
    destruct Hx as [?|[?|?]]; [done|done|lia].
Qed.

(** C5 (amended).  For every 3x3 board with at least two empty cells,
    where the rationale of the dispatched algorithm can be written, the
    algorithm returns, and the move it returns is none exactly when a mark
    already occupies a complete line or the search depth is at most 0.
    When it returns a move, [get_best_move] reports the score and the
    rationale of the search.  When it returns none, [get_best_move] takes
    the fallback: the first available move in scan order (the move that
    the adjustment for the difficulty is then applied to), the score 0 and
    the rationale "Fallback to first available move". *)
Theorem dispatched_search_move
    fuel env board algorithm difficulty max_depth st first second rest :
  is3x3 board → (10 ≤ fuel)%nat →
  get_available_moves board = Ok (first :: second :: rest) →
  depth_prints algorithm (_get_search_depth difficulty max_depth) →
  ∃ mv v reason st1 final analysis st',
    _run_algorithm fuel board algorithm
      (_get_search_depth difficulty max_depth)
      (mkStats 0 0 0 (time_at_reset env)) = Ok ((mv, Fin v, reason), st1) ∧
    (mv = None ↔
     has_line board X ∨ has_line board O ∨
     _get_search_depth difficulty max_depth ≤ 0) ∧
    get_best_move fuel env board algorithm difficulty max_depth st =
      Ok ((final, analysis), st') ∧
    (mv = None →
     _apply_difficulty_adjustments env first (first :: second :: rest)
       difficulty "Fallback to first available move" = Ok final ∧
     (difficulty ≠ "easy" ∨ random_below_threshold env = false →
      final = first) ∧
     AlgorithmAnalysis.evaluation_score analysis = Fin 0 ∧
     AlgorithmAnalysis.move_reasoning analysis =
       "Fallback to first available move") ∧
    (∀ m, mv = Some m →
     _apply_difficulty_adjustments env m (first :: second :: rest)
       difficulty reason = Ok final ∧
     AlgorithmAnalysis.evaluation_score analysis = Fin v ∧
     AlgorithmAnalysis.move_reasoning analysis = reason).
Proof.
  intros Hb Hfuel Hmoves Hprints.
  pose proof (get_available_moves_empty_cells board Hb) as Hcells.
  rewrite Hmoves in Hcells. injection Hcells as Hcells.
  destruct (_run_algorithm_spec fuel board algorithm
              (_get_search_depth difficulty max_depth)
              (mkStats 0 0 0 (time_at_reset env)) Hb Hfuel eq_refl Hprints)
    as (mv & v & reason & st1 & Hrun & Hnone).
  destruct (_apply_difficulty_adjustments_total env (default first mv)
              (first :: second :: rest) difficulty
              (if mv is Some _ then reason
               else "Fallback to first available move"))
    as [final Hfinal]; [done|].
  pose proof (get_best_move_dispatched _ _ _ _ _ _ st _ _ _ _ _ _ _ _
                Hmoves Hrun Hfinal) as Hbest.
  eexists mv, v, reason, st1, final, _, st1.
  split; [done|]. split.
  { rewrite Hnone. apply stop_at_root; [done|]. by rewrite <- Hcells. }
  split; [exact Hbest|]. split.
  - intros ->. cbn in Hfinal |- *. split; [done|]. split; [|done].
    intros Hnorand. unfold _apply_difficulty_adjustments in Hfinal.
    destruct Hnorand as [Hne|Hno].
    + rewrite bool_decide_eq_false_2 in Hfinal by done. cbn in Hfinal.
      by injection Hfinal.
    + rewrite Hno in Hfinal. destruct (_ && _); by injection Hfinal.
  - intros m ->. cbn in Hfinal |- *. done.
Qed.

(** The fallback does occur: with at least two moves available the
    dispatched algorithm returns no move when the board already holds a
    complete line, and also when the depth limit is 0; [get_best_move] then
    answers with the first available move and score 0. *)
Lemma fallback_is_taken :
  get_available_moves board_won =
    Ok [Move_at 1 2; Move_at 2 0; Move_at 2 1; Move_at 2 2] ∧
  _run_algorithm 10 board_won "minimax" 6 (mkStats 0 0 0 10) =
    Ok ((None, Fin (-100), "Classic minimax algorithm"), mkStats 1 0 0 10) ∧
  get_best_move 10 env_below board_won "minimax" "medium" None
    (mkStats 0 0 0 0) =
    Ok ((Move_at 1 2,
         AlgorithmAnalysis.mk 1 0 0 15 "Fallback to first available move"
           (Fin 0)), mkStats 1 0 0 10) ∧
  get_best_move 10 env_below board_open "alpha_beta" "hard" (Some 0)
    (mkStats 0 0 0 0) =
    Ok ((Move_at 0 2,
         AlgorithmAnalysis.mk 1 0 0 15 "Fallback to first available move"
           (Fin 0)), mkStats 1 0 0 10).
Proof. split_and!; by vm_compute. Qed.

(** ** The easy difficulty *)

Lemma get_best_move_easy_random fuel env board algorithm max_depth st :
  is3x3 board → (10 ≤ fuel)%nat → (2 ≤ length (empty_cells board))%nat →
  depth_prints algorithm (_get_search_depth "easy" max_depth) →
  random_below_threshold env = true →
  ∃ mv v reason st1 random_move,
    _run_algorithm fuel board algorithm (_get_search_depth "easy" max_depth)
      (mkStats 0 0 0 (time_at_reset env)) = Ok ((mv, Fin v, reason), st1) ∧
    (mv = None ↔ _should_stop_search board 0
                   (_get_search_depth "easy" max_depth) = Ok true) ∧
    random_choice env (empty_cells board) = Ok random_move ∧
    get_best_move fuel env board algorithm "easy" max_depth st =
      Ok ((random_move,
           AlgorithmAnalysis.mk (nodes_explored st1) (pruned_branches st1)
             (max_depth_reached st1) (time_at_analysis env - start_time st1)
             (if mv is Some _ then reason
              else "Fallback to first available move")
             (if mv is Some _ then Fin v else Fin 0)),
          st1).
Proof.
  intros Hb Hfuel Htwo Hprints Hrand.
  pose proof (get_available_moves_empty_cells board Hb) as Hmoves.
  destruct (empty_cells board) as [|first [|second rest]] eqn:E;
    [cbn in Htwo; lia..|].
  destruct (_run_algorithm_spec fuel board algorithm
              (_get_search_depth "easy" max_depth)
              (mkStats 0 0 0 (time_at_reset env)) Hb Hfuel eq_refl Hprints)
    as (mv & v & reason & st1 & Hrun & Hnone).
  destruct (random_choice_total env (first :: second :: rest))
    as (random_move & Hchoice & _); [done|].
  exists mv, v, reason, st1, random_move.
  split; [done|]. split; [done|]. split; [done|].
  apply (get_best_move_dispatched _ _ _ _ _ _ st _ _ _ _ _ _ _ _ Hmoves Hrun).
  unfold _apply_difficulty_adjustments.
  rewrite Hrand, Hchoice. done.
Qed.

(** C10 (amended).  For every call of [get_best_move] on a 3x3 board with
    at least two empty cells in which the easy-difficulty draw falls below
    the threshold (and the rationale of the dispatched algorithm can be
    written), the move returned is the randomly chosen one.  The
    evaluation score of the returned analysis is the score that the
    dispatched search computed for its own move when the search returned a
    move; when it returned none, which happens exactly when a mark already
    occupies a complete line or the search depth is at most 0, it is the
    score 0 of the fallback and not the score of the search. *)
Theorem random_substitution_keeps_search_score
    fuel env board algorithm max_depth st :
  is3x3 board → (10 ≤ fuel)%nat → (2 ≤ length (empty_cells board))%nat →
  depth_prints algorithm (_get_search_depth "easy" max_depth) →
  random_below_threshold env = true →
  ∃ mv v reason st1 random_move analysis st',
    _run_algorithm fuel board algorithm (_get_search_depth "easy" max_depth)
      (mkStats 0 0 0 (time_at_reset env)) = Ok ((mv, Fin v, reason), st1) ∧
    (mv = None ↔
     has_line board X ∨ has_line board O ∨
     _get_search_depth "easy" max_depth ≤ 0) ∧
    random_choice env (empty_cells board) = Ok random_move ∧
    get_best_move fuel env board algorithm "easy" max_depth st =
      Ok ((random_move, analysis), st') ∧
    AlgorithmAnalysis.evaluation_score analysis =
      (if mv is Some _ then Fin v else Fin 0).
Proof.
  intros Hb Hfuel Htwo Hprints Hrand.
  destruct (get_best_move_easy_random fuel env board algorithm max_depth st
              Hb Hfuel Htwo Hprints Hrand)
    as (mv & v & reason & st1 & random_move & Hrun & Hnone & Hchoice & Hbest).
  eexists mv, v, reason, st1, random_move, _, _.
  split; [done|]. split; [|done].
  rewrite Hnone. apply stop_at_root; [done|].
  intros E. rewrite E in Htwo. cbn in Htwo. lia.
Qed.

(** The claim as first stated fails when the search returns no move: on a
    board that "X" has already won, with four empty cells, the search
    computes the score -100, the random move (2, 0) is returned instead of
    the fallback move (1, 2), and the analysis reports the score 0 of the
    fallback. *)
Lemma random_substitution_after_fallback :
  random_below_threshold (mkEnv 10 25 0 1) = true ∧
  _run_algorithm 10 board_won "minimax" 3 (mkStats 0 0 0 10) =
    Ok ((None, Fin (-100), "Classic minimax algorithm"), mkStats 1 0 0 10) ∧
  get_best_move 10 (mkEnv 10 25 0 1) board_won "minimax" "easy" None
    (mkStats 0 0 0 0) =
    Ok ((Move_at 2 0,
         AlgorithmAnalysis.mk 1 0 0 15 "Fallback to first available move"
           (Fin 0)), mkStats 1 0 0 10) ∧
  Fin 0 ≠ Fin (-100).
Proof. split_and!; by vm_compute. Qed.

(** C6.  On the board X X _ / O _ _ / _ _ _ with difficulty "easy", a draw
    of [random.random()] equal to 0 and a choice of index 4, the search
    computes move (0, 2) and [get_best_move] returns the randomly chosen
    move (2, 1); the rationale of the returned analysis is still the one of
    the search, not the note about the random move. *)
Theorem easy_random_move_keeps_rationale :
  random_below_threshold env_below = true ∧
  _run_algorithm 10 board_open "minimax" 3 (mkStats 0 0 0 10) =
    Ok ((Some (Move_at 0 2), Fin (-1), "Classic minimax algorithm"),
        mkStats 137 0 3 10) ∧
  get_best_move 10 env_below board_open "minimax" "easy" None
    (mkStats 0 0 0 0) =
    Ok ((Move_at 2 1,
         AlgorithmAnalysis.mk 137 0 3 15 "Classic minimax algorithm"
           (Fin (-1))), mkStats 137 0 3 10) ∧
  "Classic minimax algorithm" ≠ "Random move for easy difficulty".
Proof. split_and!; by vm_compute. Qed.

(** ** The theorems at concrete inputs *)

Lemma get_available_moves_spec_witness :
  ∃ moves,
    get_available_moves board_open = Ok moves ∧
    (∀ r c, Move_at r c ∈ moves ↔ cell board_open r c = Ok EMPTY) ∧
    (∀ m, m ∈ moves →
          m = Move_at (row m) (col m) ∧ (row m < 3 ∧ col m < 3)%nat) ∧
    NoDup moves ∧
    StronglySorted scan_lt moves.
Proof.
  apply (get_available_moves_spec board_open).
  split; [reflexivity|repeat constructor].
Defined.

Lemma make_move_spec_witness :
  ∃ new_ref h' new_board,
    Heap.make_move store_open 3%nat (Move_at 0 2) O = Ok (new_ref, h') ∧
    Heap.read_board h' new_ref = Some new_board ∧
    make_move board_open (Move_at 0 2) O = Ok new_board ∧
    (∀ r c, cell new_board r c =
            if decide (r = row (Move_at 0 2) ∧ c = col (Move_at 0 2))
            then Ok O else cell board_open r c) ∧
    (∀ l, (l < length store_open)%nat → h' !! l = store_open !! l) ∧
    Heap.read_board h' 3%nat = Some board_open.
Proof.
  apply (make_move_spec store_open 3%nat board_open (Move_at 0 2) O).
  - reflexivity.
  - split; [reflexivity|repeat constructor].
  - simpl; lia.
  - simpl; lia.
Defined.

Lemma alpha_beta_same_score_as_minimax_witness :
  ∃ mv sc st1 st1',
    minimax 10 board_open 0 true 9 (mkStats 0 0 0 0) = Ok ((mv, Fin sc), st1) ∧
    alpha_beta 10 board_open 0 NegInf PosInf true 9 (mkStats 0 0 0 0) =
      Ok ((mv, Fin sc), st1').
Proof.
  apply (alpha_beta_same_score_as_minimax 10 board_open 0 true 9).
  - split; [reflexivity|repeat constructor].
  - lia.
Defined.

Lemma alpha_beta_explores_no_more_nodes_witness :
  ∃ res st1 res' st1',
    minimax 10 board_open 0 true 9 (mkStats 0 0 0 0) = Ok (res, st1) ∧
    alpha_beta 10 board_open 0 NegInf PosInf true 9 (mkStats 0 0 0 0) =
      Ok (res', st1') ∧
    nodes_explored st1' - nodes_explored (mkStats 0 0 0 0) ≤
      nodes_explored st1 - nodes_explored (mkStats 0 0 0 0).
Proof.
  apply (alpha_beta_explores_no_more_nodes 10 board_open 0 true 9).
  - split; [reflexivity|repeat constructor].
  - lia.
Defined.

Lemma evaluate_position_terminal_witness :
  evaluate_position board_O_wins 2 = Ok (100 - 2) ∧
  evaluate_position board_won 3 = Ok (-100 + 3) ∧
  evaluate_position board_drawn 9 = Ok 0.
Proof.
  split; [|split].
  - apply (evaluate_position_terminal board_O_wins 2).
    + split; [reflexivity|repeat constructor].
    + apply (bool_decide_unpack _). vm_compute. exact I.
    + apply (bool_decide_unpack _). vm_compute. exact I.
  - apply (evaluate_position_terminal board_won 3).
    + split; [reflexivity|repeat constructor].
    + apply (bool_decide_unpack _). vm_compute. exact I.
    + apply (bool_decide_unpack _). vm_compute. exact I.
  - apply (evaluate_position_terminal board_drawn 9).
    + split; [reflexivity|repeat constructor].
    + intros r c. apply board_full_true. reflexivity.
    + apply (bool_decide_unpack _). vm_compute. exact I.
    + apply (bool_decide_unpack _). vm_compute. exact I.
Defined.


Lemma get_best_move_single_move_witness :
  get_best_move 10 env_below board_last_cell "minimax" "medium" None
    (mkStats 5 5 5 5) =
    Ok ((Move_at 2 2,
         AlgorithmAnalysis.mk 0 0 0
           (time_at_analysis env_below - time_at_reset env_below)
           "Only one move available" (Fin 0)),
        mkStats 0 0 0 (time_at_reset env_below)).
Proof.
  apply (get_best_move_single_move 10 env_below board_last_cell "minimax"
           "medium" None (mkStats 5 5 5 5) 2 2).
  - split; [reflexivity|repeat constructor].
  - reflexivity.
  - intros r' c'.
    destruct r' as [|[|[|r']]]; destruct c' as [|[|[|c']]]; simpl; intros H;
      first [discriminate H | split; reflexivity].
Defined.

Lemma dispatched_search_move_witness :
  ∃ mv v reason st1 final analysis st',
    _run_algorithm 10 board_won "depth_limited"
      (_get_search_depth "medium" None)
      (mkStats 0 0 0 (time_at_reset env_below)) =
      Ok ((mv, Fin v, reason), st1) ∧
    (mv = None ↔
     has_line board_won X ∨ has_line board_won O ∨
     _get_search_depth "medium" None ≤ 0) ∧
    get_best_move 10 env_below board_won "depth_limited" "medium" None
      (mkStats 0 0 0 0) = Ok ((final, analysis), st') ∧
    (mv = None →
     _apply_difficulty_adjustments env_below (Move_at 1 2)
       [Move_at 1 2; Move_at 2 0; Move_at 2 1; Move_at 2 2]
       "medium" "Fallback to first available move" = Ok final ∧
     ("medium" ≠ "easy" ∨ random_below_threshold env_below = false →
      final = Move_at 1 2) ∧
     AlgorithmAnalysis.evaluation_score analysis = Fin 0 ∧
     AlgorithmAnalysis.move_reasoning analysis =
       "Fallback to first available move") ∧
    (∀ m, mv = Some m →
     _apply_difficulty_adjustments env_below m
       [Move_at 1 2; Move_at 2 0; Move_at 2 1; Move_at 2 2]
       "medium" reason = Ok final ∧
     AlgorithmAnalysis.evaluation_score analysis = Fin v ∧
     AlgorithmAnalysis.move_reasoning analysis = reason).
Proof.
  apply (dispatched_search_move 10 env_below board_won "depth_limited"
           "medium" None (mkStats 0 0 0 0)).
  - split; [reflexivity|repeat constructor].
  - lia.
  - reflexivity.
  - intros _. vm_compute. reflexivity.
Defined.

Lemma random_substitution_keeps_search_score_witness :
  ∃ mv v reason st1 random_move analysis st',
    _run_algorithm 10 board_open "depth_limited"
      (_get_search_depth "easy" None)
      (mkStats 0 0 0 (time_at_reset env_below)) =
      Ok ((mv, Fin v, reason), st1) ∧
    (mv = None ↔
     has_line board_open X ∨ has_line board_open O ∨
     _get_search_depth "easy" None ≤ 0) ∧
    random_choice env_below (empty_cells board_open) = Ok random_move ∧
    get_best_move 10 env_below board_open "depth_limited" "easy" None
      (mkStats 0 0 0 0) = Ok ((random_move, analysis), st') ∧
    AlgorithmAnalysis.evaluation_score analysis =
      (if mv is Some _ then Fin v else Fin 0).
Proof.
  apply (random_substitution_keeps_search_score 10 env_below board_open
           "depth_limited" None (mkStats 0 0 0 0)).
  - split; [reflexivity|repeat constructor].
  - lia.
  - vm_compute. lia.
  - intros _. vm_compute. reflexivity.
  - reflexivity.
Defined.

(** * Further properties of the board rules engine *)

(** ** is_valid_board *)

Lemma cell_of_string_value p : cell_of_string (Player_value p) = Some p.
Proof. by destruct p. Qed.

Lemma cell_of_string_Some s p :
  cell_of_string s = Some p → s = Player_value p.
Proof.
  unfold cell_of_string. repeat case_bool_decide; intros; by simplify_eq.
Qed.

Lemma cell_allowed s :
  bool_decide (s ∈ ["X"; "O"; ""]) = true ↔ is_Some (cell_of_string s).
Proof.
  rewrite bool_decide_eq_true, !elem_of_cons, elem_of_nil.
  unfold cell_of_string. split.
  - intros [->|[->|[->|[]]]]; by eexists.
  - intros [p Hp]. repeat case_bool_decide; simplify_eq; auto.
Qed.

Lemma parse_render board : parse_board (render_board board) = Some board.
Proof.
  unfold parse_board, render_board. apply mapM_Some.
  apply Forall2_fmap_l, Forall_Forall2_diag, Forall_forall. intros rw _.
  apply mapM_Some, Forall2_fmap_l, Forall_Forall2_diag, Forall_forall.
  intros p _. apply cell_of_string_value.
Qed.

Lemma parse_Some raw board :
  parse_board raw = Some board → raw = render_board board.
Proof.
  unfold parse_board, render_board. intros Hp%mapM_Some.
  induction Hp as [|rs rw raw board Hrow _ IH]; [done|].
  cbn. f_equal; [|done]. clear IH.
  apply mapM_Some in Hrow.
  induction Hrow as [|s p rs rw Hs _ IH]; [done|].
  cbn. f_equal; [|done]. by apply cell_of_string_Some.
Qed.

Lemma row_allowed_parse (rs : list string) :
  forallb (λ c, bool_decide (c ∈ ["X"; "O"; ""])) rs = true ↔
  is_Some (mapM cell_of_string rs).
Proof.
  induction rs as [|s rs IH]; cbn.
  { split; [by eexists|done]. }
  rewrite andb_true_iff, cell_allowed, IH. split.
  - intros [[p Hp] [rw Hrw]]. exists (p :: rw). by rewrite Hp, Hrw.
  - intros [rw Hrw].
    destruct (cell_of_string s) as [p|]; [|done]. cbn in Hrw.
    destruct (mapM cell_of_string rs) as [rw'|]; [|done]. by split; eexists.
Qed.

Lemma rows_valid_parse raw :
  rows_valid raw = true ↔
  ∃ board, parse_board raw = Some board ∧
           Forall (λ rw, length rw = 3%nat) board.
Proof.
  unfold parse_board. induction raw as [|rs raw IH]; cbn.
  { split; [|done]. intros _. by exists []. }
  destruct (bool_decide (length rs = 3%nat)) eqn:Hlen; cbn.
  - apply bool_decide_eq_true in Hlen.
    destruct (forallb _ rs) eqn:Hrow; cbn.
    + apply row_allowed_parse in Hrow as [rw Hrw]. rewrite Hrw. cbn.
      rewrite IH. split.
      * intros (board & -> & Hall). exists (rw :: board). split; [done|].
        constructor; [|done].
        apply mapM_Some, Forall2_length in Hrw. lia.
      * intros (board & Hb & Hall).
        destruct (mapM (mapM cell_of_string) raw) as [b'|]; [|done].
        cbn in Hb. assert (board = rw :: b') as -> by (by injection Hb).
        exists b'. split; [done|].
        by apply Forall_cons in Hall as [_ ?].
    + split; [done|]. intros (board & Hb & _).
      destruct (mapM cell_of_string rs) as [rw|] eqn:Hrw; [|done].
      assert (forallb (λ c, bool_decide (c ∈ ["X"; "O"; ""])) rs = true)
        by (apply row_allowed_parse; by eexists).
      congruence.
  - apply bool_decide_eq_false in Hlen.
    split; [done|]. intros (board & Hb & Hall).
    destruct (mapM cell_of_string rs) as [rw|] eqn:Hrw; [|done]. cbn in Hb.
    destruct (mapM (mapM cell_of_string) raw) as [b'|]; [|done].
    cbn in Hb. assert (board = rw :: b') as -> by (by injection Hb).
    apply Forall_cons in Hall as [Hl3 _].
    apply mapM_Some, Forall2_length in Hrw. lia.
Qed.

Lemma count_row_render (p : Player) (rw : list Player) :
  length (filter (λ c, c = Player_value p) (Player_value <$> rw)) =
  length (filter (λ c, c = p) rw).
Proof.
  induction rw as [|q rw IH]; [done|].
  rewrite fmap_cons, !filter_cons.
  destruct (decide (q = p)) as [->|Hne].
  - rewrite decide_True by done. cbn. by rewrite IH.
  - rewrite decide_False; [done|]. by destruct q, p.
Qed.

Lemma count_mark_render (p : Player) (board : Board) :
  count_mark (Player_value p) (render_board board) = count_mark p board.
Proof.
  unfold count_mark, render_board.
  induction board as [|rw board IH]; [done|].
  cbn. rewrite IH. f_equal. apply count_row_render.
Qed.

Lemma is_valid_board_true (raw : RawBoard) :
  is_valid_board raw = true →
  ∃ board,
    raw = render_board board ∧ is3x3 board ∧
    (count_mark O board ≤ count_mark X board ≤ count_mark O board + 1)%nat.
Proof.
  unfold is_valid_board.
  destruct (bool_decide (length raw = 3%nat)) eqn:Hlen; [|done]. cbn.
  apply bool_decide_eq_true in Hlen.
  destruct (rows_valid raw) eqn:Hrows; [|done]. cbn.
  apply rows_valid_parse in Hrows as (board & Hparse & Hall).
  apply parse_Some in Hparse. subst raw.
  rewrite (count_mark_render X), (count_mark_render O).
  destruct (_ || _) eqn:Hcounts; [done|]. intros _.
  apply orb_false_iff in Hcounts as [?%Nat.ltb_ge ?%Nat.ltb_ge].
  exists board. split; [done|]. split; [|lia].
  split; [|done]. unfold render_board in Hlen.
  by rewrite length_fmap in Hlen.
Qed.

Lemma is_valid_board_render (board : Board) :
  is3x3 board →
  (count_mark O board ≤ count_mark X board ≤ count_mark O board + 1)%nat →
  is_valid_board (render_board board) = true.
Proof.
  intros [Hlen Hall] Hcounts. unfold is_valid_board.
  assert (length (render_board board) = 3%nat) as ->
    by (unfold render_board; by rewrite length_fmap).
  cbn.
  assert (rows_valid (render_board board) = true) as ->.
  { apply rows_valid_parse. exists board. by rewrite parse_render. }
  cbn. rewrite (count_mark_render X), (count_mark_render O).
  destruct (_ || _) eqn:Hc; [|done].
  apply orb_true_iff in Hc as [?%Nat.ltb_lt|?%Nat.ltb_lt]; lia.
Qed.

(** [is_valid_board] accepts exactly the boards that are the text of a
    3x3 grid over the three marks in which "X" has as many marks as "O" or
    one more. *)
Theorem is_valid_board_spec (raw : RawBoard) :
  is_valid_board raw = true ↔
  ∃ board,
    raw = render_board board ∧ is3x3 board ∧
    (count_mark O board ≤ count_mark X board ≤ count_mark O board + 1)%nat.
Proof.
  split; [apply is_valid_board_true|].
  intros (board & -> & Hb & Hcounts). by apply is_valid_board_render.
Qed.

(** ** is_valid_move *)

(** On a 3x3 board [is_valid_move] returns for all integers, also negative
    ones, and accepts exactly the cells that [get_available_moves] lists. *)
Theorem is_valid_move_available board (r c : Z) :
  is3x3 board →
  ∃ ok moves,
    is_valid_move board r c = Ok ok ∧
    get_available_moves board = Ok moves ∧
    (ok = true ↔
     0 ≤ r ∧ 0 ≤ c ∧ Move_at (Z.to_nat r) (Z.to_nat c) ∈ moves).
Proof.
  intros Hb. exists (bool_decide (0 ≤ r ∧ 0 ≤ c ∧
                       Move_at (Z.to_nat r) (Z.to_nat c) ∈ empty_cells board)),
               (empty_cells board).
  split; [|split; [by apply get_available_moves_empty_cells|]].
  - unfold is_valid_move.
    destruct (negb _) eqn:Hrange.
    + f_equal. symmetry. apply bool_decide_eq_false.
      intros (Hr & Hc & Hin).
      apply empty_cells_inv in Hin as (r' & c' & Heq & Hr' & Hc' & _).
      injection Heq as Hr0 Hc0.
      apply negb_true_iff in Hrange.
      rewrite !andb_false_iff, !Z.leb_gt in Hrange. lia.
    + apply negb_false_iff in Hrange.
      rewrite !andb_true_iff, !Z.leb_le in Hrange.
      destruct (cell_total board (Z.to_nat r) (Z.to_nat c) Hb) as [p Hp];
        [lia..|].
      rewrite Hp. cbn. f_equal. apply bool_decide_ext.
      rewrite (elem_of_empty_cells _ _ _ Hb), Hp.
      split; [intros ->; split_and!; (lia || done)|].
      intros (_ & _ & ?). by simplify_eq.
  - apply bool_decide_eq_true.
Qed.

(** ** make_move and get_available_moves *)

Lemma filter_ext_elem {A} (P Q : A → Prop) `{∀ x, Decision (P x)}
    `{∀ x, Decision (Q x)} (l : list A) :
  (∀ x, x ∈ l → P x ↔ Q x) → filter P l = filter Q l.
Proof.
  induction l as [|x l IH]; intros Hl; [done|].
  rewrite !filter_cons.
  rewrite IH by (intros; apply Hl; by right).
  destruct (decide (P x)) as [HP|HP], (decide (Q x)) as [HQ|HQ]; try done;
    exfalso; apply Hl in HP || apply Hl in HQ; try done; by left.
Qed.

Lemma NoDup_filter_ne_length {A} `{EqDecision A} (l : list A) x :
  NoDup l → x ∈ l → S (length (filter (λ y, y ≠ x) l)) = length l.
Proof.
  induction 1 as [|y l Hy Hnd IH]; [by intros ?%elem_of_nil|].
  rewrite filter_cons. intros [->|Hin]%elem_of_cons.
  - rewrite decide_False by (by intros ?). cbn. f_equal.
    f_equal. clear IH Hnd. induction l as [|z l IH]; [done|].
    rewrite filter_cons, decide_True.
    + cbn. f_equal. apply IH. by intros ?; apply Hy; right.
    + intros ->. apply Hy. by left.
  - rewrite decide_True by (intros ->; done). cbn. f_equal. by apply IH.
Qed.

(** After a mark is placed on an available cell, the available moves are
    the former ones without that cell, in the same order: one fewer. *)
Theorem get_available_moves_after_move board moves m p board' :
  is3x3 board → get_available_moves board = Ok moves → m ∈ moves →
  p ≠ EMPTY → make_move board m p = Ok board' →
  get_available_moves board' = Ok (filter (λ m', m' ≠ m) moves) ∧
  S (length (filter (λ m', m' ≠ m) moves)) = length moves.
Proof.
  intros Hb Hmoves Hm Hp Hmk.
  rewrite (get_available_moves_empty_cells board Hb) in Hmoves.
  injection Hmoves as <-.
  destruct (empty_cells_inv _ _ Hm) as (r & c & -> & Hr & Hc & _).
  destruct (make_move_total board (Move_at r c) p Hb Hr Hc) as (b2 & Hb2 & H3).
  rewrite Hmk in Hb2. injection Hb2 as <-.
  split.
  - rewrite (get_available_moves_empty_cells board' H3). f_equal.
    unfold empty_cells. rewrite list_filter_filter.
    apply filter_ext_elem.
    intros m' (r' & c' & -> & _ & _)%elem_of_positions.
    unfold is_empty_at. cbn.
    rewrite (make_move_cell _ _ _ _ r' c' Hmk). cbn.
    case_decide as Hrc.
    + destruct Hrc as [-> ->]. split; [congruence|]. by intros [? _].
    + split; [intros ?; split; [|done]|by intros [_ ?]].
      intros [= -> ->]. by apply Hrc.
  - apply NoDup_filter_ne_length; [|done].
    apply NoDup_filter, positions_NoDup.
Qed.

(** ** check_winner, is_draw and is_game_over *)

(** The winner that [check_winner] reports on a 3x3 board is "X" or "O",
    never the empty mark, and occupies a complete line; it reports none
    exactly when neither mark occupies a complete line. *)
Theorem check_winner_spec board :
  is3x3 board →
  ∃ w,
    check_winner board = Ok w ∧
    (∀ p, w = Some p → (p = X ∨ p = O) ∧ has_line board p) ∧
    (w = None ↔ ¬ has_line board X ∧ ¬ has_line board O).
Proof.
  intros Hb. destruct (check_winner_lines board Hb) as (w & Hw & Hnone).
  exists w. split; [done|]. split; [|done].
  intros p ->. destruct (check_winner_Some board p Hw) as [Hne Hl].
  split; [|done]. destruct p; auto. done.
Qed.

(** On a 3x3 board the game is over exactly when there is a winner or no
    move is available, and it is a draw exactly when there is no winner
    and no move is available; so a board that is not over always has a
    move, and a draw is never reported together with a winner. *)
Theorem is_game_over_moves board :
  is3x3 board →
  ∃ w moves,
    check_winner board = Ok w ∧
    get_available_moves board = Ok moves ∧
    is_draw board = Ok (bool_decide (w = None ∧ moves = [])) ∧
    is_game_over board = Ok (bool_decide (w ≠ None ∨ moves = [])).
Proof.
  intros Hb. destruct (is_game_over_spec board Hb) as (w & Hw & Hd & Hg).
  exists w, (empty_cells board). split; [done|].
  split; [by apply get_available_moves_empty_cells|].
  assert (board_full board = bool_decide (empty_cells board = [])) as Hfull.
  { destruct (board_full board) eqn:Hbf.
    - symmetry. apply bool_decide_eq_true, empty_cells_nil; [done|].
      intros r c. by apply board_full_true.
    - symmetry. apply bool_decide_eq_false. intros Hnil.
      destruct (board_full_false board Hbf) as (r & c & Hrc).
      apply (elem_of_empty_cells _ _ _ Hb) in Hrc.
      rewrite Hnil in Hrc. by apply elem_of_nil in Hrc. }
  rewrite Hd, Hg, Hfull. split; f_equal.
  - destruct w; repeat case_bool_decide; try done; intuition congruence.
  - destruct w; repeat case_bool_decide; try done; intuition congruence.
Qed.

(** ** get_game_state *)

Lemma count_row_total (rw : list Player) :
  (length (filter (λ c, c = X) rw) + length (filter (λ c, c = O) rw) +
   length (filter (λ c, c = EMPTY) rw) = length rw)%nat.
Proof.
  induction rw as [|p rw IH]; [done|].
  rewrite !filter_cons.
  destruct p; repeat case_decide; simplify_eq; cbn; lia.
Qed.

Lemma count_mark_total (board : Board) :
  (count_mark X board + count_mark O board + count_mark EMPTY board =
   sum_list (length <$> board))%nat.
Proof.
  unfold count_mark. induction board as [|rw board IH]; [done|].
  cbn. pose proof (count_row_total rw). lia.
Qed.

Lemma empty_row_count (board : Board) r a b c :
  board !! r = Some [a; b; c] →
  length (filter (is_empty_at board) [Move_at r 0; Move_at r 1; Move_at r 2]) =
  length (filter (λ p, p = EMPTY) [a; b; c]).
Proof.
  intros Hr.
  assert (∀ k p, [a; b; c] !! k = Some p →
                 is_empty_at board (Move_at r k) ↔ p = EMPTY) as Hiff.
  { intros k p Hk. unfold is_empty_at, cell. cbn. rewrite Hr, Hk.
    split; congruence. }
  pose proof (Hiff 0%nat a eq_refl). pose proof (Hiff 1%nat b eq_refl).
  pose proof (Hiff 2%nat c eq_refl).
  rewrite !filter_cons, !filter_nil.
  repeat case_decide; cbn; try done; exfalso; tauto.
Qed.

Lemma empty_cells_count board :
  is3x3 board → length (empty_cells board) = count_mark EMPTY board.
Proof.
  intros (a & b & c & d & e & f & g & h & i & ->)%is3x3_inv.
  unfold empty_cells.
  change positions with
    ([Move_at 0 0; Move_at 0 1; Move_at 0 2] ++
     [Move_at 1 0; Move_at 1 1; Move_at 1 2] ++
     [Move_at 2 0; Move_at 2 1; Move_at 2 2]).
  rewrite !filter_app, !length_app.
  rewrite (empty_row_count _ 0 a b c), (empty_row_count _ 1 d e f),
    (empty_row_count _ 2 g h i) by done.
  unfold count_mark. cbn [fmap list_fmap sum_list sum_list_with id].
  unfold id. lia.
Qed.

Lemma count_row_insert (q p x : Player) (rw : list Player) c :
  rw !! c = Some x →
  (length (filter (λ y, y = q) (<[c := p]> rw)) +
     (if decide (x = q) then 1 else 0) =
   length (filter (λ y, y = q) rw) + (if decide (p = q) then 1 else 0))%nat.
Proof.
  revert c. induction rw as [|y rw IH]; intros c Hc; [done|].
  destruct c as [|c]; cbn in Hc.
  - simplify_eq. change (<[0%nat := p]> (x :: rw)) with (p :: rw).
    rewrite !filter_cons.
    repeat case_decide; cbn; try done; lia.
  - change (<[S c := p]> (y :: rw)) with (y :: <[c := p]> rw).
    rewrite !filter_cons. specialize (IH c Hc).
    repeat case_decide; cbn; try done; lia.
Qed.

Lemma count_mark_insert (q : Player) (board : Board) r rw rw' :
  board !! r = Some rw →
  (count_mark q (<[r := rw']> board) + length (filter (λ y, y = q) rw) =
   count_mark q board + length (filter (λ y, y = q) rw'))%nat.
Proof.
  unfold count_mark. revert r.
  induction board as [|rw0 board IH]; intros r Hr; [done|].
  destruct r as [|r]; cbn in Hr |- *.
  - simplify_eq. unfold id. lia.
  - specialize (IH r Hr). unfold id in *.
    rewrite <- !Nat.add_assoc. f_equal. exact IH.
Qed.

(** Placing mark [p] on an empty cell adds one to the count of [p] and
    leaves the count of the other mark as it was. *)
Lemma count_mark_after_move (q p : Player) board m board' :
  is3x3 board → is_empty_at board m → q ≠ EMPTY →
  make_move board m p = Ok board' →
  count_mark q board' =
    (count_mark q board + (if decide (p = q) then 1 else 0))%nat.
Proof.
  intros Hb He Hq Hmk. unfold is_empty_at in He.
  destruct (cell_Ok_lt _ _ _ _ Hb He) as [Hr Hc].
  destruct (make_move_pure board m p Hb Hr Hc) as (rw & Hrw & Hlen & Hpure).
  rewrite Hmk in Hpure. injection Hpure as ->.
  unfold cell in He. rewrite Hrw in He.
  destruct (rw !! col m) as [x|] eqn:Hx; [|done]. injection He as ->.
  pose proof (count_mark_insert q board (row m) rw (<[col m := p]> rw) Hrw).
  pose proof (count_row_insert q p EMPTY rw (col m) Hx) as Hrow.
  rewrite (decide_False (P := EMPTY = q)) in Hrow by done. lia.
Qed.

Lemma get_game_state_3x3 board :
  is3x3 board →
  ∃ winner,
    winner_or_draw board = Ok winner ∧
    get_game_state board =
      Ok (GameState.mk board
            (if (count_mark O board <? count_mark X board)%nat then O else X)
            winner (count_mark X board + count_mark O board)).
Proof.
  intros Hb. destruct (is_game_over_spec board Hb) as (w & Hw & Hd & _).
  assert (∃ winner, winner_or_draw board = Ok winner) as [winner Hwin].
  { unfold winner_or_draw. rewrite Hw.
    destruct w; cbn -[is_draw]; [by eauto|].
    rewrite Hd. cbn. eauto. }
  exists winner. split; [done|].
  unfold get_game_state. rewrite Hwin. cbn.
  destruct Hb as [Hlen Hrows]. rewrite Hlen. cbn.
  assert (forallb (λ rw, bool_decide (length rw = 3%nat)) board = true) as ->.
  { apply Is_true_true, forallb_True. eapply Forall_impl; [done|].
    intros rw ?. by apply bool_decide_pack. }
  done.
Qed.

(** On a 3x3 board [get_game_state] returns a state that carries the
    board unchanged; its move count and the number of available moves add
    up to nine, and its winner is none exactly when the game is not
    over. *)
Theorem get_game_state_spec board :
  is3x3 board →
  ∃ gs moves,
    get_game_state board = Ok gs ∧
    get_available_moves board = Ok moves ∧
    GameState.board gs = board ∧
    (GameState.move_count gs + length moves = 9)%nat ∧
    (GameState.winner gs = None ↔ is_game_over board = Ok false).
Proof.
  intros Hb. destruct (get_game_state_3x3 board Hb) as (winner & Hwin & Hgs).
  eexists _, (empty_cells board). split; [done|].
  split; [by apply get_available_moves_empty_cells|].
  cbn [GameState.board GameState.move_count GameState.winner].
  split; [done|]. split.
  - rewrite (empty_cells_count board Hb).
    pose proof (count_mark_total board) as Htot.
    assert (sum_list (length <$> board) = 9%nat) as H9.
    { by destruct (is3x3_inv board Hb)
        as (a & b & c & d & e & f & g & h & i & ->). }
    rewrite H9 in Htot. lia.
  - destruct (is_game_over_spec board Hb) as (w & Hw & Hd & Hg).
    unfold winner_or_draw in Hwin. rewrite Hw in Hwin.
    rewrite Hg. destruct w as [p|]; cbn -[is_draw] in *.
    + injection Hwin as <-. split; intros; done.
    + rewrite Hd in Hwin. cbn in Hwin. injection Hwin as <-.
      destruct (board_full board); split; intros; done.
Qed.

(** On a valid board, when the player whose turn [get_game_state] reports
    plays an available cell, the board is valid again, the turn passes to
    the other player and the move count grows by one. *)
Theorem turn_passes board gs moves m board' :
  is_valid_board (render_board board) = true →
  get_game_state board = Ok gs →
  get_available_moves board = Ok moves → m ∈ moves →
  make_move board m (GameState.current_player gs) = Ok board' →
  is_valid_board (render_board board') = true ∧
  ∃ gs',
    get_game_state board' = Ok gs' ∧
    GameState.current_player gs' ≠ GameState.current_player gs ∧
    GameState.current_player gs' ≠ EMPTY ∧
    GameState.move_count gs' = S (GameState.move_count gs).
Proof.
  intros Hvalid Hgs Hmoves Hm Hmk.
  apply is_valid_board_true in Hvalid as (b0 & Hrender & Hb & Hcounts).
  assert (b0 = board) as ->.
  { pose proof (parse_render board) as H1. rewrite Hrender in H1.
    rewrite parse_render in H1. by injection H1. }
  clear Hrender.
  rewrite (get_available_moves_empty_cells board Hb) in Hmoves.
  injection Hmoves as <-.
  destruct (get_game_state_3x3 board Hb) as (winner & _ & Hgs0).
  rewrite Hgs in Hgs0. injection Hgs0 as ->.
  cbn [GameState.current_player GameState.move_count] in Hmk |- *.
  assert (is_empty_at board m) as He.
  { unfold empty_cells in Hm. by apply list_elem_of_filter in Hm as [? _]. }
  set (p := if (count_mark O board <? count_mark X board)%nat then O else X)
    in *.
  assert (p = O ∧ (count_mark O board < count_mark X board)%nat ∨
          p = X ∧ (count_mark X board ≤ count_mark O board)%nat) as Hturn.
  { subst p.
    destruct (Nat.ltb_spec (count_mark O board) (count_mark X board)); auto. }
  clearbody p.
  assert (p ≠ EMPTY) as Hp by (by destruct Hturn as [[-> _]|[-> _]]).
  pose proof (count_mark_after_move X p board m board' Hb He ltac:(done) Hmk)
    as HX.
  pose proof (count_mark_after_move O p board m board' Hb He ltac:(done) Hmk)
    as HO.
  assert (is3x3 board') as Hb'.
  { destruct (cell_Ok_lt _ _ _ _ Hb He) as [Hr Hc].
    destruct (make_move_total board m p Hb Hr Hc) as (b2 & Hb2 & H3).
    rewrite Hmk in Hb2. by injection Hb2 as <-. }
  destruct (get_game_state_3x3 board' Hb') as (winner' & _ & Hgs').
  destruct Hturn as [[-> Hlt]|[-> Hle]]; repeat case_decide; try done.
  - split.
    + apply is_valid_board_render; [done|lia].
    + eexists. split; [done|].
      cbn [GameState.current_player GameState.move_count].
      destruct (Nat.ltb_spec (count_mark O board') (count_mark X board'));
        [lia|]. split_and!; (done || lia).
  - split.
    + apply is_valid_board_render; [done|lia].
    + eexists. split; [done|].
      cbn [GameState.current_player GameState.move_count].
      destruct (Nat.ltb_spec (count_mark O board') (count_mark X board'));
        [|lia]. split_and!; (done || lia).
Qed.

(** * Further properties of the search *)

(** ** The fuel beyond the need does not matter *)

Lemma maximize_loop_ext (rec1 rec2 : minimax_t) board depth max_depth moves :
  (∀ m board' st, m ∈ moves → make_move board m AI_PLAYER = Ok board' →
     rec1 board' (depth + 1) false max_depth st =
     rec2 board' (depth + 1) false max_depth st) →
  ∀ bm bs st,
    maximize_loop rec1 board depth max_depth moves bm bs st =
    maximize_loop rec2 board depth max_depth moves bm bs st.
Proof.
  induction moves as [|m rest IH]; intros Hrec bm bs st; [done|].
  cbn. unfold mbind, M_bind, lift.
  destruct (make_move board m AI_PLAYER) as [b'|] eqn:Hb'; [|done].
  rewrite (Hrec m b' st) by (done || by left).
  destruct (rec2 b' (depth + 1) false max_depth st) as [[res st']|]; [|done].
  destruct (score_lt bs res.2); apply IH; intros m0 ????;
    (apply (Hrec m0); [by right|done]).
Qed.

Lemma minimize_loop_ext (rec1 rec2 : minimax_t) board depth max_depth moves :
  (∀ m board' st, m ∈ moves → make_move board m HUMAN_PLAYER = Ok board' →
     rec1 board' (depth + 1) true max_depth st =
     rec2 board' (depth + 1) true max_depth st) →
  ∀ bm bs st,
    minimize_loop rec1 board depth max_depth moves bm bs st =
    minimize_loop rec2 board depth max_depth moves bm bs st.
Proof.
  induction moves as [|m rest IH]; intros Hrec bm bs st; [done|].
  cbn. unfold mbind, M_bind, lift.
  destruct (make_move board m HUMAN_PLAYER) as [b'|] eqn:Hb'; [|done].
  rewrite (Hrec m b' st) by (done || by left).
  destruct (rec2 b' (depth + 1) true max_depth st) as [[res st']|]; [|done].
  destruct (score_lt res.2 bs); apply IH; intros m0 ????;
    (apply (Hrec m0); [by right|done]).
Qed.

Lemma child_board board m p board' :
  is3x3 board → m ∈ empty_cells board → p ≠ EMPTY →
  make_move board m p = Ok board' →
  is3x3 board' ∧ (length (empty_cells board') < length (empty_cells board))%nat.
Proof.
  intros Hb Hm Hp Hmk. split; [|by eapply make_move_fewer_empty].
  destruct (empty_cells_inv _ _ Hm) as (r & c & -> & Hr & Hc & _).
  destruct (make_move_total board (Move_at r c) p Hb Hr Hc) as (b2 & Hb2 & H3).
  rewrite Hmk in Hb2. by injection Hb2 as <-.
Qed.

Lemma minimax_fuel f1 f2 board depth is_ai_turn max_depth st :
  is3x3 board →
  (length (empty_cells board) < f1)%nat →
  (length (empty_cells board) < f2)%nat →
  minimax f1 board depth is_ai_turn max_depth st =
  minimax f2 board depth is_ai_turn max_depth st.
Proof.
  revert f2 board depth is_ai_turn st.
  induction f1 as [|f1 IH]; intros f2 board depth is_ai_turn st Hb H1 H2;
    [lia|].
  destruct f2 as [|f2]; [lia|].
  cbn [minimax]. unfold mbind, M_bind, lift, count_node.
  destruct (_should_stop_search board depth max_depth) as [[|]|]; [done| |done].
  rewrite (get_available_moves_empty_cells board Hb).
  destruct is_ai_turn.
  - apply maximize_loop_ext. intros m b' st' Hm Hmk.
    destruct (child_board board m AI_PLAYER b' Hb Hm ltac:(done) Hmk).
    apply IH; (done || lia).
  - apply minimize_loop_ext. intros m b' st' Hm Hmk.
    destruct (child_board board m HUMAN_PLAYER b' Hb Hm ltac:(done) Hmk).
    apply IH; (done || lia).
Qed.

Lemma returns_fuel f1 f2 board depth is_ai_turn max_depth res n :
  is3x3 board →
  (length (empty_cells board) < f1)%nat →
  (length (empty_cells board) < f2)%nat →
  returns (minimax f1 board depth is_ai_turn max_depth) res n →
  returns (minimax f2 board depth is_ai_turn max_depth) res n.
Proof.
  intros Hb H1 H2 Hret st. rewrite <- (minimax_fuel f1 f2) by done. apply Hret.
Qed.

Lemma successor_score_det fuel board depth max_depth p side m v v' :
  successor_score fuel board depth max_depth p side m v →
  successor_score fuel board depth max_depth p side m v' → v = v'.
Proof.
  intros (b1 & mv1 & n1 & Hb1 & Hr1) (b2 & mv2 & n2 & Hb2 & Hr2).
  rewrite Hb1 in Hb2. injection Hb2 as <-.
  destruct (returns_det _ _ _ _ _ Hr1 Hr2) as [Heq _]. by injection Heq.
Qed.

(** ** Which move the loops keep *)

Section best.
Context (fuel : nat) (board : Board) (depth max_depth : Z).
Hypothesis Hboard : is3x3 board.
Hypothesis children : ∀ m p board' side,
  p ≠ EMPTY →
  m ∈ empty_cells board → make_move board m p = Ok board' →
  search_ok fuel board' (depth + 1) side max_depth.

Lemma successor_score_exists m p side :
  p ≠ EMPTY → m ∈ empty_cells board →
  ∃ v, successor_score fuel board depth max_depth p side m v.
Proof.
  intros Hp Hm.
  destruct (move_applies board Hboard m p Hm) as [b' Hb'].
  destruct (children m p b' side Hp Hm Hb')
    as ([mvc sc] & nc & Hret & _ & [v Hv] & _).
  cbn in Hv. subst sc. exists v, b', mvc, nc. done.
Qed.

Lemma maximize_loop_best moves bm bs :
  Forall (λ m, m ∈ empty_cells board) moves →
  fresh_or_settled NegInf (bm, bs) →
  ∃ res n,
    returns (maximize_loop (minimax fuel) board depth max_depth moves bm bs)
      res n ∧
    score_le bs res.2 ∧
    (∀ m, m ∈ moves →
       ∃ v, successor_score fuel board depth max_depth AI_PLAYER false m v ∧
            score_le (Fin v) res.2) ∧
    (res = (bm, bs) ∨
     ∃ pre m post v,
       moves = pre ++ m :: post ∧ res = (Some m, Fin v) ∧
       successor_score fuel board depth max_depth AI_PLAYER false m v ∧
       score_lt bs (Fin v) ∧
       ∀ m', m' ∈ pre →
         ∃ v', successor_score fuel board depth max_depth AI_PLAYER false
                 m' v' ∧ v' < v).
Proof.
  intros Hmoves. revert bm bs.
  induction Hmoves as [|m rest Hm _ IH]; intros bm bs Hacc.
  - exists (bm, bs), 0. split; [apply returns_ret|].
    split; [apply score_le_refl|]. split; [by intros ? ?%elem_of_nil|by left].
  - destruct (move_applies board Hboard m AI_PLAYER Hm) as [b' Hb'].
    destruct (children m AI_PLAYER b' false ltac:(done) Hm Hb')
      as ([mvc sc] & nc & Hret & _ & [v Hv] & _).
    cbn in Hv. subst sc.
    assert (successor_score fuel board depth max_depth AI_PLAYER false m v)
      as Hsucc by (by exists b', mvc, nc).
    set (acc := if score_lt bs (Fin v) then (Some m, Fin v) else (bm, bs)).
    assert (settled acc ∧ score_le bs acc.2 ∧ score_le (Fin v) acc.2 ∧
            (acc = (bm, bs) ∨ (acc = (Some m, Fin v) ∧ score_lt bs (Fin v))))
      as (Hsacc & Hle1 & Hle2 & Hcase).
    { subst acc. clear -Hacc. revert Hacc. score_solve. }
    destruct (IH acc.1 acc.2) as (res & n & Hres & Hle & Hall & Hbest).
    { right. by destruct acc. }
    exists res, (0 + (nc + n)). split.
    { cbn. eapply returns_bind; [by apply returns_lift|].
      eapply returns_bind; [done|]. cbn -[score_lt]. subst acc.
      by destruct (score_lt bs (Fin v)). }
    split; [by eapply score_le_trans|]. split.
    { intros m' [->|Hin]%elem_of_cons; [|by apply Hall].
      exists v. split; [done|]. by eapply score_le_trans. }
    destruct Hbest as [Hres0|(pre & m' & post & v' & -> & -> & Hs' & Hlt & Hpre)].
    + rewrite <- surjective_pairing in Hres0. subst res.
      destruct Hcase as [->|[-> Hlt]]; [by left|].
      right. exists [], m, rest, v. split_and!; try done.
      by intros ? ?%elem_of_nil.
    + right. exists (m :: pre), m', post, v'. split_and!; try done.
      * clear -Hle1 Hlt. revert Hle1 Hlt. generalize (acc.2). score_solve.
      * intros m0 [->|Hin]%elem_of_cons; [|by apply Hpre].
        exists v. split; [done|].
        clear -Hle2 Hlt. revert Hle2 Hlt. generalize (acc.2). score_solve.
Qed.

Lemma minimize_loop_best moves bm bs :
  Forall (λ m, m ∈ empty_cells board) moves →
  fresh_or_settled PosInf (bm, bs) →
  ∃ res n,
    returns (minimize_loop (minimax fuel) board depth max_depth moves bm bs)
      res n ∧
    score_le res.2 bs ∧
    (∀ m, m ∈ moves →
       ∃ v, successor_score fuel board depth max_depth HUMAN_PLAYER true m v ∧
            score_le res.2 (Fin v)) ∧
    (res = (bm, bs) ∨
     ∃ pre m post v,
       moves = pre ++ m :: post ∧ res = (Some m, Fin v) ∧
       successor_score fuel board depth max_depth HUMAN_PLAYER true m v ∧
       score_lt (Fin v) bs ∧
       ∀ m', m' ∈ pre →
         ∃ v', successor_score fuel board depth max_depth HUMAN_PLAYER true
                 m' v' ∧ v < v').
Proof.
  intros Hmoves. revert bm bs.
  induction Hmoves as [|m rest Hm _ IH]; intros bm bs Hacc.
  - exists (bm, bs), 0. split; [apply returns_ret|].
    split; [apply score_le_refl|]. split; [by intros ? ?%elem_of_nil|by left].
  - destruct (move_applies board Hboard m HUMAN_PLAYER Hm) as [b' Hb'].
    destruct (children m HUMAN_PLAYER b' true ltac:(done) Hm Hb')
      as ([mvc sc] & nc & Hret & _ & [v Hv] & _).
    cbn in Hv. subst sc.
    assert (successor_score fuel board depth max_depth HUMAN_PLAYER true m v)
      as Hsucc by (by exists b', mvc, nc).
    set (acc := if score_lt (Fin v) bs then (Some m, Fin v) else (bm, bs)).
    assert (settled acc ∧ score_le acc.2 bs ∧ score_le acc.2 (Fin v) ∧
            (acc = (bm, bs) ∨ (acc = (Some m, Fin v) ∧ score_lt (Fin v) bs)))
      as (Hsacc & Hle1 & Hle2 & Hcase).
    { subst acc. clear -Hacc. revert Hacc. score_solve. }
    destruct (IH acc.1 acc.2) as (res & n & Hres & Hle & Hall & Hbest).
    { right. by destruct acc. }
    exists res, (0 + (nc + n)). split.
    { cbn. eapply returns_bind; [by apply returns_lift|].
      eapply returns_bind; [done|]. cbn -[score_lt]. subst acc.
      by destruct (score_lt (Fin v) bs). }
    split; [by eapply score_le_trans|]. split.
    { intros m' [->|Hin]%elem_of_cons; [|by apply Hall].
      exists v. split; [done|]. by eapply score_le_trans. }
    destruct Hbest as [Hres0|(pre & m' & post & v' & -> & -> & Hs' & Hlt & Hpre)].
    + rewrite <- surjective_pairing in Hres0. subst res.
      destruct Hcase as [->|[-> Hlt]]; [by left|].
      right. exists [], m, rest, v. split_and!; try done.
      by intros ? ?%elem_of_nil.
    + right. exists (m :: pre), m', post, v'. split_and!; try done.
      * clear -Hle1 Hlt. revert Hle1 Hlt. generalize (acc.2). score_solve.
      * intros m0 [->|Hin]%elem_of_cons; [|by apply Hpre].
        exists v. split; [done|].
        clear -Hle2 Hlt. revert Hle2 Hlt. generalize (acc.2). score_solve.
Qed.

End best.

Lemma successor_score_fuel f1 f2 board depth max_depth p side m v :
  is3x3 board → m ∈ empty_cells board → p ≠ EMPTY →
  (length (empty_cells board) ≤ f1)%nat →
  (length (empty_cells board) ≤ f2)%nat →
  successor_score f1 board depth max_depth p side m v →
  successor_score f2 board depth max_depth p side m v.
Proof.
  intros Hb Hm Hp H1 H2 (b' & mv & n & Hmk & Hret).
  destruct (child_board board m p b' Hb Hm Hp Hmk) as [Hb' Hlt].
  exists b', mv, n. split; [done|].
  eapply (returns_fuel f1 f2); (done || lia).
Qed.

Lemma minimax_node_returns fuel board depth (is_ai_turn : bool) max_depth
    res n :
  is3x3 board →
  _should_stop_search board depth max_depth = Ok false →
  returns (if is_ai_turn
           then _maximize_score (minimax fuel) board depth (empty_cells board)
                  max_depth
           else _minimize_score (minimax fuel) board depth (empty_cells board)
                  max_depth) res n →
  returns (minimax (S fuel) board depth is_ai_turn max_depth) res
    (1 + (0 + (0 + n))).
Proof.
  intros Hb Hstop Hloop.
  eapply returns_bind; [apply returns_count_node|].
  eapply returns_bind; [by apply returns_lift|]. cbn.
  eapply returns_bind;
    [by apply returns_lift, get_available_moves_empty_cells|].
  done.
Qed.

Lemma minimax_first_best fuel board depth max_depth (is_ai_turn : bool) :
  is3x3 board → (10 ≤ fuel)%nat →
  _should_stop_search board depth max_depth = Ok false →
  let player := if is_ai_turn then O else X in
  ∃ pre m post v,
    get_available_moves board = Ok (pre ++ m :: post) ∧
    (∀ st, ∃ st', minimax fuel board depth is_ai_turn max_depth st =
                    Ok ((Some m, Fin v), st')) ∧
    successor_score fuel board depth max_depth player (negb is_ai_turn) m v ∧
    (∀ m', m' ∈ pre →
       ∃ v', successor_score fuel board depth max_depth player
               (negb is_ai_turn) m' v' ∧
             if is_ai_turn then v' < v else v < v') ∧
    (∀ m', m' ∈ post →
       ∃ v', successor_score fuel board depth max_depth player
               (negb is_ai_turn) m' v' ∧
             if is_ai_turn then v' ≤ v else v ≤ v').
Proof.
  intros Hb Hfuel Hstop player.
  pose proof (empty_cells_at_most_nine board) as Hnine.
  destruct fuel as [|f]; [lia|].
  assert (∀ m p board' side,
             p ≠ EMPTY → m ∈ empty_cells board →
             make_move board m p = Ok board' →
             search_ok f board' (depth + 1) side max_depth) as Hchildren.
  { intros m p b' side Hp Hm Hmk.
    destruct (child_board board m p b' Hb Hm Hp Hmk) as [Hb' Hlt].
    apply search_ok_all; (done || lia). }
  assert (Forall (λ m, m ∈ empty_cells board) (empty_cells board)) as Hall
    by (by apply Forall_forall).
  assert (empty_cells board ≠ []) as Hne.
  { destruct (_should_stop_search_spec board depth max_depth Hb)
      as (stop & Hs & Hgo). rewrite Hstop in Hs. injection Hs as <-.
    destruct Hgo as [Hover _]; [done|].
    by destruct (not_over_empty_cells board Hb Hover). }
  assert (∀ m p side v,
             p ≠ EMPTY → m ∈ empty_cells board →
             successor_score f board depth max_depth p side m v →
             successor_score (S f) board depth max_depth p side m v) as Hup.
  { intros m p side v Hp Hm. apply successor_score_fuel; (done || lia). }
  rewrite (get_available_moves_empty_cells board Hb).
  destruct is_ai_turn; subst player.
  - destruct (maximize_loop_best f board depth max_depth Hb Hchildren
                (empty_cells board) None NegInf Hall)
      as (res & n & Hres & _ & Hscores & Hbest); [by left|].
    pose proof (minimax_node_returns f board depth true max_depth res n
                  Hb Hstop Hres) as Hnode.
    destruct Hbest as [->|(pre & m & post & v & Heq & -> & Hsucc & _ & Hpre)].
    { destruct (empty_cells board) as [|m0 ms]; [done|].
      destruct (Hscores m0) as (v0 & _ & Hv0); [by left|]. done. }
    exists pre, m, post, v. split; [by f_equal|].
    assert (∀ st, ∃ st', minimax (S f) board depth true max_depth st =
                           Ok ((Some m, Fin v), st')) as Hmm.
    { intros st. destruct (Hnode st) as (st' & E & _). eauto. }
    split; [done|].
    assert (m ∈ empty_cells board) as Hm
      by (rewrite Heq, elem_of_app, elem_of_cons; auto).
    split; [by apply Hup|]. split.
    + intros m' Hin. destruct (Hpre m' Hin) as (v' & Hs' & Hlt).
      exists v'. split; [|done]. apply Hup; [done| |done].
      rewrite Heq, elem_of_app. auto.
    + intros m' Hin.
      assert (m' ∈ empty_cells board) as Hm'
        by (rewrite Heq, elem_of_app, elem_of_cons; auto).
      destruct (Hscores m' Hm') as (v' & Hs' & Hle).
      exists v'. split; [by apply Hup|].
      clear -Hle. revert Hle. score_solve.
  - destruct (minimize_loop_best f board depth max_depth Hb Hchildren
                (empty_cells board) None PosInf Hall)
      as (res & n & Hres & _ & Hscores & Hbest); [by left|].
    pose proof (minimax_node_returns f board depth false max_depth res n
                  Hb Hstop Hres) as Hnode.
    destruct Hbest as [->|(pre & m & post & v & Heq & -> & Hsucc & _ & Hpre)].
    { destruct (empty_cells board) as [|m0 ms]; [done|].
      destruct (Hscores m0) as (v0 & _ & Hv0); [by left|]. done. }
    exists pre, m, post, v. split; [by f_equal|].
    assert (∀ st, ∃ st', minimax (S f) board depth false max_depth st =
                           Ok ((Some m, Fin v), st')) as Hmm.
    { intros st. destruct (Hnode st) as (st' & E & _). eauto. }
    split; [done|].
    assert (m ∈ empty_cells board) as Hm
      by (rewrite Heq, elem_of_app, elem_of_cons; auto).
    split; [by apply Hup|]. split.
    + intros m' Hin. destruct (Hpre m' Hin) as (v' & Hs' & Hlt).
      exists v'. split; [|done]. apply Hup; [done| |done].
      rewrite Heq, elem_of_app. auto.
    + intros m' Hin.
      assert (m' ∈ empty_cells board) as Hm'
        by (rewrite Heq, elem_of_app, elem_of_cons; auto).
      destruct (Hscores m' Hm') as (v' & Hs' & Hle).
      exists v'. split; [by apply Hup|].
      clear -Hle. revert Hle. score_solve.
Qed.

Lemma alpha_beta_same_result fuel board depth max_depth (is_ai_turn : bool)
    (res : option Move * Score) :
  is3x3 board → (10 ≤ fuel)%nat →
  (∀ st, ∃ st', minimax fuel board depth is_ai_turn max_depth st =
                  Ok (res, st')) →
  ∀ st, ∃ st', alpha_beta fuel board depth NegInf PosInf is_ai_turn
                 max_depth st = Ok (res, st').
Proof.
  intros Hb Hfuel Hres.
  destruct (search_ok_ten fuel board depth is_ai_turn max_depth Hb Hfuel)
    as ([mv s] & n & Hmm & _ & [v Hv] & _ & Hab).
  cbn in Hv. subst s.
  destruct (Hab NegInf PosInf)
    as ([mv' s'] & n' & Hret & _ & [r Hr] & _ & Hag); [done|].
  cbn in Hr. subst s'.
  destruct Hag as (_ & _ & Heq). specialize (Heq I I). simplify_eq.
  destruct (Hres (mkStats 0 0 0 0)) as (st1 & E1).
  destruct (Hmm (mkStats 0 0 0 0)) as (st2 & E2 & _).
  rewrite E1 in E2. injection E2 as -> _.
  intros st. destruct (Hret st) as (st' & E & _). eauto.
Qed.

(** On a 3x3 board that is not a leaf of the search, [minimax] returns the
    first move in scan order whose successor position has the best minimax
    score for the side to move: the greatest for the AI, the least for the
    opponent.  Every earlier move scores strictly worse and no later move
    scores better.  [alpha_beta] with the full window returns the same
    move and score. *)
Theorem minimax_best_move fuel board depth max_depth (is_ai_turn : bool) :
  is3x3 board → (10 ≤ fuel)%nat →
  _should_stop_search board depth max_depth = Ok false →
  let player := if is_ai_turn then O else X in
  ∃ pre m post v,
    get_available_moves board = Ok (pre ++ m :: post) ∧
    (∀ st, ∃ st', minimax fuel board depth is_ai_turn max_depth st =
                    Ok ((Some m, Fin v), st')) ∧
    (∀ st, ∃ st', alpha_beta fuel board depth NegInf PosInf is_ai_turn
                    max_depth st = Ok ((Some m, Fin v), st')) ∧
    successor_score fuel board depth max_depth player (negb is_ai_turn) m v ∧
    (∀ m', m' ∈ pre →
       ∃ v', successor_score fuel board depth max_depth player
               (negb is_ai_turn) m' v' ∧
             if is_ai_turn then v' < v else v < v') ∧
    (∀ m', m' ∈ post →
       ∃ v', successor_score fuel board depth max_depth player
               (negb is_ai_turn) m' v' ∧
             if is_ai_turn then v' ≤ v else v ≤ v').
Proof.
  intros Hb Hfuel Hstop player.
  destruct (minimax_first_best fuel board depth max_depth is_ai_turn
              Hb Hfuel Hstop)
    as (pre & m & post & v & Hmoves & Hmm & Hrest).
  exists pre, m, post, v. split; [done|]. split; [done|].
  split; [|done]. by apply alpha_beta_same_result.
Qed.

(** ** The ranges of evaluate_position *)

Lemma diagonal_line board p :
  cell board 0 0 = Ok p → cell board 1 1 = Ok p → cell board 2 2 = Ok p →
  has_line board p.
Proof.
  intros. unfold has_line, winning_combinations.
  do 6 apply Exists_cons_tl. apply Exists_cons_hd. by repeat constructor.
Qed.

Lemma antidiagonal_line board p :
  cell board 0 2 = Ok p → cell board 1 1 = Ok p → cell board 2 0 = Ok p →
  has_line board p.
Proof.
  intros. unfold has_line, winning_combinations.
  do 7 apply Exists_cons_tl. apply Exists_cons_hd. by repeat constructor.
Qed.

Lemma _calculate_position_value_bound board v :
  is3x3 board → ¬ has_line board X → ¬ has_line board O →
  _calculate_position_value board = Ok v → -8 ≤ v ≤ 8.
Proof.
  intros (a & b & c & d & e & f & g & h & i & ->)%is3x3_inv HX HO.
  unfold _calculate_position_value. cbn.
  destruct e, a, c, g, i; cbn; intros [= <-]; try lia; exfalso;
    first [ apply HX; by apply diagonal_line
          | apply HX; by apply antidiagonal_line
          | apply HO; by apply diagonal_line
          | apply HO; by apply antidiagonal_line ].
Qed.

(** The value of [evaluate_position] by the result of [check_winner]. *)
Lemma evaluate_position_ranges board depth :
  is3x3 board →
  ∃ w v,
    check_winner board = Ok w ∧
    evaluate_position board depth = Ok v ∧
    match w with
    | Some O => v = 100 - depth
    | Some X => v = -100 + depth
    | Some EMPTY => False
    | None => -8 ≤ v ≤ 8 ∧ (no_empty_cell board → v = 0)
    end.
Proof.
  intros Hb. destruct (is_game_over_spec board Hb) as (w & Hw & Hd & _).
  destruct (check_winner_lines board Hb) as (w' & Hw' & Hlines).
  rewrite Hw in Hw'. injection Hw' as <-.
  destruct (evaluate_position_total board depth Hb) as [v Hv].
  exists w, v. split; [done|]. split; [done|].
  unfold evaluate_position in Hv. rewrite Hw, Hd in Hv.
  destruct w as [[| |]|]; cbn in Hv.
  - by injection Hv as <-.
  - by injection Hv as <-.
  - by destruct (check_winner_Some board EMPTY Hw).
  - destruct Hlines as [[HX HO] _]; [done|].
    destruct (board_full board) eqn:Hfull; cbn in Hv.
    + injection Hv as <-. unfold DRAW_SCORE. split; [lia|done].
    + split; [by eapply _calculate_position_value_bound|].
      intros Hno. destruct (board_full_false board Hfull) as (r & c & Hrc).
      by destruct (Hno r c).
Qed.

(** On a 3x3 board on which neither mark occupies a complete line, the
    evaluation is the same at every depth and lies between -8 and 8; it
    is 0 when the board is full.  So at the depths of a game, 0 to 9, a
    position without a winner is always ranked strictly between a win of
    "X" and a win of "O". *)
Theorem evaluate_position_undecided board :
  is3x3 board → ¬ has_line board X → ¬ has_line board O →
  ∃ v, (∀ depth, evaluate_position board depth = Ok v) ∧
       -8 ≤ v ≤ 8 ∧
       (no_empty_cell board → v = 0) ∧
       (∀ depth, 0 ≤ depth ≤ 9 → -100 + depth < v < 100 - depth).
Proof.
  intros Hb HX HO.
  destruct (evaluate_position_ranges board 0 Hb) as (w & v & Hw & Hv & Hr).
  destruct w as [p|].
  { destruct (check_winner_Some board p Hw) as [Hp Hl]. by destruct p. }
  destruct Hr as [Hrange Hfull]. exists v. split_and!; [|lia|lia|done|intros; lia].
  intros depth. unfold evaluate_position in Hv |- *.
  rewrite Hw in Hv |- *. cbn [mbind result_bind] in Hv |- *.
  destruct (is_draw board) as [d|]; [|done].
  cbn [mbind result_bind] in Hv |- *. by destruct d.
Qed.

(** ** The range of the minimax score *)

Lemma minimax_leaf_returns fuel board depth is_ai_turn max_depth v :
  _should_stop_search board depth max_depth = Ok true →
  evaluate_position board depth = Ok v →
  returns (minimax (S fuel) board depth is_ai_turn max_depth) (None, Fin v)
    (1 + (0 + (0 + 0))).
Proof.
  intros Hstop Hv.
  eapply returns_bind; [apply returns_count_node|].
  eapply returns_bind; [by apply returns_lift|]. cbn.
  eapply returns_bind; [by apply returns_lift|]. apply returns_ret.
Qed.

Lemma minimax_score_range_aux k :
  ∀ fuel board depth max_depth is_ai_turn,
    is3x3 board → (10 ≤ fuel)%nat →
    length (empty_cells board) = k →
    depth + Z.of_nat k ≤ 92 →
    ∃ mv v n,
      returns (minimax fuel board depth is_ai_turn max_depth) (mv, Fin v) n ∧
      -100 + depth ≤ v ≤ 100 - depth.
Proof.
  induction (lt_wf k) as [k _ IH].
  intros fuel board depth max_depth is_ai_turn Hb Hfuel Hk Hdepth.
  destruct (_should_stop_search_spec board depth max_depth Hb)
    as (stop & Hstop & Hgo).
  destruct stop.
  - destruct (evaluate_position_ranges board depth Hb) as (w & v & Hw & Hv & Hr).
    destruct fuel as [|f]; [lia|].
    exists None, v, (1 + (0 + (0 + 0))).
    split; [by apply minimax_leaf_returns|].
    destruct w as [[| |]|]; (done || lia).
  - destruct (minimax_first_best fuel board depth max_depth is_ai_turn
                Hb Hfuel Hstop)
      as (pre & m & post & v & Hmoves & Hmm & Hsucc & _).
    destruct Hsucc as (b' & mv & n & Hmk & Hret).
    rewrite (get_available_moves_empty_cells board Hb) in Hmoves.
    injection Hmoves as Hmoves.
    assert (m ∈ empty_cells board) as Hm
      by (rewrite Hmoves, elem_of_app, elem_of_cons; auto).
    destruct (child_board board m (if is_ai_turn then O else X) b' Hb Hm
                ltac:(by destruct is_ai_turn) Hmk) as [Hb' Hlt].
    destruct (IH (length (empty_cells b')) ltac:(lia) fuel b' (depth + 1)
                max_depth (negb is_ai_turn) Hb' Hfuel eq_refl ltac:(lia))
      as (mv' & v' & n' & Hret' & Hrange).
    destruct (returns_det _ _ _ _ _ Hret Hret') as [Heq _].
    injection Heq as _ ->.
    destruct (search_ok_ten fuel board depth is_ai_turn max_depth Hb Hfuel)
      as ([mv0 s0] & n0 & Hmm0 & _).
    destruct (Hmm (mkStats 0 0 0 0)) as (st1 & E1).
    destruct (Hmm0 (mkStats 0 0 0 0)) as (st2 & E2 & _).
    rewrite E1 in E2. injection E2 as <- <- _.
    exists (Some m), v', n0. split; [done|]. lia.
Qed.

(** The score that [minimax] returns at depth [depth] lies between
    [-100 + depth] and [100 - depth], for every 3x3 board and every depth
    up to 83. *)
Theorem minimax_score_range fuel board depth max_depth is_ai_turn :
  is3x3 board → (10 ≤ fuel)%nat → depth ≤ 83 →
  ∃ mv v,
    (∀ st, ∃ st', minimax fuel board depth is_ai_turn max_depth st =
                    Ok ((mv, Fin v), st')) ∧
    -100 + depth ≤ v ≤ 100 - depth.
Proof.
  intros Hb Hfuel Hdepth.
  pose proof (empty_cells_at_most_nine board).
  destruct (minimax_score_range_aux (length (empty_cells board)) fuel board
              depth max_depth is_ai_turn Hb Hfuel eq_refl ltac:(lia))
    as (mv & v & n & Hret & Hrange).
  exists mv, v. split; [|done].
  intros st. destruct (Hret st) as (st' & E & _). eauto.
Qed.

(** ** An immediate win is taken *)

Lemma won_board_stops board depth max_depth :
  check_winner board = Ok (Some O) →
  _should_stop_search board depth max_depth = Ok true.
Proof.
  intros Hw. unfold _should_stop_search, is_game_over. by rewrite Hw.
Qed.

Lemma winning_successor_score fuel board depth max_depth m board' :
  is3x3 board' → (1 ≤ fuel)%nat →
  make_move board m O = Ok board' → check_winner board' = Ok (Some O) →
  successor_score fuel board depth max_depth O false m (100 - (depth + 1)).
Proof.
  intros Hb' Hfuel Hmk Hw. destruct fuel as [|f]; [lia|].
  exists board', None, (1 + (0 + (0 + 0))). split; [done|].
  apply minimax_leaf_returns; [by apply won_board_stops|].
  destruct (evaluate_position_ranges board' (depth + 1) Hb')
    as (w & v & Hw' & Hv & Hr).
  rewrite Hw in Hw'. injection Hw' as <-. by rewrite Hv, Hr.
Qed.

(** A successor position scored 99 at depth 1 is a win of "O". *)
Lemma score_99_is_win fuel board' max_depth mv n :
  is3x3 board' → (10 ≤ fuel)%nat →
  returns (minimax fuel board' (0 + 1) false max_depth) (mv, Fin 99) n →
  check_winner board' = Ok (Some O).
Proof.
  intros Hb' Hfuel Hret.
  pose proof (empty_cells_at_most_nine board') as Hnine.
  destruct (_should_stop_search_spec board' (0 + 1) max_depth Hb')
    as (stop & Hstop & Hgo).
  destruct stop.
  - destruct (evaluate_position_ranges board' (0 + 1) Hb')
      as (w & v & Hw & Hv & Hr).
    destruct fuel as [|f]; [lia|].
    pose proof (minimax_leaf_returns f board' (0 + 1) false max_depth v
                  Hstop Hv) as Hleaf.
    destruct (returns_det _ _ _ _ _ Hret Hleaf) as [Heq _].
    injection Heq as _ <-.
    destruct w as [[| |]|]; (done || lia).
  - destruct (minimax_first_best fuel board' (0 + 1) max_depth false
                Hb' Hfuel Hstop)
      as (pre & m & post & v & Hmoves & Hmm & Hsucc & _).
    destruct (Hmm (mkStats 0 0 0 0)) as (st1 & E1).
    destruct (Hret (mkStats 0 0 0 0)) as (st2 & E2 & _).
    rewrite E1 in E2. injection E2 as _ -> _.
    destruct Hsucc as (b2 & mv2 & n2 & Hmk & Hret2).
    rewrite (get_available_moves_empty_cells board' Hb') in Hmoves.
    injection Hmoves as Hmoves.
    assert (m ∈ empty_cells board') as Hm
      by (rewrite Hmoves, elem_of_app, elem_of_cons; auto).
    destruct (child_board board' m X b2 Hb' Hm ltac:(done) Hmk) as [Hb2 _].
    pose proof (empty_cells_at_most_nine b2).
    destruct (minimax_score_range_aux (length (empty_cells b2)) fuel b2
                (0 + 1 + 1) max_depth true Hb2 Hfuel eq_refl ltac:(lia))
      as (mv3 & v3 & n3 & Hret3 & Hrange).
    destruct (returns_det _ _ _ _ _ Hret2 Hret3) as [Heq _].
    injection Heq as _ <-. lia.
Qed.

Lemma minimax_takes_immediate_win fuel board max_depth moves m0 board0 :
  is3x3 board → (10 ≤ fuel)%nat →
  _should_stop_search board 0 max_depth = Ok false →
  get_available_moves board = Ok moves → m0 ∈ moves →
  make_move board m0 O = Ok board0 → check_winner board0 = Ok (Some O) →
  ∃ m board',
    m ∈ moves ∧ make_move board m O = Ok board' ∧
    check_winner board' = Ok (Some O) ∧
    ∀ st, ∃ st', minimax fuel board 0 true max_depth st =
                   Ok ((Some m, Fin 99), st').
Proof.
  intros Hb Hfuel Hstop Hmoves Hm0 Hmk0 Hw0.
  rewrite (get_available_moves_empty_cells board Hb) in Hmoves.
  injection Hmoves as <-.
  destruct (child_board board m0 O board0 Hb Hm0 ltac:(done) Hmk0)
    as [Hb0 _].
  pose proof (winning_successor_score fuel board 0 max_depth m0 board0
                Hb0 ltac:(lia) Hmk0 Hw0) as Hs0.
  destruct (minimax_first_best fuel board 0 max_depth true Hb Hfuel Hstop)
    as (pre & m & post & v & Hmoves & Hmm & Hsucc & Hpre & Hpost).
  rewrite (get_available_moves_empty_cells board Hb) in Hmoves.
  injection Hmoves as Hmoves.
  assert (m ∈ empty_cells board) as Hm
    by (rewrite Hmoves, elem_of_app, elem_of_cons; auto).
  assert (99 ≤ v) as Hlow.
  { rewrite Hmoves, elem_of_app, elem_of_cons in Hm0.
    destruct Hm0 as [Hin|[->|Hin]].
    - destruct (Hpre m0 Hin) as (v' & Hs' & Hlt).
      pose proof (successor_score_det _ _ _ _ _ _ _ _ _ Hs0 Hs'). lia.
    - pose proof (successor_score_det _ _ _ _ _ _ _ _ _ Hs0 Hsucc). lia.
    - destruct (Hpost m0 Hin) as (v' & Hs' & Hle).
      pose proof (successor_score_det _ _ _ _ _ _ _ _ _ Hs0 Hs'). lia. }
  destruct Hsucc as (b' & mv & n & Hmk & Hret).
  destruct (child_board board m O b' Hb Hm ltac:(done) Hmk) as [Hb' _].
  pose proof (empty_cells_at_most_nine b').
  destruct (minimax_score_range_aux (length (empty_cells b')) fuel b'
              (0 + 1) max_depth false Hb' Hfuel eq_refl ltac:(lia))
    as (mv3 & v3 & n3 & Hret3 & Hrange).
  destruct (returns_det _ _ _ _ _ Hret Hret3) as [Heq _].
  injection Heq as _ <-.
  assert (v = 99) as -> by lia.
  exists m, b'. split; [done|]. split; [done|]. split; [|done].
  by eapply score_99_is_win.
Qed.

(** ** get_best_move *)

(** The three searches that [_run_algorithm] can dispatch agree on the
    move and the score. *)
Lemma _run_algorithm_minimax fuel board search_depth :
  is3x3 board → (10 ≤ fuel)%nat →
  ∃ mv v,
    (∀ st, ∃ st', minimax fuel board 0 true search_depth st =
                    Ok ((mv, Fin v), st')) ∧
    ∀ algorithm st,
      pruned_branches st = 0 → depth_prints algorithm search_depth →
      ∃ reason st',
        _run_algorithm fuel board algorithm search_depth st =
          Ok ((mv, Fin v, reason), st').
Proof.
  intros Hb Hfuel.
  destruct (search_ok_ten fuel board 0 true search_depth Hb Hfuel)
    as ([mv s] & n & Hmm & _ & [v Hv] & _ & Hab).
  cbn in Hv. subst s.
  destruct (Hab NegInf PosInf)
    as ([mv' s'] & n' & Hret & _ & [r Hr] & _ & Hag); [done|].
  cbn in Hr. subst s'.
  destruct Hag as (_ & _ & Heq). specialize (Heq I I). simplify_eq.
  exists mv, v. split.
  { intros st. destruct (Hmm st) as (st' & E & _). eauto. }
  intros algorithm st Hzero Hprints. unfold _run_algorithm.
  case_bool_decide; [|case_bool_decide].
  - destruct (Hret st) as (st1 & E1 & _).
    pose proof (alpha_beta_pruned 9 _ _ _ _ _ _ _ _ _ _ Hb
                  (empty_cells_at_most_nine board) E1) as Hp.
    pose proof pruned_prints.
    eexists _, st1. unfold mbind, M_bind. rewrite E1.
    unfold read_pruned_branches, lift. by rewrite str_of_int_Ok by lia.
  - destruct (Hmm st) as (st1 & E1 & _).
    eexists _, st1. unfold depth_limited_minimax, mbind, M_bind.
    rewrite E1. unfold lift. by rewrite str_of_int_Ok by (by apply Hprints).
  - destruct (Hmm st) as (st1 & E1 & _).
    eexists _, st1. unfold mbind, M_bind. by rewrite E1.
Qed.

(** What [get_best_move] returns on a 3x3 board with at least two moves,
    in terms of the result of [minimax]. *)
Lemma get_best_move_search fuel env board algorithm difficulty max_depth st
    first second rest mv v :
  is3x3 board → (10 ≤ fuel)%nat →
  empty_cells board = first :: second :: rest →
  depth_prints algorithm (_get_search_depth difficulty max_depth) →
  (∀ st0, ∃ st', minimax fuel board 0 true
                   (_get_search_depth difficulty max_depth) st0 =
                   Ok ((mv, Fin v), st')) →
  ∃ final reason st1,
    _apply_difficulty_adjustments env (default first mv)
      (first :: second :: rest) difficulty reason = Ok final ∧
    get_best_move fuel env board algorithm difficulty max_depth st =
      Ok ((final,
           AlgorithmAnalysis.mk (nodes_explored st1) (pruned_branches st1)
             (max_depth_reached st1) (time_at_analysis env - start_time st1)
             reason (if mv is Some _ then Fin v else Fin 0)),
          st1).
Proof.
  intros Hb Hfuel Hcells Hprints Hmm.
  pose proof (get_available_moves_empty_cells board Hb) as Hmoves.
  rewrite Hcells in Hmoves.
  destruct (_run_algorithm_minimax fuel board
              (_get_search_depth difficulty max_depth) Hb Hfuel)
    as (mv' & v' & Hmm' & Hrun).
  destruct (Hmm (mkStats 0 0 0 0)) as (s1 & E1).
  destruct (Hmm' (mkStats 0 0 0 0)) as (s2 & E2).
  rewrite E1 in E2. injection E2 as <- <- _.
  destruct (Hrun algorithm (mkStats 0 0 0 (time_at_reset env)) eq_refl
              Hprints)
    as (reason & st1 & Hrun1).
  destruct (_apply_difficulty_adjustments_total env (default first mv)
              (first :: second :: rest) difficulty
              (if mv is Some _ then reason
               else "Fallback to first available move"))
    as [final Hfinal]; [done|].
  eexists final, _, st1. split; [done|].
  rewrite (get_best_move_dispatched _ _ _ _ _ _ st _ _ _ _ _ _ _ _
             Hmoves Hrun1 Hfinal).
  by destruct mv.
Qed.

Lemma _apply_difficulty_adjustments_in env best moves difficulty reason m :
  best ∈ moves →
  _apply_difficulty_adjustments env best moves difficulty reason = Ok m →
  m ∈ moves.
Proof.
  intros Hbest. unfold _apply_difficulty_adjustments.
  destruct (_ && _); [|by intros [= <-]].
  destruct (random_below_threshold env); [|by intros [= <-]].
  unfold random_choice.
  destruct (moves !! _) as [m'|] eqn:Hl; [|done]. cbn. intros [= <-].
  by eapply list_elem_of_lookup_2.
Qed.

Lemma get_best_move_empty_cell
    fuel env board algorithm difficulty max_depth st move analysis st' :
  is3x3 board → (10 ≤ fuel)%nat →
  get_best_move fuel env board algorithm difficulty max_depth st =
    Ok ((move, analysis), st') →
  move ∈ empty_cells board.
Proof.
  intros Hb Hfuel Hbest.
  pose proof (get_available_moves_empty_cells board Hb) as Hmoves.
  destruct (empty_cells board) as [|first [|second rest]] eqn:Hcells.
  - unfold get_best_move in Hbest.
    unfold mbind at 1, M_bind at 1 in Hbest. cbn [_reset_stats] in Hbest.
    unfold mbind, M_bind in Hbest. by rewrite Hmoves in Hbest.
  - unfold get_best_move in Hbest.
    unfold mbind at 1, M_bind at 1 in Hbest. cbn [_reset_stats] in Hbest.
    unfold mbind, M_bind in Hbest. rewrite Hmoves in Hbest. cbn in Hbest.
    injection Hbest as <- _ _. by left.
  - destruct (depth_prints_cases algorithm
                (_get_search_depth difficulty max_depth))
      as [Hprints|[-> Hbig]];
      [|by rewrite (get_best_move_limit _ _ _ _ _ st _ _ _ Hb Hfuel Hmoves
                      Hbig) in Hbest].
    destruct (_run_algorithm_minimax fuel board
                (_get_search_depth difficulty max_depth) Hb Hfuel)
      as (mv & v & Hmm & _).
    destruct (get_best_move_search fuel env board algorithm difficulty
                max_depth st first second rest mv v Hb Hfuel Hcells Hprints
                Hmm)
      as (final & reason & st1 & Hfinal & Hbest').
    rewrite Hbest in Hbest'. injection Hbest' as -> _ _.
    eapply _apply_difficulty_adjustments_in; [|done].
    destruct mv as [m|]; [|by left]. cbn.
    destruct (_should_stop_search_spec board 0
                (_get_search_depth difficulty max_depth) Hb)
      as (stop & Hstop & _).
    destruct stop.
    + destruct (evaluate_position_total board 0 Hb) as [v0 Hv0].
      destruct fuel as [|f]; [lia|].
      pose proof (minimax_leaf_returns f board 0 true _ v0 Hstop Hv0) as Hleaf.
      destruct (Hleaf (mkStats 0 0 0 0)) as (s1 & E1 & _).
      destruct (Hmm (mkStats 0 0 0 0)) as (s2 & E2).
      rewrite E1 in E2. done.
    + destruct (minimax_first_best fuel board 0 _ true Hb Hfuel Hstop)
        as (pre & m' & post & v' & Hmv & Hmm' & _).
      destruct (Hmm (mkStats 0 0 0 0)) as (s1 & E1).
      destruct (Hmm' (mkStats 0 0 0 0)) as (s2 & E2).
      rewrite E1 in E2. injection E2 as -> _ _.
      rewrite Hmoves in Hmv. injection Hmv as ->.
      rewrite elem_of_app, elem_of_cons. auto.
Qed.

(** On a 3x3 board, whatever the algorithm, the difficulty, the depth
    limit and the random draws, the move that [get_best_move] returns is
    one of the available moves of the board it was given: [is_valid_move]
    accepts it and [make_move] places the mark of the AI there. *)
Theorem get_best_move_legal
    fuel env board algorithm difficulty max_depth st move analysis st' :
  is3x3 board → (10 ≤ fuel)%nat →
  get_best_move fuel env board algorithm difficulty max_depth st =
    Ok ((move, analysis), st') →
  ∃ moves board',
    get_available_moves board = Ok moves ∧ move ∈ moves ∧
    is_valid_move board (Z.of_nat (row move)) (Z.of_nat (col move)) =
      Ok true ∧
    make_move board move O = Ok board' ∧
    cell board' (row move) (col move) = Ok O.
Proof.
  intros Hb Hfuel Hbest.
  pose proof (get_best_move_empty_cell _ _ _ _ _ _ _ _ _ _ Hb Hfuel Hbest)
    as Hin.
  destruct (empty_cells_inv _ _ Hin) as (r & c & -> & Hr & Hc & He).
  destruct (make_move_total board (Move_at r c) O Hb Hr Hc)
    as (board' & Hmk & _).
  exists (empty_cells board), board'.
  split; [by apply get_available_moves_empty_cells|]. split; [done|].
  split; [|split; [done|]].
  - unfold is_valid_move, Move_at. cbn [row col].
    assert ((0 <=? Z.of_nat r) && (Z.of_nat r <=? 2) &&
            (0 <=? Z.of_nat c) && (Z.of_nat c <=? 2) = true) as ->.
    { rewrite !andb_true_iff, !Z.leb_le. lia. }
    cbn [negb]. by rewrite !Nat2Z.id, He.
  - unfold Move_at in *. cbn [row col] in *.
    rewrite (make_move_cell _ _ _ _ r c Hmk). cbn [row col].
    by rewrite decide_True.
Qed.

(** On a 3x3 board with an empty cell and under the same random draws,
    [get_best_move] returns the same move and the same evaluation score
    for any two algorithms whose rationale can be written (the
    depth-limited search needs a depth of at most 4300 digits for that),
    whatever statistics an earlier call has left; only the counters and
    the rationale of the analysis depend on the algorithm. *)
Theorem get_best_move_any_algorithm
    fuel env board algorithm1 algorithm2 difficulty max_depth st1 st2 :
  is3x3 board → (10 ≤ fuel)%nat → ¬ no_empty_cell board →
  depth_prints algorithm1 (_get_search_depth difficulty max_depth) →
  depth_prints algorithm2 (_get_search_depth difficulty max_depth) →
  ∃ move analysis1 analysis2 st1' st2',
    get_best_move fuel env board algorithm1 difficulty max_depth st1 =
      Ok ((move, analysis1), st1') ∧
    get_best_move fuel env board algorithm2 difficulty max_depth st2 =
      Ok ((move, analysis2), st2') ∧
    AlgorithmAnalysis.evaluation_score analysis1 =
      AlgorithmAnalysis.evaluation_score analysis2.
Proof.
  intros Hb Hfuel Hsome Hprints1 Hprints2.
  pose proof (get_available_moves_empty_cells board Hb) as Hmoves.
  destruct (empty_cells board) as [|first [|second rest]] eqn:Hcells.
  - destruct Hsome. by apply empty_cells_nil.
  - unfold get_best_move.
    unfold mbind at 1 3, M_bind at 1 3. cbn [_reset_stats].
    unfold mbind, M_bind. rewrite Hmoves. cbn. by eexists _, _, _, _, _.
  - destruct (_run_algorithm_minimax fuel board
                (_get_search_depth difficulty max_depth) Hb Hfuel)
      as (mv & v & Hmm & _).
    destruct (get_best_move_search fuel env board algorithm1 difficulty
                max_depth st1 first second rest mv v Hb Hfuel Hcells
                Hprints1 Hmm)
      as (final1 & reason1 & s1 & Hfinal1 & Hbest1).
    destruct (get_best_move_search fuel env board algorithm2 difficulty
                max_depth st2 first second rest mv v Hb Hfuel Hcells
                Hprints2 Hmm)
      as (final2 & reason2 & s2 & Hfinal2 & Hbest2).
    assert (final1 = final2) as <-.
    { unfold _apply_difficulty_adjustments in Hfinal1, Hfinal2.
      destruct (_ && _); [|congruence].
      destruct (random_below_threshold env); [|congruence].
      destruct (random_choice env _); cbn in *; congruence. }
    rewrite Hbest1, Hbest2. by eexists _, _, _, _, _.
Qed.

(** On a 3x3 board without a winner on which some available move completes
    a line of "O", with a search depth of at least 1 and without the
    random substitution of the easy difficulty, the move that
    [get_best_move] returns completes a line of "O", for every algorithm
    whose rationale can be written (the depth-limited search needs a depth
    of at most 4300 digits for that). *)
Theorem get_best_move_takes_immediate_win
    fuel env board algorithm difficulty max_depth st moves m0 board0 :
  is3x3 board → (10 ≤ fuel)%nat →
  check_winner board = Ok None →
  1 ≤ _get_search_depth difficulty max_depth →
  depth_prints algorithm (_get_search_depth difficulty max_depth) →
  difficulty ≠ "easy" ∨ random_below_threshold env = false →
  get_available_moves board = Ok moves → m0 ∈ moves →
  make_move board m0 O = Ok board0 → check_winner board0 = Ok (Some O) →
  ∃ move analysis st' board',
    get_best_move fuel env board algorithm difficulty max_depth st =
      Ok ((move, analysis), st') ∧
    make_move board move O = Ok board' ∧
    check_winner board' = Ok (Some O).
Proof.
  intros Hb Hfuel Hw Hdepth Hprints Hnorand Hmoves Hm0 Hmk0 Hw0.
  pose proof (get_available_moves_empty_cells board Hb) as Hcells0.
  rewrite Hmoves in Hcells0. injection Hcells0 as ->.
  destruct (empty_cells board) as [|first [|second rest]] eqn:Hcells.
  - by apply elem_of_nil in Hm0.
  - apply list_elem_of_singleton in Hm0 as ->.
    eexists first, _, _, board0. split; [|done].
    unfold get_best_move. unfold mbind at 1, M_bind at 1. cbn [_reset_stats].
    unfold mbind, M_bind. by rewrite Hmoves.
  - assert (_should_stop_search board 0
              (_get_search_depth difficulty max_depth) = Ok false) as Hstop.
    { destruct (is_game_over_spec board Hb) as (w & Hw' & _ & Hg).
      rewrite Hw in Hw'. injection Hw' as <-.
      unfold _should_stop_search. rewrite Hg.
      rewrite board_full_no_empty by (done || by rewrite Hcells).
      cbn. f_equal. apply Z.leb_gt. lia. }
    rewrite <- Hcells in Hm0.
    destruct (minimax_takes_immediate_win fuel board _ (empty_cells board)
                m0 board0 Hb Hfuel Hstop
                (get_available_moves_empty_cells board Hb) Hm0 Hmk0 Hw0)
      as (m & b' & Hm & Hmk & Hwin & Hmm).
    destruct (get_best_move_search fuel env board algorithm difficulty
                max_depth st first second rest (Some m) 99 Hb Hfuel Hcells
                Hprints Hmm)
      as (final & reason & st1 & Hfinal & Hbest).
    assert (final = m) as ->.
    { unfold _apply_difficulty_adjustments in Hfinal. cbn in Hfinal.
      destruct Hnorand as [Hne|Hno].
      - rewrite bool_decide_eq_false_2 in Hfinal by done. cbn in Hfinal.
        by injection Hfinal.
      - rewrite Hno in Hfinal. destruct (_ && _); by injection Hfinal. }
    by eexists m, _, _, b'.
Qed.

(** ** The statistics of a search *)

Lemma stats_step_refl bound st : stats_step bound 0 st st.
Proof. unfold stats_step. lia. Qed.

Lemma stats_step_trans bound l1 l2 st st1 st2 :
  stats_step bound l1 st st1 → stats_step bound l2 st1 st2 →
  stats_step bound (l1 + l2) st st2.
Proof. unfold stats_step. lia. Qed.

Lemma stats_step_weaken bound bound' l l' st st' :
  bound ≤ bound' → l' ≤ l →
  stats_step bound l st st' → stats_step bound' l' st st'.
Proof. unfold stats_step. lia. Qed.

Lemma stats_step_then bound l1 l2 l st st1 st2 :
  stats_step bound l1 st st1 → stats_step bound l2 st1 st2 → l ≤ l1 + l2 →
  stats_step bound l st st2.
Proof. unfold stats_step. lia. Qed.

Lemma count_node_step depth st st' u :
  count_node depth st = Ok (u, st') →
  stats_step depth 1 st st' ∧ pruned_branches st' = pruned_branches st.
Proof. intros [= _ <-]. unfold stats_step. cbn. lia. Qed.

Lemma count_pruned_step bound st st' u :
  count_pruned st = Ok (u, st') → stats_step bound (-1) st st'.
Proof. intros [= _ <-]. unfold stats_step. cbn. lia. Qed.

Lemma not_stopped_depth board depth max_depth :
  _should_stop_search board depth max_depth = Ok false → depth < max_depth.
Proof.
  unfold _should_stop_search.
  destruct (is_game_over board) as [[|]|]; cbn; try done.
  by intros [= ?%Z.leb_gt].
Qed.

Section stats_loops.
Context (bound : Z) (board : Board) (depth max_depth : Z).

Lemma maximize_loop_step (rec : minimax_t) moves :
  (∀ b' side st r st', rec b' (depth + 1) side max_depth st = Ok (r, st') →
     stats_step bound 1 st st' ∧ pruned_branches st' = pruned_branches st) →
  ∀ bm bs st r st',
    maximize_loop rec board depth max_depth moves bm bs st = Ok (r, st') →
    stats_step bound 0 st st' ∧ pruned_branches st' = pruned_branches st.
Proof.
  intros Hrec. induction moves as [|m rest IH]; intros bm bs st r st' Hrun.
  - injection Hrun as _ <-. split; [apply stats_step_refl|done].
  - cbn in Hrun.
    apply bind_Ok in Hrun as (b' & s1 & [_ ->]%lift_Ok & Hrun).
    apply bind_Ok in Hrun as (res & s2 & [Hs Hp]%Hrec & Hrun).
    cbn in Hrun.
    destruct (score_lt bs res.2); apply IH in Hrun as [Hs' Hp'];
      (split; [|congruence]); eapply stats_step_then; (done || lia).
Qed.

Lemma minimize_loop_step (rec : minimax_t) moves :
  (∀ b' side st r st', rec b' (depth + 1) side max_depth st = Ok (r, st') →
     stats_step bound 1 st st' ∧ pruned_branches st' = pruned_branches st) →
  ∀ bm bs st r st',
    minimize_loop rec board depth max_depth moves bm bs st = Ok (r, st') →
    stats_step bound 0 st st' ∧ pruned_branches st' = pruned_branches st.
Proof.
  intros Hrec. induction moves as [|m rest IH]; intros bm bs st r st' Hrun.
  - injection Hrun as _ <-. split; [apply stats_step_refl|done].
  - cbn in Hrun.
    apply bind_Ok in Hrun as (b' & s1 & [_ ->]%lift_Ok & Hrun).
    apply bind_Ok in Hrun as (res & s2 & [Hs Hp]%Hrec & Hrun).
    cbn in Hrun.
    destruct (score_lt res.2 bs); apply IH in Hrun as [Hs' Hp'];
      (split; [|congruence]); eapply stats_step_then; (done || lia).
Qed.

Lemma maximize_pruning_loop_step (rec : alpha_beta_t) beta moves :
  (∀ b' a b side st r st',
     rec b' (depth + 1) a b side max_depth st = Ok (r, st') →
     stats_step bound 1 st st') →
  ∀ alpha bm bs st r st',
    maximize_pruning_loop rec board depth max_depth beta moves alpha bm bs st =
      Ok (r, st') →
    stats_step bound 0 st st'.
Proof.
  intros Hrec. induction moves as [|m rest IH];
    intros alpha bm bs st r st' Hrun.
  - injection Hrun as _ <-. apply stats_step_refl.
  - cbn -[score_le score_max] in Hrun.
    apply bind_Ok in Hrun as (b' & s1 & [_ ->]%lift_Ok & Hrun).
    apply bind_Ok in Hrun as (res & s2 & Hs%Hrec & Hrun).
    cbn -[score_le score_max] in Hrun.
    destruct (score_le beta _).
    + apply bind_Ok in Hrun as (u & s3 & Hp & Hrun).
      injection Hrun as _ <-.
      eapply (count_pruned_step bound) in Hp.
      eapply stats_step_then; (done || lia).
    + apply IH in Hrun. eapply stats_step_then; (done || lia).
Qed.

Lemma minimize_pruning_loop_step (rec : alpha_beta_t) alpha moves :
  (∀ b' a b side st r st',
     rec b' (depth + 1) a b side max_depth st = Ok (r, st') →
     stats_step bound 1 st st') →
  ∀ beta bm bs st r st',
    minimize_pruning_loop rec board depth max_depth alpha moves beta bm bs st =
      Ok (r, st') →
    stats_step bound 0 st st'.
Proof.
  intros Hrec. induction moves as [|m rest IH];
    intros beta bm bs st r st' Hrun.
  - injection Hrun as _ <-. apply stats_step_refl.
  - cbn -[score_le score_min] in Hrun.
    apply bind_Ok in Hrun as (b' & s1 & [_ ->]%lift_Ok & Hrun).
    apply bind_Ok in Hrun as (res & s2 & Hs%Hrec & Hrun).
    cbn -[score_le score_min] in Hrun.
    destruct (score_le _ alpha).
    + apply bind_Ok in Hrun as (u & s3 & Hp & Hrun).
      injection Hrun as _ <-.
      eapply (count_pruned_step bound) in Hp.
      eapply stats_step_then; (done || lia).
    + apply IH in Hrun. eapply stats_step_then; (done || lia).
Qed.

End stats_loops.

Lemma minimax_step fuel board depth is_ai_turn max_depth st r st' :
  minimax fuel board depth is_ai_turn max_depth st = Ok (r, st') →
  stats_step (Z.max depth max_depth) 1 st st' ∧
  pruned_branches st' = pruned_branches st.
Proof.
  revert board depth is_ai_turn st r st'.
  induction fuel as [|fuel IH]; intros board depth is_ai_turn st r st' Hrun;
    [done|].
  cbn [minimax] in Hrun.
  apply bind_Ok in Hrun as (u & s1 & [Hc Hp]%count_node_step & Hrun).
  apply bind_Ok in Hrun as (stop & s2 & [Hstop ->]%lift_Ok & Hrun).
  destruct stop.
  - apply bind_Ok in Hrun as (v & s3 & [_ ->]%lift_Ok & Hrun).
    injection Hrun as _ <-. split; [|done].
    apply (stats_step_weaken depth _ 1 _); [lia|lia|done].
  - apply not_stopped_depth in Hstop.
    apply bind_Ok in Hrun as (moves & s3 & [_ ->]%lift_Ok & Hrun).
    assert (∀ b' side st r st',
               minimax fuel b' (depth + 1) side max_depth st = Ok (r, st') →
               stats_step (Z.max depth max_depth) 1 st st' ∧
               pruned_branches st' = pruned_branches st) as Hrec.
    { intros b' side s r0 s' Hr. apply IH in Hr as [Hs ?]. split; [|done].
      apply (stats_step_weaken (Z.max (depth + 1) max_depth) _ 1 _);
        [lia|lia|done]. }
    destruct is_ai_turn.
    + eapply maximize_loop_step in Hrun as [Hs Hp']; [|done].
      split; [|congruence].
      apply (stats_step_then _ 1 0 _ _ s1); [|done|lia].
      apply (stats_step_weaken depth _ 1 _); [lia|lia|done].
    + eapply minimize_loop_step in Hrun as [Hs Hp']; [|done].
      split; [|congruence].
      apply (stats_step_then _ 1 0 _ _ s1); [|done|lia].
      apply (stats_step_weaken depth _ 1 _); [lia|lia|done].
Qed.

Lemma alpha_beta_step fuel board depth alpha beta is_ai_turn max_depth
    st r st' :
  alpha_beta fuel board depth alpha beta is_ai_turn max_depth st =
    Ok (r, st') →
  stats_step (Z.max depth max_depth) 1 st st'.
Proof.
  revert board depth alpha beta is_ai_turn st r st'.
  induction fuel as [|fuel IH];
    intros board depth alpha beta is_ai_turn st r st' Hrun; [done|].
  cbn [alpha_beta] in Hrun.
  apply bind_Ok in Hrun as (u & s1 & [Hc Hp]%count_node_step & Hrun).
  apply bind_Ok in Hrun as (stop & s2 & [Hstop ->]%lift_Ok & Hrun).
  destruct stop.
  - apply bind_Ok in Hrun as (v & s3 & [_ ->]%lift_Ok & Hrun).
    injection Hrun as _ <-.
    apply (stats_step_weaken depth _ 1 _); [lia|lia|done].
  - apply not_stopped_depth in Hstop.
    apply bind_Ok in Hrun as (moves & s3 & [_ ->]%lift_Ok & Hrun).
    assert (∀ b' a b side st r st',
               alpha_beta fuel b' (depth + 1) a b side max_depth st =
                 Ok (r, st') →
               stats_step (Z.max depth max_depth) 1 st st') as Hrec.
    { intros b' a b side s r0 s' Hr. apply IH in Hr.
      apply (stats_step_weaken (Z.max (depth + 1) max_depth) _ 1 _);
        [lia|lia|done]. }
    destruct is_ai_turn.
    + eapply maximize_pruning_loop_step in Hrun; [|done].
      apply (stats_step_then _ 1 0 _ _ s1); [|done|lia].
      apply (stats_step_weaken depth _ 1 _); [lia|lia|done].
    + eapply minimize_pruning_loop_step in Hrun; [|done].
      apply (stats_step_then _ 1 0 _ _ s1); [|done|lia].
      apply (stats_step_weaken depth _ 1 _); [lia|lia|done].
Qed.

Lemma _run_algorithm_step fuel board algorithm search_depth st r st' :
  _run_algorithm fuel board algorithm search_depth st = Ok (r, st') →
  stats_step (Z.max 0 search_depth) 1 st st' ∧
  (algorithm ≠ "alpha_beta" → pruned_branches st' = pruned_branches st).
Proof.
  unfold _run_algorithm. case_bool_decide; [|case_bool_decide]; intros Hrun.
  - apply bind_Ok in Hrun as (res & s1 & Hs%alpha_beta_step & Hrun).
    apply bind_Ok in Hrun as (p & s2 & [= _ <-] & Hrun).
    apply bind_Ok in Hrun as (text & s3 & [_ ->]%lift_Ok & Hrun).
    injection Hrun as _ <-. by split.
  - apply bind_Ok in Hrun as (res & s1 & [Hs Hp]%minimax_step & Hrun).
    apply bind_Ok in Hrun as (text & s3 & [_ ->]%lift_Ok & Hrun).
    injection Hrun as _ <-. by split.
  - apply bind_Ok in Hrun as (res & s1 & [Hs Hp]%minimax_step & Hrun).
    injection Hrun as _ <-. by split.
Qed.

(** Whenever [get_best_move] returns, the analysis it returns reports a
    depth between 0 and the search depth (0 when that depth is negative),
    at most as many pruning events as nodes, no pruning event unless the
    algorithm is "alpha_beta", and the time between the two readings of
    the clock; its counters are those left in the object. *)
Theorem get_best_move_statistics
    fuel env board algorithm difficulty max_depth st move analysis st' :
  get_best_move fuel env board algorithm difficulty max_depth st =
    Ok ((move, analysis), st') →
  0 ≤ AlgorithmAnalysis.max_depth_reached analysis ≤
    Z.max 0 (_get_search_depth difficulty max_depth) ∧
  0 ≤ AlgorithmAnalysis.pruned_branches analysis ≤
    AlgorithmAnalysis.nodes_explored analysis ∧
  (algorithm ≠ "alpha_beta" → AlgorithmAnalysis.pruned_branches analysis = 0) ∧
  AlgorithmAnalysis.thinking_time analysis =
    time_at_analysis env - time_at_reset env ∧
  AlgorithmAnalysis.nodes_explored analysis = nodes_explored st' ∧
  AlgorithmAnalysis.pruned_branches analysis = pruned_branches st' ∧
  AlgorithmAnalysis.max_depth_reached analysis = max_depth_reached st'.
Proof.
  intros Hrun. unfold get_best_move in Hrun.
  apply bind_Ok in Hrun as (u & s0 & [= _ <-] & Hrun).
  apply bind_Ok in Hrun as (moves & s1 & [_ ->]%lift_Ok & Hrun).
  destruct moves as [|first [|second rest]]; [done| |].
  - injection Hrun as _ <- <-. cbn. lia.
  - apply bind_Ok in Hrun as (res & s1 & Hr & Hrun).
    apply _run_algorithm_step in Hr as [Hs Hp].
    destruct Hs as (Ht & Hd1 & Hd2 & Hp1 & Hp2). cbn in Ht, Hd1, Hd2, Hp1, Hp2.
    destruct res.1.1;
      apply bind_Ok in Hrun as (final & s2 & [_ ->]%lift_Ok & Hrun);
      injection Hrun as _ <- <-; cbn;
      (split_and!; try done; try lia; intros Hne; by rewrite Hp).
Qed.

(** ** The route [POST /move] *)

Lemma is_valid_board_parse raw :
  is_valid_board raw = true →
  ∃ board, parse_board raw = Some board ∧ raw = render_board board ∧
           is3x3 board.
Proof.
  intros (board & -> & Hb & _)%is_valid_board_true.
  exists board. by rewrite parse_render.
Qed.

(** [get_best_move] on a board with an empty cell: it returns, unless the
    rationale of a dispatched depth-limited search cannot be written. *)
Lemma get_best_move_outcome fuel env board algorithm difficulty max_depth st :
  is3x3 board → (10 ≤ fuel)%nat → empty_cells board ≠ [] →
  (∃ move analysis st',
     get_best_move fuel env board algorithm difficulty max_depth st =
       Ok ((move, analysis), st') ∧
     (length (empty_cells board) = 1%nat ∨
      depth_prints algorithm (_get_search_depth difficulty max_depth))) ∨
  (∃ first second rest,
     empty_cells board = first :: second :: rest ∧
     algorithm = "depth_limited" ∧
     10 ^ int_max_str_digits ≤
       Z.abs (_get_search_depth difficulty max_depth) ∧
     get_best_move fuel env board algorithm difficulty max_depth st =
       Raise int_str_error).
Proof.
  intros Hb Hfuel Hsome.
  pose proof (get_available_moves_empty_cells board Hb) as Hmoves.
  destruct (empty_cells board) as [|first [|second rest]] eqn:Hcells.
  - done.
  - left. unfold get_best_move.
    unfold mbind at 1, M_bind at 1. cbn [_reset_stats].
    unfold mbind, M_bind. rewrite Hmoves. cbn. eexists _, _, _. eauto.
  - destruct (depth_prints_cases algorithm
                (_get_search_depth difficulty max_depth))
      as [Hprints|[-> Hbig]].
    + left.
      destruct (_run_algorithm_minimax fuel board
                  (_get_search_depth difficulty max_depth) Hb Hfuel)
        as (mv & v & Hmm & _).
      destruct (get_best_move_search fuel env board algorithm difficulty
                  max_depth st first second rest mv v Hb Hfuel Hcells
                  Hprints Hmm)
        as (final & reason & s1 & _ & Hbest).
      rewrite Hbest. eexists _, _, _. eauto.
    + right. exists first, second, rest. split_and!; try done.
      by apply (get_best_move_limit _ _ _ _ _ _ first second rest).
Qed.

(** A move of "O" completes no line of "X". *)
Lemma make_move_O_no_X_line board m board' :
  make_move board m O = Ok board' → has_line board' X → has_line board X.
Proof.
  intros Hmk HX. unfold has_line.
  eapply Exists_impl; [exact HX|]. intros combination Hocc.
  unfold occupies. eapply Forall_impl; [exact Hocc|]. intros [r c]. cbn.
  rewrite (make_move_cell _ _ _ _ r c Hmk). by case_decide.
Qed.

Lemma winner_or_draw_over board :
  is3x3 board → is_game_over board = Ok true →
  ∃ w, winner_or_draw board = Ok (Some w) ∧
       ((w = "X" ∧ check_winner board = Ok (Some X)) ∨
        (w = "O" ∧ check_winner board = Ok (Some O)) ∨
        (w = "draw" ∧ check_winner board = Ok None ∧
         no_empty_cell board)).
Proof.
  intros Hb Hover.
  destruct (is_game_over_spec board Hb) as (w & Hw & Hd & Hg).
  rewrite Hg in Hover. unfold winner_or_draw. rewrite Hw.
  cbn [mbind result_bind].
  destruct w as [[| |]|].
  - cbn. eauto 10.
  - cbn. eauto 10.
  - by destruct (check_winner_Some board EMPTY Hw).
  - rewrite Hd. cbn in Hover. injection Hover as Hfull. rewrite Hfull. cbn.
    eexists. split; [done|]. right. right. split; [done|]. split; [done|].
    intros r c. by apply board_full_true.
Qed.

(** The outcome of a request.  An invalid board is answered with the
    error "INVALID_BOARD" and a valid board on which the game is over with
    the error "GAME_OVER" and a message that names "X", "O" or "draw".  A
    valid board with at least two available moves is answered with the
    error "NO_MOVES_AVAILABLE", carrying the text of the interpreter's
    error about the conversion of a long integer, when the algorithm is
    the depth-limited search and its depth has more than 4300 digits.
    These three have status 400.  Every other request is answered with a
    response; the error "INTERNAL_ERROR" is never the answer. *)
Theorem get_ai_move_outcome fuel env request :
  (10 ≤ fuel)%nat →
  match Routes.get_ai_move fuel env request with
  | inl e =>
      (is_valid_board (AIRequest.board request) = false ∧
       e = HTTPException.mk 400 "INVALID_BOARD"
             (Some "Invalid board state provided")) ∨
      (∃ board w,
         is_valid_board (AIRequest.board request) = true ∧
         AIRequest.board request = render_board board ∧
         is_game_over board = Ok true ∧
         w ∈ ["X"; "O"; "draw"] ∧
         e = HTTPException.mk 400 "GAME_OVER"
               (Some ("Game is already over. Winner: " +:+ w))) ∨
      (∃ board first second rest,
         is_valid_board (AIRequest.board request) = true ∧
         AIRequest.board request = render_board board ∧
         is_game_over board = Ok false ∧
         get_available_moves board = Ok (first :: second :: rest) ∧
         AIRequest.algorithm request = DEPTH_LIMITED ∧
         10 ^ int_max_str_digits ≤
           Z.abs (_get_search_depth
                    (Difficulty_value (AIRequest.difficulty request))
                    (AIRequest.max_depth request)) ∧
         e = HTTPException.mk 400 "NO_MOVES_AVAILABLE"
               (Routes.exn_message int_str_error))
  | inr response =>
      ∃ board moves,
        is_valid_board (AIRequest.board request) = true ∧
        AIRequest.board request = render_board board ∧
        is_game_over board = Ok false ∧
        get_available_moves board = Ok moves ∧
        (length moves = 1%nat ∨
         depth_prints (Algorithm_value (AIRequest.algorithm request))
           (_get_search_depth
              (Difficulty_value (AIRequest.difficulty request))
              (AIRequest.max_depth request)))
  end.
Proof.
  intros Hfuel. unfold Routes.get_ai_move, Routes.get_ai_move_body.
  destruct (is_valid_board (AIRequest.board request)) eqn:Hvalid; cbn [negb];
    [|by left].
  destruct (is_valid_board_parse _ Hvalid) as (board & -> & Hraw & Hb).
  destruct (is_game_over_spec board Hb) as (w0 & _ & _ & Hg).
  rewrite Hg. cbn [mbind result_bind].
  destruct (negb _ || _) eqn:Hover.
  - destruct (winner_or_draw_over board Hb Hg) as (w & -> & Hw).
    cbn. right. left. exists board, w. split_and!; try done.
    rewrite !elem_of_cons.
    destruct Hw as [[-> _]|[[-> _]|[-> _]]]; auto.
  - destruct (not_over_empty_cells board Hb Hg) as [_ Hcells].
    pose proof (get_available_moves_empty_cells board Hb) as Hmoves.
    destruct (get_best_move_outcome fuel env board
                (Algorithm_value (AIRequest.algorithm request))
                (Difficulty_value (AIRequest.difficulty request))
                (AIRequest.max_depth request)
                (mkStats 0 0 0 (time_at_reset env)) Hb Hfuel Hcells)
      as [(move & analysis & st' & Hbest & Hwhy)|
          (first & second & rest & Hcs & Halg & Hbig & Hbest)].
    + rewrite Hbest.
      pose proof (get_best_move_empty_cell _ _ _ _ _ _ _ _ _ _ Hb Hfuel
                    Hbest) as Hin.
      destruct (empty_cells_inv _ _ Hin) as (r & c & -> & Hr & Hc & _).
      destruct (make_move_total board (Move_at r c) O Hb Hr Hc)
        as (new_board & -> & Hb').
      cbn [mbind result_bind].
      destruct (is_game_over_spec new_board Hb') as (w1 & Hw1 & Hd1 & Hg1).
      rewrite Hg1. cbn [mbind result_bind].
      destruct (negb (bool_decide (w1 = None)) || board_full new_board)
        eqn:Hover'.
      * destruct (winner_or_draw_over new_board Hb' Hg1) as (w & -> & _).
        cbn. by exists board, (empty_cells board).
      * cbn. by exists board, (empty_cells board).
    + rewrite Hbest. cbn. right. right.
      exists board, first, second, rest. rewrite Hcs in Hmoves.
      split_and!; try done.
      by destruct (AIRequest.algorithm request).
Qed.

(** A response carries a move that is available on the board of the
    request and the evaluation score of its analysis; its [game_over] is
    what [is_game_over] says of the board after "O" has made the move;
    and its winner is absent exactly when the game goes on, "O" when "O"
    has completed a line, and "draw" when the board is full without a
    line.  It is never "X". *)
Theorem get_ai_move_response fuel env request response :
  (10 ≤ fuel)%nat →
  Routes.get_ai_move fuel env request = inr response →
  ∃ board moves new_board,
    AIRequest.board request = render_board board ∧
    get_available_moves board = Ok moves ∧
    AIResponse.move response ∈ moves ∧
    AIResponse.evaluation response =
      AlgorithmAnalysis.evaluation_score (AIResponse.analysis response) ∧
    make_move board (AIResponse.move response) O = Ok new_board ∧
    is_game_over new_board = Ok (AIResponse.game_over response) ∧
    match AIResponse.winner response with
    | None => AIResponse.game_over response = false
    | Some w =>
        AIResponse.game_over response = true ∧
        ((w = "O" ∧ has_line new_board O) ∨
         (w = "draw" ∧ ¬ has_line new_board O ∧ no_empty_cell new_board))
    end.
Proof.
  intros Hfuel. unfold Routes.get_ai_move, Routes.get_ai_move_body.
  destruct (is_valid_board (AIRequest.board request)) eqn:Hvalid; cbn [negb];
    [|done].
  destruct (is_valid_board_parse _ Hvalid) as (board & -> & Hraw & Hb).
  destruct (is_game_over_spec board Hb) as (w0 & _ & _ & Hg).
  rewrite Hg. cbn [mbind result_bind].
  destruct (negb _ || _) eqn:Hover.
  { by destruct (winner_or_draw_over board Hb Hg) as (w & -> & Hw). }
  destruct (not_over_empty_cells board Hb Hg) as [Hnone Hcells].
  destruct (get_best_move_outcome fuel env board
              (Algorithm_value (AIRequest.algorithm request))
              (Difficulty_value (AIRequest.difficulty request))
              (AIRequest.max_depth request)
              (mkStats 0 0 0 (time_at_reset env)) Hb Hfuel Hcells)
    as [(move & analysis & st' & Hbest & _)|
        (first & second & rest & _ & _ & _ & Hbest)];
    [|by rewrite Hbest].
  rewrite Hbest.
  pose proof (get_best_move_empty_cell _ _ _ _ _ _ _ _ _ _ Hb Hfuel Hbest)
    as Hin.
  pose proof (get_available_moves_empty_cells board Hb) as Hmoves.
  destruct (empty_cells_inv _ _ Hin) as (r & c & -> & Hr & Hc & _).
  destruct (make_move_total board (Move_at r c) O Hb Hr Hc)
    as (new_board & Hmk & Hb').
  rewrite Hmk. cbn [mbind result_bind].
  destruct (is_game_over_spec new_board Hb') as (w1 & Hw1 & Hd1 & Hg1).
  rewrite Hg1. cbn [mbind result_bind].
  assert (¬ has_line new_board X) as HnoX.
  { intros HX%(make_move_O_no_X_line _ _ _ Hmk).
    by apply (check_winner_None board X Hnone). }
  destruct (negb (bool_decide (w1 = None)) || board_full new_board)
      eqn:Hover'.
  - destruct (winner_or_draw_over new_board Hb' Hg1) as (w & -> & Hw).
    cbn. intros [= <-]. cbn.
    exists board, (empty_cells board), new_board. split_and!; try done.
    destruct Hw as [[-> Hw]|[[-> Hw]|(-> & Hw & Hfull)]].
    + destruct HnoX. by apply (check_winner_Some new_board X).
    + left. split; [done|]. by apply (check_winner_Some new_board O).
    + right. split; [done|]. split; [|done].
      by apply (check_winner_None new_board O).
  - cbn. intros [= <-]. cbn.
    by exists board, (empty_cells board), new_board.
Qed.

(** The depth-limited search with a depth limit of 4301 digits, on a board
    with six available moves: the answer is the error that names missing
    moves, with the text of the conversion error. *)
Lemma get_ai_move_long_depth :
  Routes.get_ai_move 10 env_below request_long_depth =
    inl (HTTPException.mk 400 "NO_MOVES_AVAILABLE"
           (Some "Exceeds the limit (4300 digits) for integer string conversion; use sys.set_int_max_str_digits() to increase the limit")).
Proof. by vm_compute. Qed.

(** ** The further properties at concrete inputs *)

Lemma is_valid_move_available_witness :
  ∃ ok moves,
    is_valid_move board_open 0 2 = Ok ok ∧
    get_available_moves board_open = Ok moves ∧
    (ok = true ↔
     0 ≤ 0 ∧ 0 ≤ 2 ∧ Move_at (Z.to_nat 0) (Z.to_nat 2) ∈ moves).
Proof.
  apply (is_valid_move_available board_open 0 2).
  split; [reflexivity|repeat constructor].
Defined.

Lemma get_available_moves_after_move_witness :
  get_available_moves [[X; X; O]; [O; EMPTY; EMPTY]; [EMPTY; EMPTY; EMPTY]] =
    Ok (filter (λ m', m' ≠ Move_at 0 2) (empty_cells board_open)) ∧
  S (length (filter (λ m', m' ≠ Move_at 0 2) (empty_cells board_open))) =
    length (empty_cells board_open).
Proof.
  apply (get_available_moves_after_move board_open (empty_cells board_open)
           (Move_at 0 2) O).
  - split; [reflexivity|repeat constructor].
  - reflexivity.
  - apply (bool_decide_unpack _). vm_compute. exact I.
  - discriminate.
  - reflexivity.
Defined.

Lemma check_winner_spec_witness :
  ∃ w,
    check_winner board_won = Ok w ∧
    (∀ p, w = Some p → (p = X ∨ p = O) ∧ has_line board_won p) ∧
    (w = None ↔ ¬ has_line board_won X ∧ ¬ has_line board_won O).
Proof.
  apply (check_winner_spec board_won).
  split; [reflexivity|repeat constructor].
Defined.

Lemma is_game_over_moves_witness :
  ∃ w moves,
    check_winner board_drawn = Ok w ∧
    get_available_moves board_drawn = Ok moves ∧
    is_draw board_drawn = Ok (bool_decide (w = None ∧ moves = [])) ∧
    is_game_over board_drawn = Ok (bool_decide (w ≠ None ∨ moves = [])).
Proof.
  apply (is_game_over_moves board_drawn).
  split; [reflexivity|repeat constructor].
Defined.

Lemma get_game_state_spec_witness :
  ∃ gs moves,
    get_game_state board_open = Ok gs ∧
    get_available_moves board_open = Ok moves ∧
    GameState.board gs = board_open ∧
    (GameState.move_count gs + length moves = 9)%nat ∧
    (GameState.winner gs = None ↔ is_game_over board_open = Ok false).
Proof.
  apply (get_game_state_spec board_open).
  split; [reflexivity|repeat constructor].
Defined.

Lemma turn_passes_witness :
  is_valid_board
    (render_board [[X; X; O]; [O; EMPTY; EMPTY]; [EMPTY; EMPTY; EMPTY]]) =
    true ∧
  ∃ gs',
    get_game_state [[X; X; O]; [O; EMPTY; EMPTY]; [EMPTY; EMPTY; EMPTY]] =
      Ok gs' ∧
    GameState.current_player gs' ≠ O ∧
    GameState.current_player gs' ≠ EMPTY ∧
    GameState.move_count gs' = 4%nat.
Proof.
  apply (turn_passes board_open (GameState.mk board_open O None 3)
           (empty_cells board_open) (Move_at 0 2)).
  - reflexivity.
  - reflexivity.
  - reflexivity.
  - apply (bool_decide_unpack _). vm_compute. exact I.
  - reflexivity.
Defined.

Lemma minimax_best_move_witness :
  ∃ pre m post v,
    get_available_moves board_open = Ok (pre ++ m :: post) ∧
    (∀ st, ∃ st', minimax 10 board_open 0 true 9 st =
                    Ok ((Some m, Fin v), st')) ∧
    (∀ st, ∃ st', alpha_beta 10 board_open 0 NegInf PosInf true 9 st =
                    Ok ((Some m, Fin v), st')) ∧
    successor_score 10 board_open 0 9 O false m v ∧
    (∀ m', m' ∈ pre →
       ∃ v', successor_score 10 board_open 0 9 O false m' v' ∧ v' < v) ∧
    (∀ m', m' ∈ post →
       ∃ v', successor_score 10 board_open 0 9 O false m' v' ∧ v' ≤ v).
Proof.
  apply (minimax_best_move 10 board_open 0 9 true).
  - split; [reflexivity|repeat constructor].
  - lia.
  - reflexivity.
Defined.

Lemma evaluate_position_undecided_witness :
  ∃ v, (∀ depth, evaluate_position board_open depth = Ok v) ∧
       -8 ≤ v ≤ 8 ∧
       (no_empty_cell board_open → v = 0) ∧
       (∀ depth, 0 ≤ depth ≤ 9 → -100 + depth < v < 100 - depth).
Proof.
  apply (evaluate_position_undecided board_open).
  - split; [reflexivity|repeat constructor].
  - apply (bool_decide_unpack _). vm_compute. exact I.
  - apply (bool_decide_unpack _). vm_compute. exact I.
Defined.

Lemma minimax_score_range_witness :
  ∃ mv v,
    (∀ st, ∃ st', minimax 10 board_open 0 true 9 st =
                    Ok ((mv, Fin v), st')) ∧
    -100 + 0 ≤ v ≤ 100 - 0.
Proof.
  apply (minimax_score_range 10 board_open 0 9 true).
  - split; [reflexivity|repeat constructor].
  - lia.
  - lia.
Defined.

Lemma get_best_move_legal_witness :
  ∃ moves board',
    get_available_moves board_open = Ok moves ∧ Move_at 0 2 ∈ moves ∧
    is_valid_move board_open (Z.of_nat (row (Move_at 0 2)))
      (Z.of_nat (col (Move_at 0 2))) = Ok true ∧
    make_move board_open (Move_at 0 2) O = Ok board' ∧
    cell board' (row (Move_at 0 2)) (col (Move_at 0 2)) = Ok O.
Proof.
  apply (get_best_move_legal 10 env_below board_open "alpha_beta" "hard" None
           (mkStats 0 0 0 0) (Move_at 0 2)
           (AlgorithmAnalysis.mk 82 27 6 15
              "Alpha-beta pruning found best move (pruned 27 branches)"
              (Fin (-96)))
           (mkStats 82 27 6 10)).
  - split; [reflexivity|repeat constructor].
  - lia.
  - vm_compute. reflexivity.
Defined.

Lemma get_best_move_any_algorithm_witness :
  ∃ move analysis1 analysis2 st1' st2',
    get_best_move 10 env_below board_open "alpha_beta" "hard" None
      (mkStats 0 0 0 0) = Ok ((move, analysis1), st1') ∧
    get_best_move 10 env_below board_open "depth_limited" "hard" None
      (mkStats 7 7 7 7) = Ok ((move, analysis2), st2') ∧
    AlgorithmAnalysis.evaluation_score analysis1 =
      AlgorithmAnalysis.evaluation_score analysis2.
Proof.
  apply (get_best_move_any_algorithm 10 env_below board_open "alpha_beta"
           "depth_limited" "hard" None (mkStats 0 0 0 0) (mkStats 7 7 7 7)).
  - split; [reflexivity|repeat constructor].
  - lia.
  - intros Hfull. apply (Hfull 0 2)%nat. reflexivity.
  - intros H. discriminate H.
  - intros _. vm_compute. reflexivity.
Defined.

Lemma get_best_move_takes_immediate_win_witness :
  ∃ move analysis st' board',
    get_best_move 10 env_below board_O_to_win "depth_limited" "hard" None
      (mkStats 0 0 0 0) = Ok ((move, analysis), st') ∧
    make_move board_O_to_win move O = Ok board' ∧
    check_winner board' = Ok (Some O).
Proof.
  apply (get_best_move_takes_immediate_win 10 env_below board_O_to_win
           "depth_limited" "hard" None (mkStats 0 0 0 0)
           (empty_cells board_O_to_win) (Move_at 0 2)
           [[O; O; O]; [X; X; EMPTY]; [EMPTY; EMPTY; EMPTY]]).
  - split; [reflexivity|repeat constructor].
  - lia.
  - reflexivity.
  - vm_compute. discriminate.
  - intros _. vm_compute. reflexivity.
  - left. discriminate.
  - reflexivity.
  - apply (bool_decide_unpack _). vm_compute. exact I.
  - reflexivity.
  - reflexivity.
Defined.

Lemma get_best_move_statistics_witness :
  0 ≤ 6 ≤ Z.max 0 (_get_search_depth "hard" None) ∧
  0 ≤ 27 ≤ 82 ∧
  ("alpha_beta" ≠ "alpha_beta" → 27 = 0) ∧
  15 = time_at_analysis env_below - time_at_reset env_below ∧
  82 = nodes_explored (mkStats 82 27 6 10) ∧
  27 = pruned_branches (mkStats 82 27 6 10) ∧
  6 = max_depth_reached (mkStats 82 27 6 10).
Proof.
  apply (get_best_move_statistics 10 env_below board_open "alpha_beta" "hard"
           None (mkStats 0 0 0 0) (Move_at 0 2)
           (AlgorithmAnalysis.mk 82 27 6 15
              "Alpha-beta pruning found best move (pruned 27 branches)"
              (Fin (-96)))
           (mkStats 82 27 6 10)).
  vm_compute. reflexivity.
Defined.

Lemma get_ai_move_outcome_witness :
  match Routes.get_ai_move 10 env_below request_long_depth with
  | inl e =>
      (is_valid_board (AIRequest.board request_long_depth) = false ∧
       e = HTTPException.mk 400 "INVALID_BOARD"
             (Some "Invalid board state provided")) ∨
      (∃ board w,
         is_valid_board (AIRequest.board request_long_depth) = true ∧
         AIRequest.board request_long_depth = render_board board ∧
         is_game_over board = Ok true ∧
         w ∈ ["X"; "O"; "draw"] ∧
         e = HTTPException.mk 400 "GAME_OVER"
               (Some ("Game is already over. Winner: " +:+ w))) ∨
      (∃ board first second rest,
         is_valid_board (AIRequest.board request_long_depth) = true ∧
         AIRequest.board request_long_depth = render_board board ∧
         is_game_over board = Ok false ∧
         get_available_moves board = Ok (first :: second :: rest) ∧
         AIRequest.algorithm request_long_depth = DEPTH_LIMITED ∧
         10 ^ int_max_str_digits ≤
           Z.abs (_get_search_depth
                    (Difficulty_value (AIRequest.difficulty request_long_depth))
                    (AIRequest.max_depth request_long_depth)) ∧
         e = HTTPException.mk 400 "NO_MOVES_AVAILABLE"
               (Routes.exn_message int_str_error))
  | inr response =>
      ∃ board moves,
        is_valid_board (AIRequest.board request_long_depth) = true ∧
        AIRequest.board request_long_depth = render_board board ∧
        is_game_over board = Ok false ∧
        get_available_moves board = Ok moves ∧
        (length moves = 1%nat ∨
         depth_prints
           (Algorithm_value (AIRequest.algorithm request_long_depth))
           (_get_search_depth
              (Difficulty_value (AIRequest.difficulty request_long_depth))
              (AIRequest.max_depth request_long_depth)))
  end.
Proof.
  apply (get_ai_move_outcome 10 env_below request_long_depth). lia.
Defined.

Lemma get_ai_move_response_witness :
  ∃ board moves new_board,
    AIRequest.board request_O_to_win = render_board board ∧
    get_available_moves board = Ok moves ∧
    AIResponse.move response_O_wins ∈ moves ∧
    AIResponse.evaluation response_O_wins =
      AlgorithmAnalysis.evaluation_score
        (AIResponse.analysis response_O_wins) ∧
    make_move board (AIResponse.move response_O_wins) O = Ok new_board ∧
    is_game_over new_board = Ok (AIResponse.game_over response_O_wins) ∧
    match AIResponse.winner response_O_wins with
    | None => AIResponse.game_over response_O_wins = false
    | Some w =>
        AIResponse.game_over response_O_wins = true ∧
        ((w = "O" ∧ has_line new_board O) ∨
         (w = "draw" ∧ ¬ has_line new_board O ∧ no_empty_cell new_board))
    end.
Proof.
  apply (get_ai_move_response 10 env_below request_O_to_win response_O_wins).
  - lia.
  - vm_compute. reflexivity.
Defined.
